(** * GAQL lexer, parser, validator and printer of adtap (package gaql)

    A shallow embedding of [internal/gaql]: token.go, lexer.go, the AST with
    its printer, the recursive-descent parser and the semantic validator,
    followed by the properties proved about them.

    Go strings are byte sequences: they are modelled by [string], whose
    characters are the 256 values of [ascii].  Go's [int] positions and the
    LIMIT value are unbounded here ([nat] resp. [Z]); strconv.Atoi's 64-bit
    range check is written out. *)

From Stdlib Require Import Bool Arith ZArith Lia List String Ascii.
From Stdlib Require Import DecimalString DecimalPos Sorted.
Import ListNotations.

Local Open Scope string_scope.

(** ** Bytes and strings *)

Definition byte_of (n : nat) : ascii := ascii_of_nat n.
Definition code (c : ascii) : nat := nat_of_ascii c.

Definition in_range (lo hi : nat) (c : ascii) : bool :=
  ((lo <=? code c) && (code c <=? hi))%nat.

(** lexer.go [isDigit]: [ch >= '0' && ch <= '9']. *)
Definition isDigit (ch : ascii) : bool := in_range 48 57 ch.

(** lexer.go [isLetter]: [unicode.IsLetter(rune(ch))] on a byte, that is the
    letters of Latin-1: A-Z, a-z, U+00AA, U+00B5, U+00BA, U+00C0-U+00D6,
    U+00D8-U+00F6 and U+00F8-U+00FF. *)
Definition isLetter (ch : ascii) : bool :=
  in_range 65 90 ch || in_range 97 122 ch
  || (code ch =? 170)%nat || (code ch =? 181)%nat || (code ch =? 186)%nat
  || in_range 192 214 ch || in_range 216 246 ch || in_range 248 255 ch.

Definition isASCII (s : string) : bool :=
  forallb (fun c => (code c <? 128)%nat) (list_ascii_of_string s).

Definition upper_byte (c : ascii) : ascii :=
  if in_range 97 122 c then byte_of (code c - 32) else c.

Fixpoint map_bytes (f : ascii -> ascii) (s : string) : string :=
  match s with
  | EmptyString => EmptyString
  | String c rest => String (f c) (map_bytes f rest)
  end.

(** The rune path of [strings.ToUpper].  Only two runes outside ASCII have an
    ASCII upper case: U+0131 (bytes C4 B1, upper case I) and U+017F (bytes
    C5 BF, upper case S).  Every other byte above 0x7F is left in place: Go
    writes some non-ASCII rune there (the upper case of the rune, or U+FFFD
    for a byte that is not UTF-8), and the program only ever compares the
    result with ASCII keys. *)
Fixpoint ToUpper_runes (s : string) : string :=
  match s with
  | EmptyString => EmptyString
  | String c rest =>
      match rest with
      | String d rest' =>
          if ((code c =? 196) && (code d =? 177))%nat then String "I" (ToUpper_runes rest')
          else if ((code c =? 197) && (code d =? 191))%nat then String "S" (ToUpper_runes rest')
          else String (upper_byte c) (ToUpper_runes rest)
      | EmptyString => String (upper_byte c) EmptyString
      end
  end.

(** [strings.ToUpper]: the ASCII fast path, else the rune path. *)
Definition ToUpper (s : string) : string :=
  if isASCII s then map_bytes upper_byte s else ToUpper_runes s.

(** [strings.HasPrefix]. *)
Fixpoint HasPrefix (s p : string) {struct p} : bool :=
  match p with
  | EmptyString => true
  | String b p' =>
      match s with
      | EmptyString => false
      | String a s' => Ascii.eqb a b && HasPrefix s' p'
      end
  end.

Arguments HasPrefix : simpl never.

(** [strings.Join]. *)
Fixpoint Join (elems : list string) (sep : string) : string :=
  match elems with
  | [] => ""
  | [x] => x
  | x :: rest => x ++ sep ++ Join rest sep
  end.

(** [string(ch)] for a byte [ch]: the UTF-8 encoding of the rune U+00XX. *)
Definition string_of_rune (ch : ascii) : string :=
  if (code ch <? 128)%nat then String ch ""
  else String (byte_of (192 + code ch / 64)) (String (byte_of (128 + code ch mod 64)) "").

(** A static Go map literal, looked up by key. *)
Fixpoint lookup {V : Type} (table : list (string * V)) (k : string) : option V :=
  match table with
  | [] => None
  | (k', v) :: rest => if String.eqb k k' then Some v else lookup rest k
  end.

(** ** token.go *)

Inductive TokenType : Type :=
| TokenEOF | TokenError
| TokenSelect | TokenFrom | TokenWhere | TokenOrderBy | TokenLimit
| TokenParameters | TokenAnd | TokenOr | TokenNot | TokenAsc | TokenDesc
| TokenIn | TokenLike | TokenContains | TokenAny | TokenAll | TokenNone
| TokenIs | TokenNull | TokenDuring | TokenBetween | TokenRegexpMatch
| TokenIdent | TokenString | TokenNumber | TokenDateRange
| TokenEq | TokenNeq | TokenGt | TokenGte | TokenLt | TokenLte
| TokenComma | TokenLParen | TokenRParen | TokenDot.

Definition TokenType_eq_dec (a b : TokenType) : {a = b} + {a <> b}.
Proof. decide equality. Defined.

Definition TokenType_eqb (a b : TokenType) : bool :=
  if TokenType_eq_dec a b then true else false.

Record Token : Type := mkToken {
  tType : TokenType;
  tValue : string;
  tLine : nat;
  tColumn : nat
}.

(** [TokenType.String]. *)
Definition TokenType_String (t : TokenType) : string :=
  match t with
  | TokenEOF => "EOF" | TokenError => "ERROR"
  | TokenSelect => "SELECT" | TokenFrom => "FROM" | TokenWhere => "WHERE"
  | TokenOrderBy => "ORDER BY" | TokenLimit => "LIMIT"
  | TokenParameters => "PARAMETERS" | TokenAnd => "AND" | TokenOr => "OR"
  | TokenNot => "NOT" | TokenAsc => "ASC" | TokenDesc => "DESC"
  | TokenIn => "IN" | TokenLike => "LIKE" | TokenContains => "CONTAINS"
  | TokenAny => "ANY" | TokenAll => "ALL" | TokenNone => "NONE"
  | TokenIs => "IS" | TokenNull => "NULL" | TokenDuring => "DURING"
  | TokenBetween => "BETWEEN" | TokenRegexpMatch => "REGEXP_MATCH"
  | TokenIdent => "IDENT" | TokenString => "STRING" | TokenNumber => "NUMBER"
  | TokenDateRange => "DATE_RANGE"
  | TokenEq => "=" | TokenNeq => "!=" | TokenGt => ">" | TokenGte => ">="
  | TokenLt => "<" | TokenLte => "<="
  | TokenComma => "," | TokenLParen => "(" | TokenRParen => ")" | TokenDot => "."
  end.

Definition Keywords : list (string * TokenType) :=
  [ ("SELECT", TokenSelect); ("FROM", TokenFrom); ("WHERE", TokenWhere);
    ("ORDER", TokenIdent); ("BY", TokenIdent);
    ("LIMIT", TokenLimit); ("PARAMETERS", TokenParameters);
    ("AND", TokenAnd); ("OR", TokenOr); ("NOT", TokenNot);
    ("ASC", TokenAsc); ("DESC", TokenDesc); ("IN", TokenIn);
    ("LIKE", TokenLike); ("CONTAINS", TokenContains); ("ANY", TokenAny);
    ("ALL", TokenAll); ("NONE", TokenNone); ("IS", TokenIs);
    ("NULL", TokenNull); ("DURING", TokenDuring); ("BETWEEN", TokenBetween);
    ("REGEXP_MATCH", TokenRegexpMatch) ].

(** ** The date ranges of the AST (declared with the AST, used by the lexer) *)

Inductive DateRange : Type :=
| DateRangeToday | DateRangeYesterday | DateRangeLast7Days
| DateRangeLast14Days | DateRangeLast30Days | DateRangeThisMonth
| DateRangeLastMonth | DateRangeThisWeekSunToday | DateRangeThisWeekMonToday
| DateRangeLastWeekSunSat | DateRangeLastWeekMonSun
| DateRangeLastBusinessWeek | DateRangeCustom.

Definition DateRange_eq_dec (a b : DateRange) : {a = b} + {a <> b}.
Proof. decide equality. Defined.

Definition DateRange_eqb (a b : DateRange) : bool :=
  if DateRange_eq_dec a b then true else false.

Definition DateRangeKeywords : list (string * DateRange) :=
  [ ("TODAY", DateRangeToday); ("YESTERDAY", DateRangeYesterday);
    ("LAST_7_DAYS", DateRangeLast7Days); ("LAST_14_DAYS", DateRangeLast14Days);
    ("LAST_30_DAYS", DateRangeLast30Days); ("THIS_MONTH", DateRangeThisMonth);
    ("LAST_MONTH", DateRangeLastMonth);
    ("THIS_WEEK_SUN_TODAY", DateRangeThisWeekSunToday);
    ("THIS_WEEK_MON_TODAY", DateRangeThisWeekMonToday);
    ("LAST_WEEK_SUN_SAT", DateRangeLastWeekSunSat);
    ("LAST_WEEK_MON_SUN", DateRangeLastWeekMonSun);
    ("LAST_BUSINESS_WEEK", DateRangeLastBusinessWeek) ].

(** ** errors.go *)

Record ParseError : Type := mkParseError {
  peMessage : string;
  peLine : nat;
  peColumn : nat
}.

Record ValidationError : Type := mkValidationError {
  veMessage : string;
  veField : string
}.

(** ** lexer.go

    The lexer state is the unread input [input[pos:]] with the current line
    and column. *)

Record Lexer : Type := mkLexer {
  input : string;
  line : nat;
  column : nat
}.

Definition NewLexer (s : string) : Lexer := mkLexer s 1 1.

Definition newline : ascii := byte_of 10.
Definition tab : ascii := byte_of 9.
Definition carriage_return : ascii := byte_of 13.
Definition backslash : ascii := byte_of 92.
Definition single_quote : ascii := byte_of 39.
Definition double_quote : ascii := byte_of 34.
Definition zero_byte : ascii := byte_of 0.

(** [Lexer.advance]. *)
Definition advance (l : Lexer) : Lexer :=
  match input l with
  | EmptyString => l
  | String ch rest =>
      if Ascii.eqb ch newline then mkLexer rest (line l + 1) 1
      else mkLexer rest (line l) (column l + 1)
  end.

(** [Lexer.peek]. *)
Definition peek (l : Lexer) (offset : nat) : ascii :=
  match String.get offset (input l) with
  | Some ch => ch
  | None => zero_byte
  end.

(** [Lexer.skipWhitespace]. *)
Fixpoint skipWhitespace_from (s : string) (ln col : nat) : Lexer :=
  match s with
  | EmptyString => mkLexer s ln col
  | String ch rest =>
      if Ascii.eqb ch " " || Ascii.eqb ch tab || Ascii.eqb ch carriage_return
      then skipWhitespace_from rest ln (col + 1)
      else if Ascii.eqb ch newline then skipWhitespace_from rest (ln + 1) 1
      else mkLexer s ln col
  end.

Definition skipWhitespace (l : Lexer) : Lexer :=
  skipWhitespace_from (input l) (line l) (column l).

(** The escape table of [readString]. *)
Definition unescape (escaped : ascii) : ascii :=
  if Ascii.eqb escaped "n" then newline
  else if Ascii.eqb escaped "t" then tab
  else escaped.

(** The loop of [Lexer.readString], after the opening quote. *)
Fixpoint readString_loop (quote : ascii) (startLine startCol : nat)
    (s : string) (ln col : nat) (sb : string) : Token * Lexer :=
  match s with
  | EmptyString =>
      (mkToken TokenError "unterminated string" startLine startCol, mkLexer s ln col)
  | String ch rest =>
      if Ascii.eqb ch quote
      then (mkToken TokenString sb startLine startCol, advance (mkLexer s ln col))
      else
        match rest with
        | String escaped rest' =>
            if Ascii.eqb ch backslash then
              let l2 := advance (advance (mkLexer s ln col)) in
              readString_loop quote startLine startCol rest' (line l2) (column l2)
                (sb ++ String (unescape escaped) "")
            else
              let l1 := advance (mkLexer s ln col) in
              readString_loop quote startLine startCol rest (line l1) (column l1)
                (sb ++ String ch "")
        | EmptyString =>
            let l1 := advance (mkLexer s ln col) in
            readString_loop quote startLine startCol rest (line l1) (column l1)
              (sb ++ String ch "")
        end
  end.

Definition readString (quote : ascii) (l : Lexer) : Token * Lexer :=
  let l1 := advance l in
  readString_loop quote (line l) (column l) (input l1) (line l1) (column l1) "".

(** [for l.pos < len(l.input) && p(l.input[l.pos]) { l.advance() }], with the
    bytes passed over. *)
Fixpoint advanceWhile_from (p : ascii -> bool) (s : string) (ln col : nat)
    : string * Lexer :=
  match s with
  | EmptyString => ("", mkLexer s ln col)
  | String ch rest =>
      if p ch then
        let l1 := advance (mkLexer s ln col) in
        let '(v, l2) := advanceWhile_from p rest (line l1) (column l1) in
        (String ch v, l2)
      else ("", mkLexer s ln col)
  end.

Definition advanceWhile (p : ascii -> bool) (l : Lexer) : string * Lexer :=
  advanceWhile_from p (input l) (line l) (column l).

(** [Lexer.readNumber]; the token value is [input[startPos:pos]]. *)
Definition readNumber (l : Lexer) : Token * Lexer :=
  let '(sign, l1) :=
    match input l with
    | String ch _ => if Ascii.eqb ch "-" then ("-", advance l) else ("", l)
    | EmptyString => ("", l)
    end in
  let '(int_part, l2) := advanceWhile isDigit l1 in
  let '(dec_part, l3) :=
    match input l2 with
    | String ch _ =>
        if Ascii.eqb ch "." then
          let '(digits, l3) := advanceWhile isDigit (advance l2) in
          ("." ++ digits, l3)
        else ("", l2)
    | EmptyString => ("", l2)
    end in
  (mkToken TokenNumber (sign ++ int_part ++ dec_part) (line l) (column l), l3).

Definition isIdentByte (ch : ascii) : bool :=
  isLetter ch || isDigit ch || Ascii.eqb ch "_".

(** [Lexer.readIdentOrKeyword]. *)
Definition readIdentOrKeyword (l : Lexer) : Token * Lexer :=
  let startLine := line l in
  let startCol := column l in
  let '(value, l1) := advanceWhile isIdentByte l in
  let upper := ToUpper value in
  if String.eqb upper "ORDER" then
    let l2 := skipWhitespace l1 in
    if (2 <=? String.length (input l2))%nat
       && String.eqb (ToUpper (substring 0 2 (input l2))) "BY"
    then (mkToken TokenOrderBy "ORDER BY" startLine startCol, advance (advance l2))
    else (mkToken TokenIdent value startLine startCol, l2)
  else
    match lookup DateRangeKeywords upper with
    | Some _ => (mkToken TokenDateRange upper startLine startCol, l1)
    | None =>
        match lookup Keywords upper with
        | Some tokType => (mkToken tokType upper startLine startCol, l1)
        | None => (mkToken TokenIdent value startLine startCol, l1)
        end
    end.

(** [Lexer.nextToken]. *)
Definition nextToken (l0 : Lexer) : Token * Lexer :=
  let l := skipWhitespace l0 in
  match input l with
  | EmptyString => (mkToken TokenEOF "" (line l) (column l), l)
  | String ch _ =>
      let startLine := line l in
      let startCol := column l in
      if Ascii.eqb ch "," then (mkToken TokenComma "," startLine startCol, advance l)
      else if Ascii.eqb ch "(" then (mkToken TokenLParen "(" startLine startCol, advance l)
      else if Ascii.eqb ch ")" then (mkToken TokenRParen ")" startLine startCol, advance l)
      else if Ascii.eqb ch "." then (mkToken TokenDot "." startLine startCol, advance l)
      else if Ascii.eqb ch "=" then (mkToken TokenEq "=" startLine startCol, advance l)
      else if Ascii.eqb ch "!" then
        if Ascii.eqb (peek l 1) "="
        then (mkToken TokenNeq "!=" startLine startCol, advance (advance l))
        else (mkToken TokenError "unexpected character '!'" startLine startCol, l)
      else if Ascii.eqb ch ">" then
        if Ascii.eqb (peek l 1) "="
        then (mkToken TokenGte ">=" startLine startCol, advance (advance l))
        else (mkToken TokenGt ">" startLine startCol, advance l)
      else if Ascii.eqb ch "<" then
        if Ascii.eqb (peek l 1) "="
        then (mkToken TokenLte "<=" startLine startCol, advance (advance l))
        else (mkToken TokenLt "<" startLine startCol, advance l)
      else if Ascii.eqb ch single_quote || Ascii.eqb ch double_quote then readString ch l
      else if Ascii.eqb ch "-" || isDigit ch then readNumber l
      else if isLetter ch || Ascii.eqb ch "_" then readIdentOrKeyword l
      else (mkToken TokenError ("unexpected character '" ++ string_of_rune ch ++ "'")
              startLine startCol, advance l)
  end.

(** The three outcomes of a run: a value, a [ParseError], or the loop bound
    of the model used up (shown below never to happen). *)
Inductive outcome (E A : Type) : Type :=
| Ok (a : A)
| Err (e : E)
| OutOfFuel.
Arguments Ok {E A} a.
Arguments Err {E A} e.
Arguments OutOfFuel {E A}.

Definition result (A : Type) : Type := outcome ParseError A.

(** The loop of [Lexer.Tokenize]: the tokens read so far are [tokens]. *)
Fixpoint Tokenize_loop (fuel : nat) (l : Lexer) (tokens : list Token)
    : result (list Token) :=
  match fuel with
  | O => OutOfFuel
  | S fuel' =>
      let '(tok, l') := nextToken l in
      let tokens' := (tokens ++ [tok])%list in
      if TokenType_eqb (tType tok) TokenEOF then Ok tokens'
      else if TokenType_eqb (tType tok) TokenError
      then Err (mkParseError (tValue tok) (tLine tok) (tColumn tok))
      else Tokenize_loop fuel' l' tokens'
  end.

(** [Lexer.Tokenize] on a fresh lexer; every token but the last takes at least
    one byte of input, so [length s + 1] rounds are enough. *)
Definition Tokenize (s : string) : result (list Token) :=
  Tokenize_loop (S (String.length s)) (NewLexer s) [].

(** ** The AST *)

Record Field : Type := mkField { fName : string }.

Inductive Direction : Type := Asc | Desc.

Inductive Operator : Type :=
| OpEq | OpNeq | OpGt | OpGte | OpLt | OpLte | OpIn | OpNotIn | OpLike
| OpNotLike | OpContainsAny | OpContainsAll | OpContainsNone | OpIsNull
| OpIsNotNull | OpDuring | OpBetween | OpRegexpMatch | OpNotRegexpMatch.

Definition Operator_eq_dec (a b : Operator) : {a = b} + {a <> b}.
Proof. decide equality. Defined.

Definition Operator_eqb (a b : Operator) : bool :=
  if Operator_eq_dec a b then true else false.

Inductive ValueType : Type :=
| ValueString | ValueNumber | ValueList | ValueDateRange | ValueNull.

Definition ValueType_eq_dec (a b : ValueType) : {a = b} + {a <> b}.
Proof. decide equality. Defined.

Definition ValueType_eqb (a b : ValueType) : bool :=
  if ValueType_eq_dec a b then true else false.

(** The [Number] of a [Value].  Go holds a float64; the model holds the exact
    decimal it was read from, [(-1)^neg * mant / 10^scale], and does not round
    it to binary64.  No property below depends on the numeric value. *)
Record float64 : Type := mkFloat {
  fl_neg : bool;
  fl_mant : N;
  fl_scale : nat
}.

Definition float_zero : float64 := mkFloat false 0 0.

Record Value : Type := mkValue {
  vType : ValueType;
  vStr : string;
  vNumber : float64;
  vList : list string;
  vDateRange : DateRange
}.

(** Go's [Value{}] and the composite literals that set some of the fields. *)
Definition Value_zero : Value := mkValue ValueString "" float_zero [] DateRangeToday.
Definition Value_null : Value := mkValue ValueNull "" float_zero [] DateRangeToday.
Definition Value_str (s : string) : Value := mkValue ValueString s float_zero [] DateRangeToday.
Definition Value_num (f : float64) : Value := mkValue ValueNumber "" f [] DateRangeToday.
Definition Value_list (l : list string) : Value := mkValue ValueList "" float_zero l DateRangeToday.
Definition Value_dr (d : DateRange) : Value := mkValue ValueDateRange "" float_zero [] d.

Record Condition : Type := mkCondition {
  cField : string;
  cOperator : Operator;
  cValue : Value
}.

Record Ordering : Type := mkOrdering {
  oField : string;
  oDirection : Direction
}.

(** [Parameters] is a Go map from names to strings: here the list of its
    entries, one per key, in the order the keys were first set. *)
Record Query : Type := mkQuery {
  Select : list Field;
  From : string;
  Where : list Condition;
  OrderBy : list Ordering;
  Limit : Z;
  Parameters : list (string * string)
}.

(** [params[name] = val]. *)
Fixpoint map_set (m : list (string * string)) (k v : string) : list (string * string) :=
  match m with
  | [] => [(k, v)]
  | (k', v') :: rest =>
      if String.eqb k k' then (k, v) :: rest else (k', v') :: map_set rest k v
  end.

Definition Direction_String (d : Direction) : string :=
  match d with Desc => "DESC" | Asc => "ASC" end.

Definition Operator_String (o : Operator) : string :=
  match o with
  | OpEq => "=" | OpNeq => "!=" | OpGt => ">" | OpGte => ">=" | OpLt => "<"
  | OpLte => "<=" | OpIn => "IN" | OpNotIn => "NOT IN" | OpLike => "LIKE"
  | OpNotLike => "NOT LIKE" | OpContainsAny => "CONTAINS ANY"
  | OpContainsAll => "CONTAINS ALL" | OpContainsNone => "CONTAINS NONE"
  | OpIsNull => "IS NULL" | OpIsNotNull => "IS NOT NULL" | OpDuring => "DURING"
  | OpBetween => "BETWEEN" | OpRegexpMatch => "REGEXP_MATCH"
  | OpNotRegexpMatch => "NOT REGEXP_MATCH"
  end.

(** [DateRange.String]: the key of [DateRangeKeywords] that maps to [d]. *)
Fixpoint key_of (table : list (string * DateRange)) (d : DateRange) : option string :=
  match table with
  | [] => None
  | (k, v) :: rest => if DateRange_eqb v d then Some k else key_of rest d
  end.

Definition DateRange_String (d : DateRange) : string :=
  match key_of DateRangeKeywords d with
  | Some k => k
  | None => "CUSTOM"
  end.

(** ** strconv and fmt *)

Fixpoint digits_value (acc : N) (s : string) : option N :=
  match s with
  | EmptyString => Some acc
  | String c rest =>
      if isDigit c then digits_value (acc * 10 + N.of_nat (code c - 48)) rest
      else None
  end.

Definition split_sign (s : string) : bool * string :=
  match s with
  | String c rest =>
      if Ascii.eqb c "-" then (true, rest)
      else if Ascii.eqb c "+" then (false, rest)
      else (false, s)
  | EmptyString => (false, s)
  end.

(** [strconv.Atoi] with a 64-bit [int]: an optional sign, then one or more
    decimal digits, the value within [-2^63, 2^63 - 1]; [None] is Go's error. *)
Definition Atoi (s : string) : option Z :=
  let '(neg, body) := split_sign s in
  match body with
  | EmptyString => None
  | _ =>
      match digits_value 0 body with
      | None => None
      | Some n =>
          let z := if neg then (- Z.of_N n)%Z else Z.of_N n in
          if ((- 2 ^ 63 <=? z) && (z <=? 2 ^ 63 - 1))%Z then Some z else None
      end
  end.

Fixpoint span_digits (s : string) : string * string :=
  match s with
  | EmptyString => ("", "")
  | String c rest =>
      if isDigit c then let '(d, r) := span_digits rest in (String c d, r)
      else ("", s)
  end.

(** [strconv.ParseFloat(s, 64)] on decimal literals without exponent: an
    optional sign, digits with at most one point and at least one digit.  The
    error is a syntax error or a value that rounds beyond the largest float64,
    that is at least [2^1024 - 2^970] in magnitude.  (Go also accepts
    exponents, hexadecimal literals, underscores between digits, infinities
    and NaN, none of which is ever the text of a number token.) *)
Definition ParseFloat (s : string) : option float64 :=
  let '(neg, body) := split_sign s in
  let '(ip, r1) := span_digits body in
  let '(fp, r2) :=
    match r1 with
    | String c r => if Ascii.eqb c "." then span_digits r else ("", r1)
    | EmptyString => ("", r1)
    end in
  match r2, ip ++ fp with
  | EmptyString, String _ _ =>
      match digits_value 0 (ip ++ fp) with
      | Some mant =>
          if ((2 ^ 1024 - 2 ^ 970) * 10 ^ N.of_nat (String.length fp) <=? mant)%N
          then None
          else Some (mkFloat neg mant (String.length fp))
      | None => None
      end
  | _, _ => None
  end.

(** [fmt.Sprintf("%d", n)]. *)
Definition FormatInt (n : Z) : string := NilZero.string_of_int (Z.to_int n).

Fixpoint strip_trailing_zeros (s : string) : string :=
  match s with
  | EmptyString => EmptyString
  | String c rest =>
      match strip_trailing_zeros rest with
      | EmptyString => if Ascii.eqb c "0" then EmptyString else String c EmptyString
      | r => String c r
      end
  end.

Definition digit_at (digs : string) (j : Z) : ascii :=
  if (j <? 0)%Z then "0"%char
  else match String.get (Z.to_nat j) digs with
       | Some c => c
       | None => "0"%char
       end.

Fixpoint digits_from (digs : string) (j : Z) (count : nat) : string :=
  match count with
  | O => ""
  | S count' => String (digit_at digs j) (digits_from digs (j + 1) count')
  end.

(** [fmt.Sprintf("%v", f)] for a float64, that is strconv's shortest ['g']
    form: [%e] when the decimal exponent is below -4 or at least 6, else
    [%f].  The digits are those of the decimal held in [f]; they are the ones
    Go prints when the literal has at most 15 significant digits. *)
Definition FormatFloat (f : float64) : string :=
  let sign := if fl_neg f then "-" else "" in
  if (fl_mant f =? 0)%N then sign ++ "0"
  else
    let ds := NilZero.string_of_uint (N.to_uint (fl_mant f)) in
    let digs := strip_trailing_zeros ds in
    let nd := String.length digs in
    let dp := (Z.of_nat (String.length ds) - Z.of_nat (fl_scale f))%Z in
    let exp := (dp - 1)%Z in
    if ((exp <? -4) || (6 <=? exp))%Z then
      let e := Z.abs exp in
      sign ++ String (digit_at digs 0) ""
           ++ (if (1 <? nd)%nat then "." ++ substring 1 (nd - 1) digs else "")
           ++ "e" ++ (if (exp <? 0)%Z then "-" else "+")
           ++ (if (e <? 10)%Z then "0" else "") ++ FormatInt e
    else
      let prec := Z.to_nat (Z.of_nat nd - dp) in
      sign ++ (if (0 <? dp)%Z then digits_from digs 0 (Z.to_nat dp) else "0")
           ++ (if (0 <? prec)%nat then "." ++ digits_from digs dp prec else "").

(** ** The printer *)

(** [Value.String]. *)
Definition Value_String (v : Value) : string :=
  match vType v with
  | ValueString => "'" ++ vStr v ++ "'"
  | ValueNumber => FormatFloat (vNumber v)
  | ValueList => "(" ++ Join (vList v) ", " ++ ")"
  | ValueDateRange => DateRange_String (vDateRange v)
  | ValueNull => "NULL"
  end.

Definition Condition_String (c : Condition) : string :=
  cField c ++ " " ++ Operator_String (cOperator c) ++ " " ++ Value_String (cValue c).

Definition Ordering_String (o : Ordering) : string :=
  oField o ++ (match oDirection o with Desc => " DESC" | Asc => "" end).

(** [Query.String].  Go ranges over the [Parameters] map in an unspecified
    order; the model prints the entries in the order of the list. *)
Definition Query_String (q : Query) : string :=
  "SELECT " ++ Join (map fName (Select q)) ", "
  ++ " FROM " ++ From q
  ++ (match Where q with
      | [] => ""
      | _ => " WHERE " ++ Join (map Condition_String (Where q)) " AND "
      end)
  ++ (match OrderBy q with
      | [] => ""
      | _ => " ORDER BY " ++ Join (map Ordering_String (OrderBy q)) ", "
      end)
  ++ (if (0 <? Limit q)%Z then " LIMIT " ++ FormatInt (Limit q) else "")
  ++ (match Parameters q with
      | [] => ""
      | _ => " PARAMETERS "
             ++ Join (map (fun kv => fst kv ++ " = " ++ snd kv) (Parameters q)) ", "
      end).

(** ** The parser

    A [Parser] computation reads the tokens not yet consumed,
    [p.tokens[p.pos:]], and returns a value with the tokens left, or fails. *)

Definition Parser (A : Type) : Type := list Token -> result (A * list Token).

Definition ret {A : Type} (a : A) : Parser A := fun toks => Ok (a, toks).

Definition bind {A B : Type} (m : Parser A) (k : A -> Parser B) : Parser B :=
  fun toks =>
    match m toks with
    | Ok (a, rest) => k a rest
    | Err e => Err e
    | OutOfFuel => OutOfFuel
    end.

Definition out_of_fuel {A : Type} : Parser A := fun _ => OutOfFuel.

Notation "x <- m ;; k" := (bind m (fun x => k))
  (at level 61, m at next level, right associativity).
Notation "m ;;; k" := (bind m (fun _ => k))
  (at level 61, right associativity).

(** [Parser.current]: past the end it is [Token{Type: TokenEOF}]. *)
Definition current_token (toks : list Token) : Token :=
  match toks with
  | tok :: _ => tok
  | [] => mkToken TokenEOF "" 0 0
  end.

Definition p_current : Parser Token := fun toks => Ok (current_token toks, toks).

(** [Parser.advance]. *)
Definition p_advance : Parser unit := fun toks => Ok (tt, tl toks).

(** [Parser.check]. *)
Definition p_check (t : TokenType) : Parser bool :=
  tok <- p_current ;; ret (TokenType_eqb (tType tok) t).

(** [Parser.match]. *)
Definition p_match (t : TokenType) : Parser bool :=
  ok <- p_check t ;;
  if ok then p_advance ;;; ret true else ret false.

(** [return ..., p.error(msg)]. *)
Definition p_error {A : Type} (msg : string) : Parser A :=
  fun toks =>
    let tok := current_token toks in
    Err (mkParseError msg (tLine tok) (tColumn tok)).

(** The loop of [parseField] over the dotted parts. *)
Fixpoint parseField_loop (fuel : nat) (parts : list string) : Parser (list string) :=
  match fuel with
  | O => out_of_fuel
  | S fuel' =>
      dot <- p_match TokenDot ;;
      if dot then
        ok <- p_check TokenIdent ;;
        if negb ok then p_error "expected field name after '.'"
        else
          tok <- p_current ;;
          p_advance ;;;
          parseField_loop fuel' (parts ++ [tValue tok])%list
      else ret parts
  end.

(** [Parser.parseField]. *)
Definition parseField (n : nat) : Parser Field :=
  ok <- p_check TokenIdent ;;
  if negb ok then p_error "expected field name"
  else
    tok <- p_current ;;
    p_advance ;;;
    parts <- parseField_loop n [tValue tok] ;;
    ret (mkField (Join parts ".")).

Fixpoint parseFieldList_loop (n fuel : nat) (fields : list Field) : Parser (list Field) :=
  match fuel with
  | O => out_of_fuel
  | S fuel' =>
      field <- parseField n ;;
      let fields := (fields ++ [field])%list in
      comma <- p_match TokenComma ;;
      if comma then parseFieldList_loop n fuel' fields else ret fields
  end.

(** [Parser.parseFieldList]. *)
Definition parseFieldList (n : nat) : Parser (list Field) :=
  fields <- parseFieldList_loop n n [] ;;
  match fields with
  | [] => p_error "SELECT must contain at least one field"
  | _ => ret fields
  end.

(** [Parser.parseOperator]. *)
Definition parseOperator : Parser Operator :=
  tok <- p_current ;;
  match tType tok with
  | TokenEq => p_advance ;;; ret OpEq
  | TokenNeq => p_advance ;;; ret OpNeq
  | TokenGt => p_advance ;;; ret OpGt
  | TokenGte => p_advance ;;; ret OpGte
  | TokenLt => p_advance ;;; ret OpLt
  | TokenLte => p_advance ;;; ret OpLte
  | TokenIn => p_advance ;;; ret OpIn
  | TokenNot =>
      p_advance ;;;
      isIn <- p_match TokenIn ;;
      if isIn then ret OpNotIn else
      isLike <- p_match TokenLike ;;
      if isLike then ret OpNotLike else
      isRe <- p_match TokenRegexpMatch ;;
      if isRe then ret OpNotRegexpMatch else
      p_error "expected IN, LIKE, or REGEXP_MATCH after NOT"
  | TokenLike => p_advance ;;; ret OpLike
  | TokenContains =>
      p_advance ;;;
      isAny <- p_match TokenAny ;;
      if isAny then ret OpContainsAny else
      isAll <- p_match TokenAll ;;
      if isAll then ret OpContainsAll else
      isNone <- p_match TokenNone ;;
      if isNone then ret OpContainsNone else
      p_error "expected ANY, ALL, or NONE after CONTAINS"
  | TokenIs =>
      p_advance ;;;
      isNot <- p_match TokenNot ;;
      if isNot then
        isNull <- p_match TokenNull ;;
        if negb isNull then p_error "expected NULL after IS NOT" else ret OpIsNotNull
      else
        isNull <- p_match TokenNull ;;
        if negb isNull then p_error "expected NULL or NOT NULL after IS" else ret OpIsNull
  | TokenDuring => p_advance ;;; ret OpDuring
  | TokenBetween => p_advance ;;; ret OpBetween
  | TokenRegexpMatch => p_advance ;;; ret OpRegexpMatch
  | _ => p_error ("expected operator, got " ++ TokenType_String (tType tok))
  end.

(** [Parser.parseSimpleValue]. *)
Definition parseSimpleValue : Parser string :=
  tok <- p_current ;;
  match tType tok with
  | TokenString => p_advance ;;; ret (tValue tok)
  | TokenNumber => p_advance ;;; ret (tValue tok)
  | TokenIdent => p_advance ;;; ret (tValue tok)
  | _ => p_error ("expected value, got " ++ TokenType_String (tType tok))
  end.

Fixpoint parseList_loop (fuel : nat) (items : list string) : Parser (list string) :=
  match fuel with
  | O => out_of_fuel
  | S fuel' =>
      val <- parseSimpleValue ;;
      let items := (items ++ [val])%list in
      comma <- p_match TokenComma ;;
      if comma then parseList_loop fuel' items else ret items
  end.

(** [Parser.parseList]. *)
Definition parseList (n : nat) : Parser Value :=
  lp <- p_match TokenLParen ;;
  if negb lp then p_error "expected '(' before list" else
  items <- parseList_loop n [] ;;
  rp <- p_match TokenRParen ;;
  if negb rp then p_error "expected ')' after list" else
  ret (Value_list items).

Definition is_list_operator (op : Operator) : bool :=
  match op with
  | OpIn | OpNotIn | OpContainsAny | OpContainsAll | OpContainsNone => true
  | _ => false
  end.

(** [Parser.parseValue]. *)
Definition parseValue (n : nat) (op : Operator) : Parser Value :=
  tok <- p_current ;;
  if Operator_eqb op OpDuring then
    ok <- p_check TokenDateRange ;;
    if negb ok then p_error "expected date range keyword after DURING" else
    match lookup DateRangeKeywords (tValue tok) with
    | None => p_error ("unknown date range: " ++ tValue tok)
    | Some dr => p_advance ;;; ret (Value_dr dr)
    end
  else if Operator_eqb op OpBetween then
    start <- parseSimpleValue ;;
    isAnd <- p_match TokenAnd ;;
    if negb isAnd then p_error "expected AND in BETWEEN clause" else
    end_ <- parseSimpleValue ;;
    ret (Value_list [start; end_])
  else if is_list_operator op then parseList n
  else
    match tType tok with
    | TokenString => p_advance ;;; ret (Value_str (tValue tok))
    | TokenNumber =>
        match ParseFloat (tValue tok) with
        | None => p_error ("invalid number: " ++ tValue tok)
        | Some num => p_advance ;;; ret (Value_num num)
        end
    | TokenIdent => p_advance ;;; ret (Value_str (tValue tok))
    | _ => p_error ("expected value, got " ++ TokenType_String (tType tok))
    end.

(** [Parser.parseCondition]. *)
Definition parseCondition (n : nat) : Parser Condition :=
  field <- parseField n ;;
  op <- parseOperator ;;
  if Operator_eqb op OpIsNull || Operator_eqb op OpIsNotNull
  then ret (mkCondition (fName field) op Value_null)
  else
    value <- parseValue n op ;;
    ret (mkCondition (fName field) op value).

Fixpoint parseConditions_loop (n fuel : nat) (conditions : list Condition)
    : Parser (list Condition) :=
  match fuel with
  | O => out_of_fuel
  | S fuel' =>
      cond <- parseCondition n ;;
      let conditions := (conditions ++ [cond])%list in
      isAnd <- p_match TokenAnd ;;
      if isAnd then parseConditions_loop n fuel' conditions else ret conditions
  end.

(** [Parser.parseConditions]. *)
Definition parseConditions (n : nat) : Parser (list Condition) :=
  parseConditions_loop n n [].

Fixpoint parseOrderings_loop (n fuel : nat) (orderings : list Ordering)
    : Parser (list Ordering) :=
  match fuel with
  | O => out_of_fuel
  | S fuel' =>
      field <- parseField n ;;
      isDesc <- p_match TokenDesc ;;
      dir <- (if isDesc then ret Desc else p_match TokenAsc ;;; ret Asc) ;;
      let orderings := (orderings ++ [mkOrdering (fName field) dir])%list in
      comma <- p_match TokenComma ;;
      if comma then parseOrderings_loop n fuel' orderings else ret orderings
  end.

(** [Parser.parseOrderings]. *)
Definition parseOrderings (n : nat) : Parser (list Ordering) :=
  parseOrderings_loop n n [].

Fixpoint parseParameters_loop (fuel : nat) (params : list (string * string))
    : Parser (list (string * string)) :=
  match fuel with
  | O => out_of_fuel
  | S fuel' =>
      ok <- p_check TokenIdent ;;
      if negb ok then p_error "expected parameter name" else
      name <- p_current ;;
      p_advance ;;;
      isEq <- p_match TokenEq ;;
      if negb isEq then p_error "expected '=' after parameter name" else
      val <- parseSimpleValue ;;
      let params := map_set params (tValue name) val in
      comma <- p_match TokenComma ;;
      if comma then parseParameters_loop fuel' params else ret params
  end.

(** [Parser.parseParameters]. *)
Definition parseParameters (n : nat) : Parser (list (string * string)) :=
  parseParameters_loop n [].

(** The clauses of [Parser.parseQuery], in the order of the function body. *)

Definition parseSelectFrom (n : nat) : Parser (list Field * string) :=
  isSelect <- p_match TokenSelect ;;
  if negb isSelect then p_error "expected SELECT clause" else
  fields <- parseFieldList n ;;
  isFrom <- p_match TokenFrom ;;
  if negb isFrom then p_error "expected FROM clause" else
  ok <- p_check TokenIdent ;;
  if negb ok then p_error "expected resource name after FROM" else
  tok <- p_current ;;
  p_advance ;;;
  ret (fields, tValue tok).

Definition parseWhereClause (n : nat) : Parser (list Condition) :=
  isWhere <- p_match TokenWhere ;;
  if isWhere then parseConditions n else ret [].

Definition parseOrderByClause (n : nat) : Parser (list Ordering) :=
  isOrderBy <- p_match TokenOrderBy ;;
  if isOrderBy then parseOrderings n else ret [].

Definition parseLimitClause : Parser Z :=
  isLimit <- p_match TokenLimit ;;
  if isLimit then
    ok <- p_check TokenNumber ;;
    if negb ok then p_error "expected number after LIMIT" else
    tok <- p_current ;;
    match Atoi (tValue tok) with
    | None => p_error ("invalid LIMIT value: " ++ tValue tok)
    | Some limit =>
        if (limit <=? 0)%Z then p_error "LIMIT must be a positive integer"
        else p_advance ;;; ret limit
    end
  else ret 0%Z.

Definition parseParametersClause (n : nat) : Parser (list (string * string)) :=
  isParameters <- p_match TokenParameters ;;
  if isParameters then parseParameters n else ret [].

(** [Parser.parseQuery]. *)
Definition parseQuery (n : nat) : Parser Query :=
  sf <- parseSelectFrom n ;;
  conditions <- parseWhereClause n ;;
  orderings <- parseOrderByClause n ;;
  limit <- parseLimitClause ;;
  params <- parseParametersClause n ;;
  atEOF <- p_check TokenEOF ;;
  if negb atEOF then
    tok <- p_current ;;
    p_error ("unexpected token: " ++ tValue tok)
  else ret (mkQuery (fst sf) (snd sf) conditions orderings limit params).

(** [Parse].  Every round of a parser loop consumes a token, so the number of
    tokens bounds the rounds of each loop. *)
Definition Parse (s : string) : result Query :=
  match Tokenize s with
  | Ok tokens =>
      match parseQuery (S (List.length tokens)) tokens with
      | Ok (q, _) => Ok q
      | Err e => Err e
      | OutOfFuel => OutOfFuel
      end
  | Err e => Err e
  | OutOfFuel => OutOfFuel
  end.

(** ** The validator *)

Definition KnownResources : list (string * bool) :=
  [ ("campaign", true); ("ad_group", true); ("ad_group_ad", true);
    ("ad_group_criterion", true); ("asset", true); ("campaign_asset", true);
    ("campaign_budget", true); ("campaign_criterion", true); ("customer", true);
    ("customer_client", true); ("change_event", true); ("change_status", true);
    ("click_view", true); ("conversion_action", true);
    ("geo_target_constant", true); ("keyword_view", true); ("label", true);
    ("location_view", true); ("media_file", true);
    ("mobile_app_category_constant", true); ("mobile_device_constant", true);
    ("performance_max_placement_view", true);
    ("product_bidding_category_constant", true); ("search_term_view", true);
    ("shopping_performance_view", true); ("topic_constant", true);
    ("user_list", true) ].

Definition SingleDayResources : list (string * bool) :=
  [ ("click_view", true) ].

(** [m[k]] on a [map[string]bool]: the value, or [false] for an absent key. *)
Definition index_bool (m : list (string * bool)) (k : string) : bool :=
  match lookup m k with
  | Some b => b
  | None => false
  end.

(** [datePattern.MatchString] for the pattern [^\d{4}-\d{2}-\d{2}$]. *)
Definition datePattern_MatchString (s : string) : bool :=
  match list_ascii_of_string s with
  | [y1; y2; y3; y4; h1; m1; m2; h2; d1; d2] =>
      isDigit y1 && isDigit y2 && isDigit y3 && isDigit y4 && Ascii.eqb h1 "-"
      && isDigit m1 && isDigit m2 && Ascii.eqb h2 "-" && isDigit d1 && isDigit d2
  | _ => false
  end.

Record Validator : Type := mkValidator {
  AllowUnknownResources : bool;
  RequireMetricDateContext : bool
}.

Definition NewValidator : Validator := mkValidator true true.

(** A Go [error] that is a [*ValidationError] or nil. *)
Definition verror : Type := option ValidationError.

Definition validateFieldName (name : string) : verror :=
  if String.eqb name "" then Some (mkValidationError "field name cannot be empty" "")
  else None.

(** [for _, x := range xs { if err := check(x); err != nil { return err } }]. *)
Fixpoint first_error {A : Type} (check : A -> verror) (xs : list A) : verror :=
  match xs with
  | [] => None
  | x :: rest =>
      match check x with
      | Some e => Some e
      | None => first_error check rest
      end
  end.

Definition validateSelect (q : Query) : verror :=
  match Select q with
  | [] => Some (mkValidationError "SELECT must contain at least one field" "")
  | _ => first_error (fun f => validateFieldName (fName f)) (Select q)
  end.

Definition validateFrom (v : Validator) (q : Query) : verror :=
  if String.eqb (From q) "" then Some (mkValidationError "FROM clause is required" "")
  else if negb (AllowUnknownResources v) then
    match lookup KnownResources (From q) with
    | None => Some (mkValidationError ("unknown resource: " ++ From q) "FROM")
    | Some _ => None
    end
  else None.

Definition isDateRangeKeyword (s : string) : bool :=
  match lookup DateRangeKeywords (ToUpper s) with
  | Some _ => true
  | None => false
  end.

Definition or_else (e : verror) (next : verror) : verror :=
  match e with
  | Some err => Some err
  | None => next
  end.

(** The body of the loop of [validateWhere]. *)
Definition validateCondition (cond : Condition) : verror :=
  or_else (validateFieldName (cField cond))
  (or_else
     (if Operator_eqb (cOperator cond) OpDuring then
        if negb (ValueType_eqb (vType (cValue cond)) ValueDateRange)
        then Some (mkValidationError "DURING requires a date range keyword" (cField cond))
        else None
      else None)
     (if Operator_eqb (cOperator cond) OpBetween then
        if negb (ValueType_eqb (vType (cValue cond)) ValueList)
           || negb (List.length (vList (cValue cond)) =? 2)%nat
        then Some (mkValidationError "BETWEEN requires two values" (cField cond))
        else
          first_error
            (fun d =>
               if negb (datePattern_MatchString d) && negb (isDateRangeKeyword d)
               then Some (mkValidationError
                            ("invalid date format (expected YYYY-MM-DD): " ++ d)
                            (cField cond))
               else None)
            (vList (cValue cond))
      else None)).

Definition validateWhere (q : Query) : verror :=
  first_error validateCondition (Where q).

Definition validateLimit (q : Query) : verror :=
  if (Limit q <? 0)%Z then Some (mkValidationError "LIMIT must be non-negative" "")
  else None.

Definition list_is_same_pair (l : list string) : bool :=
  match l with
  | [x; y] => String.eqb x y
  | _ => false
  end.

(** The loop of [validateSingleDayResource]: [Some r] when an iteration
    returns [r], [None] when the loop runs to its end. *)
Fixpoint singleDay_loop (conds : list Condition) : option verror :=
  match conds with
  | [] => None
  | cond :: rest =>
      if String.eqb (cField cond) "segments.date" then
        if Operator_eqb (cOperator cond) OpDuring then
          let dr := vDateRange (cValue cond) in
          if DateRange_eqb dr DateRangeToday || DateRange_eqb dr DateRangeYesterday
          then Some None
          else Some (Some (mkValidationError
                 "click_view requires single-day date range (TODAY or YESTERDAY)"
                 "segments.date"))
        else if Operator_eqb (cOperator cond) OpEq then Some None
        else if Operator_eqb (cOperator cond) OpBetween then
          if list_is_same_pair (vList (cValue cond)) then Some None
          else Some (Some (mkValidationError
                 "click_view requires single-day date range" "segments.date"))
        else singleDay_loop rest
      else singleDay_loop rest
  end.

Definition validateSingleDayResource (q : Query) : verror :=
  if negb (index_bool SingleDayResources (From q)) then None
  else
    match singleDay_loop (Where q) with
    | Some r => r
    | None =>
        Some (mkValidationError
                "click_view requires segments.date in WHERE clause with single-day range"
                "FROM")
    end.

Definition validateMetricDateContext (v : Validator) (q : Query) : verror :=
  if negb (RequireMetricDateContext v) then None
  else
    let hasMetrics := existsb (fun f => HasPrefix (fName f) "metrics.") (Select q) in
    if negb hasMetrics then None
    else
      let hasDateContext :=
        existsb (fun f => String.eqb (fName f) "segments.date") (Select q) in
      let hasDateContext :=
        if negb hasDateContext
        then existsb (fun cond => String.eqb (cField cond) "segments.date") (Where q)
        else hasDateContext in
      if negb hasDateContext
      then Some (mkValidationError
                   "metrics require date context (segments.date in SELECT or WHERE)" "")
      else None.

(** [Validator.Validate]. *)
Definition Validate (v : Validator) (q : Query) : verror :=
  or_else (validateSelect q)
  (or_else (validateFrom v q)
  (or_else (validateWhere q)
  (or_else (validateLimit q)
  (or_else (validateSingleDayResource q)
           (validateMetricDateContext v q))))).

(** The error of [ValidateQuery] is a [*ParseError] or a [*ValidationError]. *)
Inductive gaql_error : Type :=
| EParse (e : ParseError)
| EValidation (e : ValidationError).

(** [ValidateQuery]. *)
Definition ValidateQuery (s : string) : outcome gaql_error Query :=
  match Parse s with
  | Ok q =>
      match Validate NewValidator q with
      | Some e => Err (EValidation e)
      | None => Ok q
      end
  | Err e => Err (EParse e)
  | OutOfFuel => OutOfFuel
  end.


(** ** Statement-side definitions *)

(** The shape of a numeric literal: an optional minus, one or more digits,
    then optionally a point followed by one or more digits. *)
Definition number_shape (s : string) : bool :=
  let body :=
    match s with
    | String c rest => if Ascii.eqb c "-" then rest else s
    | EmptyString => s
    end in
  let '(ip, r1) := span_digits body in
  negb (String.eqb ip "")
  && match r1 with
     | EmptyString => true
     | String c r =>
         Ascii.eqb c "."
         && (let '(fp, r2) := span_digits r in
             negb (String.eqb fp "") && String.eqb r2 "")
     end.



(** A condition that settles the single-day rule: it is on segments.date and
    its operator is DURING, = or BETWEEN. *)
Definition decisive (c : Condition) : bool :=
  String.eqb (cField c) "segments.date"
  && (Operator_eqb (cOperator c) OpDuring || Operator_eqb (cOperator c) OpEq
      || Operator_eqb (cOperator c) OpBetween).

(** A condition on segments.date that bounds the query to one day: DURING
    TODAY, DURING YESTERDAY, an equality, or BETWEEN x AND x. *)
Definition single_day (c : Condition) : Prop :=
  cField c = "segments.date"
  /\ ((cOperator c = OpDuring
       /\ (vDateRange (cValue c) = DateRangeToday
           \/ vDateRange (cValue c) = DateRangeYesterday))
      \/ cOperator c = OpEq
      \/ (cOperator c = OpBetween /\ exists x, vList (cValue c) = [x; x])).

Definition single_day_error (c : Condition) : ValidationError :=
  mkValidationError
    (if Operator_eqb (cOperator c) OpDuring
     then "click_view requires single-day date range (TODAY or YESTERDAY)"
     else "click_view requires single-day date range")
    "segments.date".

Definition missing_date_error : ValidationError :=
  mkValidationError
    "click_view requires segments.date in WHERE clause with single-day range" "FROM".

Definition metric_error : ValidationError :=
  mkValidationError "metrics require date context (segments.date in SELECT or WHERE)" "".

(** What the parser relies on in a token of the lexer: an identifier has a
    non-empty text, and the text of a date-range token is a key of
    [DateRangeKeywords]. *)
Definition tok_inv (t : Token) : Prop :=
  (tType t = TokenIdent -> tValue t <> "")
  /\ (tType t = TokenDateRange -> lookup DateRangeKeywords (tValue t) <> None).

(** The messages that are not the one of the dead branch of [parseValue]. *)
Definition err_ok (e : ParseError) : Prop :=
  HasPrefix (peMessage e) "unknown date range" = false.

Definition has_type (ty : TokenType) (t : Token) : bool :=
  TokenType_eqb (tType t) ty.

(** Token types that the parser consumes outside the LIMIT clause and the
    DURING operator. *)
Definition plain_type (ty : TokenType) : bool :=
  match ty with
  | TokenEOF | TokenLimit | TokenDuring => false
  | _ => true
  end.

Definition plain (seg : list Token) : Prop :=
  Forall (fun t => plain_type (tType t) = true) seg.

(** In [seg] every DURING token is followed by a date-range token. *)
Fixpoint during_ok (seg : list Token) : Prop :=
  match seg with
  | [] => True
  | t :: rest =>
      (tType t = TokenDuring ->
       exists d rest', rest = d :: rest' /\ tType d = TokenDateRange)
      /\ during_ok rest
  end.

(** A run of tokens with no end-of-input and no LIMIT token, in which every
    DURING is followed by a date range. *)
Definition seg_ok (seg : list Token) : Prop :=
  Forall (fun t => tType t <> TokenEOF /\ tType t <> TokenLimit) seg
  /\ during_ok seg.

(** The tokens of a LIMIT clause that sets [limit]: none and [limit = 0], or
    LIMIT and a number token that [Atoi] converts to [limit > 0]. *)
Definition limit_seg (limit : Z) (seg : list Token) : Prop :=
  (seg = [] /\ limit = 0%Z)
  \/ (exists lim num,
        seg = [lim; num] /\ tType lim = TokenLimit /\ tType num = TokenNumber
        /\ Atoi (tValue num) = Some limit /\ (0 < limit)%Z).

(** The value kinds an operator admits. *)
Definition value_permitted (op : Operator) (v : Value) : Prop :=
  match op with
  | OpIsNull | OpIsNotNull => vType v = ValueNull
  | OpDuring => vType v = ValueDateRange
  | OpBetween => vType v = ValueList /\ List.length (vList v) = 2
  | OpIn | OpNotIn | OpContainsAny | OpContainsAll | OpContainsNone =>
      vType v = ValueList /\ vList v <> []
  | _ => vType v = ValueString \/ vType v = ValueNumber
  end.

Definition cond_ok (c : Condition) : Prop :=
  cField c <> "" /\ value_permitted (cOperator c) (cValue c).

(** [run_ok n m toks P]: on tokens of the lexer, fewer than the loop bound
    [n], the parser [m] does not run out of fuel; when it succeeds it has
    consumed a prefix [seg] of [toks] and [P] holds of its value, of [seg] and
    of the tokens left; when it fails the message is not the one of the dead
    branch. *)
Definition run_ok {A : Type} (n : nat) (m : Parser A) (toks : list Token)
    (P : A -> list Token -> list Token -> Prop) : Prop :=
  List.length toks < n -> Forall tok_inv toks ->
  match m toks with
  | Ok (a, rest) => exists seg, toks = (seg ++ rest)%list /\ P a seg rest
  | Err e => err_ok e
  | OutOfFuel => False
  end.

(** The clauses that [parseQuery] reads before it looks for LIMIT. *)
Definition clausesBeforeLimit (n : nat)
    : Parser (list Field * string * list Condition * list Ordering) :=
  sf <- parseSelectFrom n ;;
  conditions <- parseWhereClause n ;;
  orderings <- parseOrderByClause n ;;
  ret (sf, conditions, orderings).

(** The rest of [parseQuery], from the LIMIT clause on. *)
Definition clausesFromLimit (n : nat)
    (x : list Field * string * list Condition * list Ordering) : Parser Query :=
  let '(sf, conditions, orderings) := x in
  limit <- parseLimitClause ;;
  params <- parseParametersClause n ;;
  atEOF <- p_check TokenEOF ;;
  if negb atEOF then
    tok <- p_current ;;
    p_error ("unexpected token: " ++ tValue tok)
  else ret (mkQuery (fst sf) (snd sf) conditions orderings limit params).

(** The text of an identifier token: a letter or underscore, then letters,
    digits and underscores. *)
Definition ident_text (s : string) : bool :=
  match s with
  | EmptyString => false
  | String c rest =>
      (isLetter c || Ascii.eqb c "_") && forallb isIdentByte (list_ascii_of_string rest)
  end.

(** The text [readNumber] can produce: an optional minus, digits, then
    optionally a point and digits; not empty, but possibly without a digit. *)
Definition number_text (s : string) : bool :=
  let body :=
    match s with
    | String c rest => if Ascii.eqb c "-" then rest else s
    | EmptyString => s
    end in
  let '(ip, r1) := span_digits body in
  negb (String.eqb s "")
  && match r1 with
     | EmptyString => true
     | String c r => Ascii.eqb c "." && String.eqb (snd (span_digits r)) ""
     end.

(** What every token of the lexer looks like, by kind. *)
Definition token_wf (t : Token) : Prop :=
  match tType t with
  | TokenIdent => ident_text (tValue t) = true
  | TokenNumber => number_text (tValue t) = true
  | TokenDateRange => lookup DateRangeKeywords (tValue t) <> None
  | TokenString => True
  | TokenError => True
  | TokenEOF => tValue t = ""
  | ty => tValue t = TokenType_String ty
  end.

(** Source positions in reading order. *)
Definition pos_lt (a b : nat * nat) : Prop :=
  fst a < fst b \/ (fst a = fst b /\ snd a < snd b).

Definition pos_le (a b : nat * nat) : Prop :=
  fst a < fst b \/ (fst a = fst b /\ snd a <= snd b).

Definition lexer_pos (l : Lexer) : nat * nat := (line l, column l).
Definition token_pos (t : Token) : nat * nat := (tLine t, tColumn t).

Definition isSpace (c : ascii) : bool :=
  Ascii.eqb c " " || Ascii.eqb c tab || Ascii.eqb c carriage_return
  || Ascii.eqb c newline.

(** The messages of the lexer. *)
Definition lexer_message (msg : string) : Prop :=
  msg = "unterminated string"
  \/ exists ch, msg = "unexpected character '" ++ string_of_rune ch ++ "'"
                /\ isLetter ch = false /\ isDigit ch = false /\ isSpace ch = false.

(** Position [b] is at or after [a], and has a column of at least 1 if [a]
    has; [moves_past] is the strict version. *)
Definition moves_to (a b : nat * nat) : Prop :=
  pos_le a b /\ (1 <= snd a -> 1 <= snd b).

Definition moves_past (a b : nat * nat) : Prop :=
  pos_lt a b /\ (1 <= snd a -> 1 <= snd b).

Definition token_before (a b : Token) : Prop :=
  pos_lt (token_pos a) (token_pos b).

(** Tokens the parser can consume: all but the end-of-input token, the error
    token and the reserved OR. *)
Definition consumable (t : Token) : Prop :=
  tType t <> TokenEOF /\ tType t <> TokenError /\ tType t <> TokenOr.

(** The messages of the parser. *)
Definition parser_message (msg : string) : Prop :=
  In msg
    [ "expected SELECT clause"; "expected FROM clause";
      "expected resource name after FROM"; "expected field name";
      "expected field name after '.'";
      "expected IN, LIKE, or REGEXP_MATCH after NOT";
      "expected ANY, ALL, or NONE after CONTAINS"; "expected NULL after IS NOT";
      "expected NULL or NOT NULL after IS";
      "expected date range keyword after DURING";
      "expected AND in BETWEEN clause"; "expected '(' before list";
      "expected ')' after list"; "expected parameter name";
      "expected '=' after parameter name"; "expected number after LIMIT";
      "LIMIT must be a positive integer" ]
  \/ (exists ty, msg = "expected operator, got " ++ TokenType_String ty)
  \/ (exists ty, msg = "expected value, got " ++ TokenType_String ty)
  \/ (exists v, msg = "invalid number: " ++ v)
  \/ (exists v, msg = "invalid LIMIT value: " ++ v)
  \/ (exists v, msg = "unexpected token: " ++ v).

(** A parser error raised after the consumable tokens [seg], at the token
    that follows them.  The message of the DURING branch that the lexer makes
    unreachable is allowed here and excluded at the level of [Parse]. *)
Definition err_at (toks : list Token) (e : ParseError) : Prop :=
  exists seg r,
    toks = (seg ++ r)%list /\ Forall consumable seg
    /\ peLine e = tLine (current_token r) /\ peColumn e = tColumn (current_token r)
    /\ (parser_message (peMessage e)
        \/ exists v, peMessage e = "unknown date range: " ++ v).

(** [sound_at m toks]: on [toks], whatever they are, the parser [m] consumes
    only consumable tokens and fails only with [err_at]. *)
Definition sound_at {A : Type} (m : Parser A) (toks : list Token) : Prop :=
  match m toks with
  | Ok (a, rest) => exists seg, toks = (seg ++ rest)%list /\ Forall consumable seg
  | Err e => err_at toks e
  | OutOfFuel => True
  end.

(** The messages [ValidateQuery] can report from the validator. *)
Definition validation_message (msg : string) : Prop :=
  (exists d, msg = "invalid date format (expected YYYY-MM-DD): " ++ d
             /\ datePattern_MatchString d = false /\ isDateRangeKeyword d = false)
  \/ In msg
       [ "click_view requires single-day date range (TODAY or YESTERDAY)";
         "click_view requires single-day date range";
         "click_view requires segments.date in WHERE clause with single-day range";
         "metrics require date context (segments.date in SELECT or WHERE)" ].

(** Validator [v'] is at least as permissive as [v]. *)
Definition relaxes (v v' : Validator) : Prop :=
  (AllowUnknownResources v = true -> AllowUnknownResources v' = true)
  /\ (RequireMetricDateContext v' = true -> RequireMetricDateContext v = true).

(** ** Printing and reading back

    The queries whose printed form is read back as the same query, and the
    tokens of that printed form. *)

(** What a word (a run of identifier bytes) is lexed as when it is not ORDER. *)
Definition word_token (w : string) : TokenType * string :=
  match lookup DateRangeKeywords (ToUpper w) with
  | Some _ => (TokenDateRange, ToUpper w)
  | None =>
      match lookup Keywords (ToUpper w) with
      | Some ty => (ty, ToUpper w)
      | None => (TokenIdent, w)
      end
  end.

(** Words that the lexer reads as an identifier with their own text: not
    ORDER, no date range and no keyword in any letter case (BY is read as the
    identifier BY, so only its upper-case spelling is kept). *)
Definition plain_ident (w : string) : bool :=
  ident_text w && negb (String.eqb (ToUpper w) "ORDER")
  && TokenType_eqb (fst (word_token w)) TokenIdent
  && String.eqb (snd (word_token w)) w.

(** The first byte of [rest], if any, ends a word. *)
Definition delim (rest : string) : bool :=
  match rest with
  | EmptyString => true
  | String c _ => negb (isIdentByte c)
  end.

(** [lex1 s ty v s']: wherever the lexer stands, on the unread input [s] its
    next token has type [ty] and text [v] and leaves [s'] unread. *)
Definition lex1 (s : string) (ty : TokenType) (v : string) (s' : string) : Prop :=
  forall ln col, exists tl tc ln' col',
    nextToken (mkLexer s ln col) = (mkToken ty v tl tc, mkLexer s' ln' col').

(** [lexn s tvs s']: reading the tokens [tvs] (types and texts), none of them
    an end-of-input or error token, takes the lexer from [s] to [s']. *)
Inductive lexn : string -> list (TokenType * string) -> string -> Prop :=
| lexn_nil (s : string) : lexn s [] s
| lexn_cons (s s1 s2 : string) (ty : TokenType) (v : string)
    (tvs : list (TokenType * string)) :
    lex1 s ty v s1 -> ty <> TokenEOF -> ty <> TokenError ->
    lexn s1 tvs s2 -> lexn s ((ty, v) :: tvs) s2.

(** Token [t] has the type and the text of [x], wherever it stands. *)
Definition tv (t : Token) (x : TokenType * string) : Prop :=
  tType t = fst x /\ tValue t = snd x.

(** Texts without single quote and backslash. *)
Definition plain_text (v : string) : bool :=
  forallb (fun c => negb (Ascii.eqb c single_quote) && negb (Ascii.eqb c backslash))
    (list_ascii_of_string v).

(** The tokens that spell an operator. *)
Definition op_tvs (op : Operator) : list (TokenType * string) :=
  match op with
  | OpEq => [(TokenEq, "=")] | OpNeq => [(TokenNeq, "!=")]
  | OpGt => [(TokenGt, ">")] | OpGte => [(TokenGte, ">=")]
  | OpLt => [(TokenLt, "<")] | OpLte => [(TokenLte, "<=")]
  | OpIn => [(TokenIn, "IN")] | OpNotIn => [(TokenNot, "NOT"); (TokenIn, "IN")]
  | OpLike => [(TokenLike, "LIKE")]
  | OpNotLike => [(TokenNot, "NOT"); (TokenLike, "LIKE")]
  | OpContainsAny => [(TokenContains, "CONTAINS"); (TokenAny, "ANY")]
  | OpContainsAll => [(TokenContains, "CONTAINS"); (TokenAll, "ALL")]
  | OpContainsNone => [(TokenContains, "CONTAINS"); (TokenNone, "NONE")]
  | OpIsNull => [(TokenIs, "IS"); (TokenNull, "NULL")]
  | OpIsNotNull => [(TokenIs, "IS"); (TokenNot, "NOT"); (TokenNull, "NULL")]
  | OpDuring => [(TokenDuring, "DURING")]
  | OpBetween => [(TokenBetween, "BETWEEN")]
  | OpRegexpMatch => [(TokenRegexpMatch, "REGEXP_MATCH")]
  | OpNotRegexpMatch => [(TokenNot, "NOT"); (TokenRegexpMatch, "REGEXP_MATCH")]
  end.

(** The first byte of [rest], if any, ends a run of digits and is no point. *)
Definition number_end (rest : string) : bool :=
  match rest with
  | EmptyString => true
  | String c _ => negb (isDigit c) && negb (Ascii.eqb c ".")
  end.

(** The parts of a dotted name, cut at every point; [Join] with a point puts
    them together again. *)
Fixpoint split_dots (s : string) : list string :=
  match s with
  | EmptyString => [""]
  | String c rest =>
      if Ascii.eqb c "." then "" :: split_dots rest
      else
        match split_dots rest with
        | p :: ps => String c p :: ps
        | [] => [String c ""]
        end
  end.

(** Dotted names made of plain identifiers. *)
Definition plain_name (name : string) : bool := forallb plain_ident (split_dots name).

(** The operators that take one string or number. *)
Definition simple_operator (op : Operator) : bool :=
  match op with
  | OpEq | OpNeq | OpGt | OpGte | OpLt | OpLte | OpLike | OpNotLike
  | OpRegexpMatch | OpNotRegexpMatch => true
  | _ => false
  end.

(** Conditions that are printed the way they are read: a comparison with a
    string that holds no single quote and no backslash, DURING with one of
    the twelve date ranges, or a list operator with a list of plain
    identifiers. *)
Definition printable_condition (c : Condition) : Prop :=
  plain_name (cField c) = true
  /\ ((simple_operator (cOperator c) = true
       /\ cValue c = Value_str (vStr (cValue c))
       /\ plain_text (vStr (cValue c)) = true)
      \/ (cOperator c = OpDuring
          /\ cValue c = Value_dr (vDateRange (cValue c))
          /\ vDateRange (cValue c) <> DateRangeCustom)
      \/ (is_list_operator (cOperator c) = true
          /\ cValue c = Value_list (vList (cValue c))
          /\ vList (cValue c) <> []
          /\ forallb plain_ident (vList (cValue c)) = true)).

(** Parameters whose name and value are plain identifiers. *)
Definition plain_parameter (kv : string * string) : Prop :=
  plain_ident (fst kv) = true /\ plain_ident (snd kv) = true.

(** The clauses up to LIMIT are printed the way they are read: names are
    dotted plain identifiers, the resource is a plain identifier, and the
    limit is zero (unset) or a positive 64-bit integer. *)
Definition printable_clauses (q : Query) : Prop :=
  Select q <> []
  /\ Forall (fun f => plain_name (fName f) = true) (Select q)
  /\ plain_ident (From q) = true
  /\ Forall printable_condition (Where q)
  /\ Forall (fun o => plain_name (oField o) = true) (OrderBy q)
  /\ (0 <= Limit q < 2 ^ 63)%Z.

(** Queries that are printed the way they are read.  [Parameters] holds one
    entry per key, as a Go map does. *)
Definition printable (q : Query) : Prop :=
  printable_clauses q
  /\ NoDup (map fst (Parameters q))
  /\ Forall plain_parameter (Parameters q).

(** [query.Parameters = params]. *)
Definition with_parameters (q : Query) (params : list (string * string)) : Query :=
  mkQuery (Select q) (From q) (Where q) (OrderBy q) (Limit q) params.

(** The map after [params[k] = v] for every [(k, v)] of [kvs], in order. *)
Definition set_all (kvs : list (string * string)) : list (string * string) :=
  fold_left (fun m kv => map_set m (fst kv) (snd kv)) kvs [].

(** The tokens (types and texts) of the printed form. *)
Definition join_tvs (sep : TokenType * string)
    (items : list (list (TokenType * string))) : list (TokenType * string) :=
  match items with
  | [] => []
  | x :: xs => x ++ flat_map (fun y => sep :: y) xs
  end.

Definition idents_tvs (sep : TokenType * string) (ws : list string)
    : list (TokenType * string) :=
  join_tvs sep (map (fun w => [(TokenIdent, w)]) ws).

Definition name_tvs (name : string) : list (TokenType * string) :=
  idents_tvs (TokenDot, ".") (split_dots name).

Definition value_tvs (v : Value) : list (TokenType * string) :=
  match vType v with
  | ValueString => [(TokenString, vStr v)]
  | ValueDateRange => [(TokenDateRange, DateRange_String (vDateRange v))]
  | ValueList =>
      (TokenLParen, "(") :: idents_tvs (TokenComma, ",") (vList v) ++ [(TokenRParen, ")")]
  | _ => []
  end.

Definition cond_tvs (c : Condition) : list (TokenType * string) :=
  name_tvs (cField c) ++ op_tvs (cOperator c) ++ value_tvs (cValue c).

Definition ordering_tvs (o : Ordering) : list (TokenType * string) :=
  name_tvs (oField o)
  ++ match oDirection o with Desc => [(TokenDesc, "DESC")] | Asc => [] end.

Definition param_tvs (kv : string * string) : list (TokenType * string) :=
  [(TokenIdent, fst kv); (TokenEq, "="); (TokenIdent, snd kv)].

Definition query_tvs (q : Query) : list (TokenType * string) :=
  (TokenSelect, "SELECT")
  :: join_tvs (TokenComma, ",") (map (fun f => name_tvs (fName f)) (Select q))
  ++ (TokenFrom, "FROM") :: (TokenIdent, From q)
  :: match Where q with
     | [] => []
     | _ => (TokenWhere, "WHERE") :: join_tvs (TokenAnd, "AND") (map cond_tvs (Where q))
     end
  ++ match OrderBy q with
     | [] => []
     | _ => (TokenOrderBy, "ORDER BY")
            :: join_tvs (TokenComma, ",") (map ordering_tvs (OrderBy q))
     end
  ++ (if (0 <? Limit q)%Z
      then [(TokenLimit, "LIMIT"); (TokenNumber, FormatInt (Limit q))]
      else [])
  ++ match Parameters q with
     | [] => []
     | _ => (TokenParameters, "PARAMETERS")
            :: join_tvs (TokenComma, ",") (map param_tvs (Parameters q))
     end.

(** [yields m toks a rest]: unless the loop bound is used up, the parser [m]
    on [toks] returns [a] and leaves [rest]. *)
Definition yields {A : Type} (m : Parser A) (toks : list Token) (a : A)
    (rest : list Token) : Prop :=
  match m toks with
  | Ok (a', rest') => a' = a /\ rest' = rest
  | Err _ => False
  | OutOfFuel => True
  end.

(** The type of the token the parser looks at. *)
Definition next_type (toks : list Token) : TokenType := tType (current_token toks).

(** Token types that can follow the ORDER BY clause, and the LIMIT clause. *)
Definition ends_order_by (ty : TokenType) : bool :=
  match ty with
  | TokenEOF | TokenLimit | TokenParameters => true
  | _ => false
  end.

Definition ends_limit (ty : TokenType) : bool :=
  match ty with
  | TokenEOF | TokenParameters => true
  | _ => false
  end.

(** The bounds of every BETWEEN condition are dates or date-range keywords. *)
Definition between_dates (c : Condition) : Prop :=
  cOperator c = OpBetween ->
  Forall (fun d => datePattern_MatchString d = true \/ isDateRangeKeyword d = true)
    (vList (cValue c)).

(** ** String literals, clause keywords *)

(** A byte of a string value written inside a literal: quotes and the
    backslash are escaped with a backslash. *)
Definition escape_byte (c : ascii) : string :=
  if Ascii.eqb c backslash || Ascii.eqb c single_quote || Ascii.eqb c double_quote
  then String backslash (String c "")
  else String c "".

(** [v] as written inside a literal. *)
Fixpoint escape (v : string) : string :=
  match v with
  | EmptyString => ""
  | String c rest => escape_byte c ++ escape rest
  end.

(** The keywords that open a clause. *)
Definition clause_keyword (ty : TokenType) : bool :=
  match ty with
  | TokenSelect | TokenFrom | TokenWhere | TokenOrderBy | TokenLimit
  | TokenParameters => true
  | _ => false
  end.

(** The clause keywords of the clauses a query has, in the order of the
    grammar. *)
Definition clause_keywords_of (q : Query) : list TokenType :=
  [TokenSelect; TokenFrom]
  ++ match Where q with [] => [] | _ => [TokenWhere] end
  ++ match OrderBy q with [] => [] | _ => [TokenOrderBy] end
  ++ (if (0 <? Limit q)%Z then [TokenLimit] else [])
  ++ match Parameters q with [] => [] | _ => [TokenParameters] end.

(** Tokens inside a clause: no clause keyword and not the end of input. *)
Definition body_token (t : Token) : Prop :=
  clause_keyword (tType t) = false /\ tType t <> TokenEOF.

(** [consumes P m toks]: when [m] succeeds on [toks], the tokens it has
    consumed all satisfy [P]. *)
Definition consumes (P : Token -> Prop) {A : Type} (m : Parser A) (toks : list Token)
    : Prop :=
  match m toks with
  | Ok (a, rest) => exists seg, toks = (seg ++ rest)%list /\ Forall P seg
  | _ => True
  end.

(** The clause keywords among the tokens [seg], in order. *)
Definition keywords_in (seg : list Token) : list TokenType :=
  filter clause_keyword (map tType seg).

Definition is_nil {A : Type} (l : list A) : bool :=
  match l with [] => true | _ => false end.

(** The integer a text denotes, whatever its size: an optional sign, then
    one or more decimal digits. *)
Definition literal_value (s : string) : option Z :=
  let '(neg, body) := split_sign s in
  match body with
  | EmptyString => None
  | _ =>
      match digits_value 0 body with
      | None => None
      | Some n => Some (if neg then (- Z.of_N n)%Z else Z.of_N n)
      end
  end.

(** * Properties *)

Example number_shape_examples :
  number_shape "123" = true /\ number_shape "45.67" = true
  /\ number_shape "-10" = true /\ number_shape "-" = false
  /\ number_shape "1." = false /\ number_shape "-.5" = false
  /\ number_shape "1.2.3" = false /\ number_shape "" = false.
Proof. repeat split; reflexivity. Qed.

(** C7.  The lexer does not look at what follows the two letters B and Y: on
    the input ORDER BYTES it emits an ORDER BY token and then the identifier
    TES, where the claim asks for the two identifiers ORDER and BYTES. *)
Theorem C7_order_by_without_word_boundary :
  Tokenize "ORDER BYTES"
  = Ok [ mkToken TokenOrderBy "ORDER BY" 1 1;
         mkToken TokenIdent "TES" 1 9;
         mkToken TokenEOF "" 1 12 ]
  /\ Tokenize "ORDER BYTES"
     <> Ok [ mkToken TokenIdent "ORDER" 1 1;
             mkToken TokenIdent "BYTES" 1 7;
             mkToken TokenEOF "" 1 12 ]
  /\ Tokenize "order by_x"
     = Ok [ mkToken TokenOrderBy "ORDER BY" 1 1;
            mkToken TokenIdent "_x" 1 9;
            mkToken TokenEOF "" 1 11 ].
Proof. repeat split; try reflexivity. vm_compute. discriminate. Qed.

(** C6.  A minus sign that no digit follows is not reported as a lexical
    error: [readNumber] emits a number token whose text is the minus alone;
    likewise it emits number tokens that end in a point or have no digit
    before the point.  None of these texts has the shape of a number. *)
Theorem C6_number_token_without_digits :
  Tokenize "-" = Ok [ mkToken TokenNumber "-" 1 1; mkToken TokenEOF "" 1 2 ]
  /\ number_shape "-" = false
  /\ Tokenize "1. -.5 -."
     = Ok [ mkToken TokenNumber "1." 1 1; mkToken TokenNumber "-.5" 1 4;
            mkToken TokenNumber "-." 1 8; mkToken TokenEOF "" 1 10 ]
  /\ number_shape "1." = false /\ number_shape "-.5" = false
  /\ number_shape "-." = false
  /\ Parse "SELECT a FROM b WHERE c IN (-)"
     = Ok (mkQuery [mkField "a"] "b" [mkCondition "c" OpIn (Value_list ["-"])] [] 0 []).
Proof. repeat split; reflexivity. Qed.

(** C1.  Printing a parsed query and parsing the text again fails for a
    BETWEEN condition (printed as a parenthesised list without AND), for a
    string value that contains a quote (printed without escape) and for a
    PARAMETERS value that was a string with a space (printed without
    quotes). *)
Theorem C1_round_trip_fails :
  let q1 := mkQuery [mkField "a"] "b"
              [mkCondition "c" OpBetween (Value_list ["x"; "y"])] [] 0 [] in
  let q2 := mkQuery [mkField "a"] "b"
              [mkCondition "c" OpEq (Value_str "it's")] [] 0 [] in
  let q3 := mkQuery [mkField "a"] "b" [] [] 0 [("p", "x y")] in
  (Parse "SELECT a FROM b WHERE c BETWEEN 'x' AND 'y'" = Ok q1
   /\ Query_String q1 = "SELECT a FROM b WHERE c BETWEEN (x, y)"
   /\ Parse (Query_String q1) = Err (mkParseError "expected value, got (" 1 33))
  /\ (Parse "SELECT a FROM b WHERE c = 'it\'s'" = Ok q2
      /\ Query_String q2 = "SELECT a FROM b WHERE c = 'it's'"
      /\ Parse (Query_String q2) = Err (mkParseError "unterminated string" 1 32))
  /\ (Parse "SELECT a FROM b PARAMETERS p = 'x y'" = Ok q3
      /\ Query_String q3 = "SELECT a FROM b PARAMETERS p = x y"
      /\ Parse (Query_String q3) = Err (mkParseError "unexpected token: y" 1 34)).
Proof. repeat split; reflexivity. Qed.

(** ** Strings *)

Lemma HasPrefix_spec (s p : string) :
  HasPrefix s p = true <-> exists r, s = p ++ r.
Proof.
  revert s; induction p as [|b p IH]; intros s.
  - split; [intros _; exists s; reflexivity | destruct s; reflexivity].
  - destruct s as [|a s].
    + split; [discriminate | intros [r Hr]; discriminate].
    + change (HasPrefix (String a s) (String b p))
        with (Ascii.eqb a b && HasPrefix s p).
      rewrite andb_true_iff, Ascii.eqb_eq, IH. split.
      * intros [-> [r ->]]. exists r. reflexivity.
      * intros [r Hr]. injection Hr as -> ->. split; [reflexivity | exists r; reflexivity].
Qed.

Lemma existsb_eqb_In {A : Type} (key : A -> string) (k : string) (l : list A) :
  existsb (fun x => String.eqb (key x) k) l = true <-> In k (map key l).
Proof.
  rewrite existsb_exists, in_map_iff. split.
  - intros [x [Hin Heq]]. apply String.eqb_eq in Heq. exists x. split; assumption.
  - intros [x [Heq Hin]]. exists x. split; [assumption | apply String.eqb_eq; assumption].
Qed.





(** ** The validator *)

Lemma or_else_None (a b : verror) : or_else a b = None <-> a = None /\ b = None.
Proof.
  destruct a; simpl; split; try discriminate; try tauto.
Qed.

Lemma singleDay_loop_find (conds : list Condition) :
  singleDay_loop conds =
    match find decisive conds with
    | None => None
    | Some c =>
        Some (if String.eqb (cField c) "segments.date"
                 && ((Operator_eqb (cOperator c) OpDuring
                      && (DateRange_eqb (vDateRange (cValue c)) DateRangeToday
                          || DateRange_eqb (vDateRange (cValue c)) DateRangeYesterday))
                     || Operator_eqb (cOperator c) OpEq
                     || (Operator_eqb (cOperator c) OpBetween
                         && list_is_same_pair (vList (cValue c))))
              then None else Some (single_day_error c))
    end.
Proof.
  induction conds as [|[f op v] rest IH]; simpl; [reflexivity |].
  unfold decisive, single_day_error; simpl.
  destruct (String.eqb f "segments.date") eqn:E; simpl; [| exact IH].
  destruct op; simpl; rewrite ?E; simpl; try exact IH; try reflexivity.
  - destruct (vDateRange v); reflexivity.
  - destruct (list_is_same_pair _); reflexivity.
Qed.

Lemma Operator_eqb_eq (a b : Operator) : Operator_eqb a b = true <-> a = b.
Proof.
  unfold Operator_eqb. destruct (Operator_eq_dec a b); split; congruence.
Qed.

Lemma DateRange_eqb_eq (a b : DateRange) : DateRange_eqb a b = true <-> a = b.
Proof.
  unfold DateRange_eqb. destruct (DateRange_eq_dec a b); split; congruence.
Qed.

Lemma TokenType_eqb_eq (a b : TokenType) : TokenType_eqb a b = true <-> a = b.
Proof.
  unfold TokenType_eqb. destruct (TokenType_eq_dec a b); split; congruence.
Qed.

Lemma list_is_same_pair_spec (l : list string) :
  list_is_same_pair l = true <-> exists x, l = [x; x].
Proof.
  destruct l as [|x [|y [|z l]]]; simpl;
    try (split; [discriminate | intros [w Hw]; discriminate]).
  rewrite String.eqb_eq. split.
  - intros ->. exists y. reflexivity.
  - intros [w Hw]. injection Hw as -> ->. reflexivity.
Qed.

Lemma single_day_dec (c : Condition) :
  String.eqb (cField c) "segments.date"
  && ((Operator_eqb (cOperator c) OpDuring
       && (DateRange_eqb (vDateRange (cValue c)) DateRangeToday
           || DateRange_eqb (vDateRange (cValue c)) DateRangeYesterday))
      || Operator_eqb (cOperator c) OpEq
      || (Operator_eqb (cOperator c) OpBetween
          && list_is_same_pair (vList (cValue c)))) = true
  <-> single_day c.
Proof.
  unfold single_day.
  rewrite andb_true_iff, !orb_true_iff, !andb_true_iff, orb_true_iff,
    String.eqb_eq, !Operator_eqb_eq, !DateRange_eqb_eq, list_is_same_pair_spec.
  tauto.
Qed.

Lemma find_decisive_In (conds : list Condition) (c : Condition) :
  find decisive conds = Some c -> In c conds /\ cField c = "segments.date".
Proof.
  intros H. apply find_some in H. destruct H as [Hin Hd]. split; [assumption |].
  unfold decisive in Hd. apply andb_true_iff in Hd. destruct Hd as [Hf _].
  apply String.eqb_eq. assumption.
Qed.

Lemma validateFrom_click_view (q : Query) :
  From q = "click_view" -> validateFrom NewValidator q = None.
Proof. intros H. unfold validateFrom. rewrite H. reflexivity. Qed.

Lemma validateSingleDayResource_find (q : Query) :
  From q = "click_view" ->
  validateSingleDayResource q =
    match find decisive (Where q) with
    | None => Some missing_date_error
    | Some c =>
        if String.eqb (cField c) "segments.date"
           && ((Operator_eqb (cOperator c) OpDuring
                && (DateRange_eqb (vDateRange (cValue c)) DateRangeToday
                    || DateRange_eqb (vDateRange (cValue c)) DateRangeYesterday))
               || Operator_eqb (cOperator c) OpEq
               || (Operator_eqb (cOperator c) OpBetween
                   && list_is_same_pair (vList (cValue c))))
        then None else Some (single_day_error c)
    end.
Proof.
  intros H. unfold validateSingleDayResource. rewrite H. simpl.
  rewrite singleDay_loop_find. destruct (find decisive (Where q)); reflexivity.
Qed.

(** C4.  With RequireMetricDateContext set (the default), a query that
    selects a field beginning with metrics. fails the metric rule with the
    date-context message unless segments.date is a SELECT field or the field
    of a WHERE condition; with no such field, or with the flag off, the rule
    never fails.  The rule is the last one: it gives the result of Validate
    whenever the five rules before it pass. *)
Theorem C4_metric_date_context (v : Validator) (q : Query) :
  let has_metric := exists f r, In f (Select q) /\ fName f = "metrics." ++ r in
  let dated := In "segments.date" (map fName (Select q))
               \/ In "segments.date" (map cField (Where q)) in
  RequireMetricDateContext NewValidator = true
  /\ (RequireMetricDateContext v = true -> has_metric -> ~ dated ->
      validateMetricDateContext v q = Some metric_error)
  /\ (dated -> validateMetricDateContext v q = None)
  /\ (~ has_metric -> validateMetricDateContext v q = None)
  /\ (RequireMetricDateContext v = false -> validateMetricDateContext v q = None)
  /\ (validateSelect q = None -> validateFrom v q = None -> validateWhere q = None ->
      validateLimit q = None -> validateSingleDayResource q = None ->
      Validate v q = validateMetricDateContext v q).
Proof.
  intros has_metric dated.
  assert (Hm : existsb (fun f => HasPrefix (fName f) "metrics.") (Select q) = true
               <-> has_metric).
  { rewrite existsb_exists. unfold has_metric. split.
    - intros [f [Hin Hp]]. apply HasPrefix_spec in Hp. destruct Hp as [r Hr].
      exists f, r. split; assumption.
    - intros [f [r [Hin Hr]]]. exists f. split; [assumption |].
      apply HasPrefix_spec. exists r. assumption. }
  assert (Hd : (if negb (existsb (fun f => String.eqb (fName f) "segments.date") (Select q))
                then existsb (fun cond => String.eqb (cField cond) "segments.date") (Where q)
                else existsb (fun f => String.eqb (fName f) "segments.date") (Select q)) = true
               <-> dated).
  { unfold dated. rewrite <- !existsb_eqb_In.
    destruct (existsb (fun f => String.eqb (fName f) "segments.date") (Select q)); simpl.
    - split; [left; reflexivity | reflexivity].
    - split; [right; assumption | intros [H|H]; [discriminate | assumption]]. }
  unfold validateMetricDateContext.
  split; [reflexivity |].
  split; [| split; [| split; [| split]]].
  - intros Hflag Hmet Hnd. rewrite Hflag. simpl.
    apply Hm in Hmet. rewrite Hmet. simpl.
    destruct (if negb _ then _ else _); [| reflexivity].
    exfalso. apply Hnd, Hd. reflexivity.
  - intros Hdated. apply Hd in Hdated. rewrite Hdated. simpl.
    destruct (negb (RequireMetricDateContext v)); [reflexivity |].
    destruct (negb (existsb (fun f => HasPrefix (fName f) "metrics.") (Select q)));
      reflexivity.
  - intros Hnm. destruct (negb (RequireMetricDateContext v)); [reflexivity |].
    destruct (existsb (fun f => HasPrefix (fName f) "metrics.") (Select q));
      [| reflexivity].
    exfalso. apply Hnm, Hm. reflexivity.
  - intros Hflag. rewrite Hflag. reflexivity.
  - intros Hs Hf Hw Hl Hsd. unfold Validate. rewrite Hs, Hf, Hw, Hl, Hsd. reflexivity.
Qed.

Lemma C4_metric_date_context_witness :
  let q := mkQuery [mkField "campaign.id"; mkField "metrics.clicks"] "campaign" [] [] 0 [] in
  validateMetricDateContext NewValidator q = Some metric_error
  /\ Validate NewValidator q = Some metric_error.
Proof.
  intros q.
  destruct (C4_metric_date_context NewValidator q) as (_ & Hfail & _ & _ & _ & Hval).
  assert (H : validateMetricDateContext NewValidator q = Some metric_error).
  { apply Hfail.
    - reflexivity.
    - exists (mkField "metrics.clicks"), "clicks". split; [right; left; reflexivity | reflexivity].
    - intros [H | H]; simpl in H.
      + destruct H as [H | [H | []]]; discriminate.
      + exact H. }
  split; [exact H |].
  rewrite <- H. apply Hval; reflexivity.
Defined.




(** ** The lexer *)

Lemma advance_length (l : Lexer) :
  String.length (input (advance l)) = String.length (input l) - 1.
Proof.
  unfold advance. destruct (input l) as [|ch rest] eqn:E; simpl.
  - rewrite E. reflexivity.
  - destruct (Ascii.eqb ch newline); simpl; rewrite Nat.sub_0_r; reflexivity.
Qed.

Lemma skipWhitespace_from_length (s : string) (ln col : nat) :
  String.length (input (skipWhitespace_from s ln col)) <= String.length s.
Proof.
  revert ln col; induction s as [|ch rest IH]; intros ln col; simpl; [lia |].
  destruct (_ || _); [specialize (IH ln (col + 1)); lia |].
  destruct (Ascii.eqb ch newline); [specialize (IH (ln + 1) 1); lia | simpl; lia].
Qed.

Lemma skipWhitespace_length (l : Lexer) :
  String.length (input (skipWhitespace l)) <= String.length (input l).
Proof. apply skipWhitespace_from_length. Qed.

Lemma readString_loop_spec (quote : ascii) (sl sc : nat) (k : nat) :
  forall (s : string) (ln col : nat) (sb : string),
    String.length s <= k ->
    let '(tok, l') := readString_loop quote sl sc s ln col sb in
    (tType tok = TokenString
     \/ (tType tok = TokenError /\ tValue tok = "unterminated string"))
    /\ String.length (input l') <= String.length s.
Proof.
  induction k as [|k IH]; intros s ln col sb Hlen.
  - destruct s; [| simpl in Hlen; lia]. simpl. split; [right; split; reflexivity | lia].
  - destruct s as [|ch rest]; [simpl; split; [right; split; reflexivity | lia] |].
    simpl in Hlen. cbn [readString_loop].
    destruct (Ascii.eqb ch quote).
    + split; [left; reflexivity |]. rewrite advance_length. simpl. lia.
    + destruct rest as [|escaped rest'].
      * specialize (IH "" (line (advance (mkLexer (String ch "") ln col)))
                      (column (advance (mkLexer (String ch "") ln col)))
                      (sb ++ String ch "")).
        destruct (readString_loop quote sl sc "" _ _ _) as [tok l'].
        destruct IH as [Ht Hl]; [simpl; lia |]. split; [exact Ht | simpl in *; lia].
      * destruct (Ascii.eqb ch backslash).
        -- match goal with
           | |- context [readString_loop quote sl sc rest' ?a ?b ?c] =>
               specialize (IH rest' a b c)
           end.
           destruct (readString_loop quote sl sc rest' _ _ _) as [tok l'].
           destruct IH as [Ht Hl]; [simpl in Hlen; lia |].
           split; [exact Ht | simpl in *; lia].
        -- match goal with
           | |- context [readString_loop quote sl sc (String escaped rest') ?a ?b ?c] =>
               specialize (IH (String escaped rest') a b c)
           end.
           destruct (readString_loop quote sl sc (String escaped rest') _ _ _) as [tok l'].
           destruct IH as [Ht Hl]; [simpl in *; lia |].
           split; [exact Ht | simpl in *; lia].
Qed.

Lemma advanceWhile_from_spec (p : ascii -> bool) (s : string) :
  forall ln col,
    let '(v, l') := advanceWhile_from p s ln col in
    String.length v + String.length (input l') = String.length s
    /\ (forall ch rest, s = String ch rest -> p ch = true -> v <> "").
Proof.
  induction s as [|ch rest IH]; intros ln col; simpl.
  - split; [reflexivity | intros ch rest H; discriminate].
  - destruct (p ch) eqn:E.
    + match goal with
      | |- context [advanceWhile_from p rest ?a ?b] => specialize (IH a b)
      end.
      destruct (advanceWhile_from p rest _ _) as [v l2].
      destruct IH as [Hl _]. split; [simpl; lia | intros; discriminate].
    + split; [reflexivity |]. intros ch' rest' H Hp. injection H as -> ->. congruence.
Qed.

Lemma advanceWhile_length (p : ascii -> bool) (l : Lexer) :
  String.length (input (snd (advanceWhile p l))) <= String.length (input l).
Proof.
  unfold advanceWhile.
  pose proof (advanceWhile_from_spec p (input l) (line l) (column l)) as H.
  destruct (advanceWhile_from p (input l) (line l) (column l)) as [v l'].
  simpl. destruct H as [H _]. lia.
Qed.

Lemma advanceWhile_spec (p : ascii -> bool) (l : Lexer) :
  String.length (fst (advanceWhile p l)) + String.length (input (snd (advanceWhile p l)))
  = String.length (input l)
  /\ (forall ch rest, input l = String ch rest -> p ch = true ->
      fst (advanceWhile p l) <> "").
Proof.
  unfold advanceWhile.
  pose proof (advanceWhile_from_spec p (input l) (line l) (column l)) as H.
  destruct (advanceWhile_from p (input l) (line l) (column l)) as [v l'].
  exact H.
Qed.

Lemma string_length_pos (s : string) : s <> "" -> 0 < String.length s.
Proof. destruct s; [congruence | simpl; lia]. Qed.

Lemma readNumber_spec (l : Lexer) (ch : ascii) (rest : string) :
  input l = String ch rest ->
  Ascii.eqb ch "-" || isDigit ch = true ->
  tType (fst (readNumber l)) = TokenNumber
  /\ String.length (input (snd (readNumber l))) < String.length (input l).
Proof.
  intros Hin Hch. unfold readNumber. rewrite Hin.
  set (sl := if Ascii.eqb ch "-" then ("-", advance l) else ("", l)).
  assert (Hsl : String.length (input (snd sl)) <= String.length (input l)
                /\ (Ascii.eqb ch "-" = true ->
                    String.length (input (snd sl)) < String.length (input l))
                /\ (Ascii.eqb ch "-" = false -> snd sl = l)).
  { subst sl. destruct (Ascii.eqb ch "-"); simpl.
    - rewrite advance_length, Hin. simpl.
      repeat split; intros; try lia; try discriminate.
    - repeat split; intros; try lia; try discriminate; reflexivity. }
  destruct sl as [sign l1]. simpl in Hsl. destruct Hsl as (Hle & Hminus & Hsame).
  destruct (advanceWhile_spec isDigit l1) as [Hlen Hne].
  destruct (advanceWhile isDigit l1) as [int_part l2]. simpl in Hlen, Hne.
  assert (H2 : String.length (input l2) < String.length (input l)).
  { destruct (Ascii.eqb ch "-") eqn:E.
    - specialize (Hminus eq_refl). lia.
    - simpl in Hch. rewrite (Hsame eq_refl) in *.
      pose proof (string_length_pos _ (Hne ch rest Hin Hch)). lia. }
  rewrite Hin in H2. simpl in H2.
  destruct (input l2) as [|c2 r2] eqn:E2.
  - simpl. split; [reflexivity | rewrite ?E2; simpl in *; lia].
  - destruct (Ascii.eqb c2 ".").
    + pose proof (advanceWhile_length isDigit (advance l2)) as H3.
      rewrite advance_length, E2 in H3.
      destruct (advanceWhile isDigit (advance l2)) as [digits l3]. simpl in *.
      split; [reflexivity | lia].
    + simpl. split; [reflexivity | rewrite ?E2; simpl in *; lia].
Qed.

Lemma Keywords_types (k : string) (ty : TokenType) :
  lookup Keywords k = Some ty ->
  ty <> TokenEOF /\ ty <> TokenError /\ ty <> TokenDateRange
  /\ (ty = TokenIdent -> k <> "").
Proof.
  unfold Keywords. simpl.
  repeat (destruct (String.eqb k _) eqn:E;
          [ apply String.eqb_eq in E; subst k;
            intros H; injection H as <-; repeat split; discriminate
          | clear E ]).
  discriminate.
Qed.

Lemma readIdentOrKeyword_spec (l : Lexer) (ch : ascii) (rest : string) :
  input l = String ch rest ->
  isLetter ch || Ascii.eqb ch "_" = true ->
  let tok := fst (readIdentOrKeyword l) in
  tok_inv tok /\ tType tok <> TokenEOF /\ tType tok <> TokenError
  /\ String.length (input (snd (readIdentOrKeyword l))) < String.length (input l).
Proof.
  intros Hin Hch.
  assert (Hid : isIdentByte ch = true).
  { unfold isIdentByte. apply orb_true_iff in Hch. destruct Hch as [-> | ->];
      [reflexivity | rewrite orb_true_r; reflexivity]. }
  unfold readIdentOrKeyword.
  destruct (advanceWhile_spec isIdentByte l) as [Hlen Hne].
  specialize (Hne ch rest Hin Hid).
  destruct (advanceWhile isIdentByte l) as [value l1]. simpl in Hlen, Hne.
  pose proof (string_length_pos _ Hne) as Hpos.
  unfold tok_inv.
  destruct (String.eqb (ToUpper value) "ORDER").
  - pose proof (skipWhitespace_length l1) as Hsk.
    destruct (_ && _); cbn [fst snd tType tValue].
    + repeat split; try discriminate. rewrite !advance_length. lia.
    + repeat split; try discriminate; [intros _; exact Hne | lia].
  - destruct (lookup DateRangeKeywords (ToUpper value)) as [dr|] eqn:Edr;
      cbn [fst snd tType tValue].
    + repeat split; try discriminate; [| lia]. intros _. rewrite Edr. discriminate.
    + destruct (lookup Keywords (ToUpper value)) as [ty|] eqn:Ekw;
        cbn [fst snd tType tValue].
      * destruct (Keywords_types _ _ Ekw) as (H1 & H2 & H3 & H4).
        repeat split; try assumption; try lia. intros H. contradiction.
      * repeat split; try discriminate; [intros _; exact Hne | lia].
Qed.

Lemma tok_inv_other (t : Token) :
  tType t <> TokenIdent -> tType t <> TokenDateRange -> tok_inv t.
Proof. intros H1 H2. split; intros H; contradiction. Qed.

Lemma readString_spec (quote : ascii) (l : Lexer) (ch : ascii) (rest : string) :
  input l = String ch rest ->
  let tok := fst (readString quote l) in
  (tType tok = TokenString
   \/ (tType tok = TokenError /\ tValue tok = "unterminated string"))
  /\ String.length (input (snd (readString quote l))) < String.length (input l).
Proof.
  intros Hin. unfold readString.
  pose proof (readString_loop_spec quote (line l) (column l)
                (String.length (input (advance l))) (input (advance l))
                (line (advance l)) (column (advance l)) "" (le_n _)) as H.
  destruct (readString_loop _ _ _ _ _ _ _) as [tok l']. simpl.
  destruct H as [Ht Hl]. split; [exact Ht |].
  rewrite advance_length, Hin in Hl. rewrite Hin. simpl in *. lia.
Qed.

Ltac lexer_simple_token :=
  cbn [fst snd tType tValue];
  split; [apply tok_inv_other; discriminate |];
  right; right; repeat split; try discriminate;
  rewrite ?advance_length; lia.

Lemma nextToken_spec (l : Lexer) :
  let tok := fst (nextToken l) in
  tok_inv tok
  /\ (tType tok = TokenEOF
      \/ (tType tok = TokenError
          /\ HasPrefix (tValue tok) "unknown date range" = false)
      \/ (tType tok <> TokenEOF /\ tType tok <> TokenError
          /\ String.length (input (snd (nextToken l))) < String.length (input l))).
Proof.
  unfold nextToken.
  pose proof (skipWhitespace_length l) as Hsk.
  set (l1 := skipWhitespace l) in *.
  destruct (input l1) as [|ch rest] eqn:Hin.
  - cbn [fst snd tType]. split; [apply tok_inv_other; discriminate | left; reflexivity].
  - assert (Hpos : String.length (input l1) = S (String.length rest))
      by (rewrite Hin; reflexivity).
    simpl in Hsk.
    destruct (Ascii.eqb ch ","); [lexer_simple_token |].
    destruct (Ascii.eqb ch "("); [lexer_simple_token |].
    destruct (Ascii.eqb ch ")"); [lexer_simple_token |].
    destruct (Ascii.eqb ch "."); [lexer_simple_token |].
    destruct (Ascii.eqb ch "="); [lexer_simple_token |].
    destruct (Ascii.eqb ch "!").
    { destruct (Ascii.eqb (peek l1 1) "="); [lexer_simple_token |].
      cbn [fst snd tType tValue].
      split; [apply tok_inv_other; discriminate |].
      right; left. split; reflexivity. }
    destruct (Ascii.eqb ch ">").
    { destruct (Ascii.eqb (peek l1 1) "="); lexer_simple_token. }
    destruct (Ascii.eqb ch "<").
    { destruct (Ascii.eqb (peek l1 1) "="); lexer_simple_token. }
    destruct (Ascii.eqb ch single_quote || Ascii.eqb ch double_quote).
    { destruct (readString_spec ch l1 ch rest Hin) as [Ht Hl].
      destruct Ht as [Ht | [Ht Hv]].
      - split; [apply tok_inv_other; rewrite Ht; discriminate |].
        right; right. rewrite Ht. repeat split; try discriminate. lia.
      - split; [apply tok_inv_other; rewrite Ht; discriminate |].
        right; left. rewrite Hv. split; [exact Ht | reflexivity]. }
    destruct (Ascii.eqb ch "-" || isDigit ch) eqn:Enum.
    { destruct (readNumber_spec l1 ch rest Hin Enum) as [Ht Hl].
      split; [apply tok_inv_other; rewrite Ht; discriminate |].
      right; right. rewrite Ht. repeat split; try discriminate. lia. }
    destruct (isLetter ch || Ascii.eqb ch "_") eqn:Eid.
    { destruct (readIdentOrKeyword_spec l1 ch rest Hin Eid) as (Hi & H1 & H2 & Hl).
      split; [exact Hi |]. right; right. repeat split; try assumption. lia. }
    cbn [fst snd tType tValue].
    split; [apply tok_inv_other; discriminate |].
    right; left. split; reflexivity.
Qed.

Lemma Tokenize_loop_spec (fuel : nat) :
  forall (l : Lexer) (acc : list Token),
    String.length (input l) < fuel ->
    match Tokenize_loop fuel l acc with
    | Ok toks =>
        exists body eof,
          toks = (acc ++ body ++ [eof])%list
          /\ tType eof = TokenEOF
          /\ Forall (fun t => tType t <> TokenEOF) body
          /\ Forall tok_inv (body ++ [eof])%list
    | Err e => err_ok e
    | OutOfFuel => False
    end.
Proof.
  induction fuel as [|fuel IH]; intros l acc Hlen; [lia |].
  cbn [Tokenize_loop].
  pose proof (nextToken_spec l) as Hnext.
  destruct (nextToken l) as [tok l']. cbn [fst snd] in Hnext.
  destruct Hnext as [Hinv Hcases].
  unfold TokenType_eqb.
  destruct (TokenType_eq_dec (tType tok) TokenEOF) as [Heof | Hneof].
  - exists [], tok. repeat split; try assumption; constructor; [assumption | constructor].
  - destruct (TokenType_eq_dec (tType tok) TokenError) as [Herr | Hnerr].
    + destruct Hcases as [H | [[_ H] | [_ [H _]]]]; [contradiction | exact H | contradiction].
    + destruct Hcases as [H | [[H _] | (_ & _ & Hl)]]; [contradiction | contradiction |].
      specialize (IH l' (acc ++ [tok])%list).
      destruct (Tokenize_loop fuel l' (acc ++ [tok])%list) as [toks | e |].
      * destruct IH as (body & eof & Htoks & Heof & Hbody & Hall); [lia |].
        exists (tok :: body), eof. rewrite <- app_assoc in Htoks.
        repeat split; try assumption; constructor; assumption.
      * apply IH. lia.
      * apply IH. lia.
Qed.

(** The lexer always answers.  On success the tokens are a body without
    end-of-input token followed by one end-of-input token, and every token
    satisfies [tok_inv]; an error never has the message of the dead branch. *)
Lemma Tokenize_spec (s : string) :
  match Tokenize s with
  | Ok toks =>
      exists body eof,
        toks = (body ++ [eof])%list
        /\ tType eof = TokenEOF
        /\ Forall (fun t => tType t <> TokenEOF) body
        /\ Forall tok_inv toks
  | Err e => err_ok e
  | OutOfFuel => False
  end.
Proof.
  unfold Tokenize.
  pose proof (Tokenize_loop_spec (S (String.length s)) (NewLexer s) []) as H.
  destruct (Tokenize_loop _ _ _) as [toks | e |].
  - destruct H as (body & eof & Htoks & Heof & Hbody & Hall); [simpl; lia |].
    exists body, eof. simpl in Htoks. subst toks. repeat split; assumption.
  - apply H. simpl. lia.
  - apply H. simpl. lia.
Qed.

(** ** Rules for running the parser *)

Lemma run_ret {A : Type} (n : nat) (a : A) (toks : list Token)
    (P : A -> list Token -> list Token -> Prop) :
  P a [] toks -> run_ok n (ret a) toks P.
Proof. intros H _ _. exists []. split; [reflexivity | exact H]. Qed.

Lemma run_error {A : Type} (n : nat) (msg : string) (toks : list Token)
    (P : A -> list Token -> list Token -> Prop) :
  HasPrefix msg "unknown date range" = false -> run_ok n (p_error msg) toks P.
Proof. intros H _ _. exact H. Qed.

Lemma run_bind {A B : Type} (n : nat) (m : Parser A) (k : A -> Parser B)
    (toks : list Token) (P : A -> list Token -> list Token -> Prop)
    (R : B -> list Token -> list Token -> Prop) :
  run_ok n m toks P ->
  (forall a s1 rest1, toks = (s1 ++ rest1)%list -> P a s1 rest1 ->
     run_ok n (k a) rest1 (fun b s2 rest => R b (s1 ++ s2)%list rest)) ->
  run_ok n (bind m k) toks R.
Proof.
  intros Hm Hk Hlen Hinv. specialize (Hm Hlen Hinv). unfold bind.
  destruct (m toks) as [[a rest1] | e |]; [| exact Hm | exact Hm].
  destruct Hm as (s1 & Htoks & HP). subst toks.
  specialize (Hk a s1 rest1 eq_refl HP).
  assert (Hlen1 : List.length rest1 < n) by (rewrite length_app in Hlen; lia).
  assert (Hinv1 : Forall tok_inv rest1) by (apply Forall_app in Hinv; tauto).
  specialize (Hk Hlen1 Hinv1).
  destruct (k a rest1) as [[b rest] | e |]; [| exact Hk | exact Hk].
  destruct Hk as (s2 & Hrest & HR). subst rest1.
  exists (s1 ++ s2)%list. split; [apply app_assoc | exact HR].
Qed.

Lemma run_weaken {A : Type} (n : nat) (m : Parser A) (toks : list Token)
    (P Q : A -> list Token -> list Token -> Prop) :
  run_ok n m toks P -> (forall a seg rest, P a seg rest -> Q a seg rest) ->
  run_ok n m toks Q.
Proof.
  intros Hm HPQ Hlen Hinv. specialize (Hm Hlen Hinv).
  destruct (m toks) as [[a rest] | e |]; [| exact Hm | exact Hm].
  destruct Hm as (seg & Htoks & HP). exists seg. split; [exact Htoks | auto].
Qed.

Lemma run_current {A : Type} (n : nat) (k : Token -> Parser A) (toks : list Token)
    (R : A -> list Token -> list Token -> Prop) :
  run_ok n (k (current_token toks)) toks R -> run_ok n (bind p_current k) toks R.
Proof. intros H. exact H. Qed.

Lemma run_advance {A : Type} (n : nat) (k : unit -> Parser A) (tok : Token)
    (rest : list Token) (R : A -> list Token -> list Token -> Prop) :
  (tok_inv tok -> run_ok n (k tt) rest (fun b s r => R b (tok :: s) r)) ->
  run_ok n (bind p_advance k) (tok :: rest) R.
Proof.
  intros H Hlen Hinv. unfold bind, p_advance. cbn [tl].
  inversion Hinv as [| ? ? Htok Hrest]; subst.
  simpl in Hlen. specialize (H Htok ltac:(lia) Hrest).
  destruct (k tt rest) as [[b r] | e |]; [| exact H | exact H].
  destruct H as (s & Hs & HR). exists (tok :: s). subst rest. split; [reflexivity | exact HR].
Qed.

Lemma run_with_length {A : Type} (n : nat) (m : Parser A) (toks : list Token)
    (P : A -> list Token -> list Token -> Prop) :
  (List.length toks < n -> run_ok n m toks P) -> run_ok n m toks P.
Proof. intros H Hlen. exact (H Hlen Hlen). Qed.

Lemma run_with_inv {A : Type} (n : nat) (m : Parser A) (toks : list Token)
    (P : A -> list Token -> list Token -> Prop) :
  (Forall tok_inv toks -> run_ok n m toks P) -> run_ok n m toks P.
Proof. intros H Hlen Hinv. exact (H Hinv Hlen Hinv). Qed.

Lemma current_type (toks : list Token) (t : TokenType) :
  t <> TokenEOF -> tType (current_token toks) = t ->
  exists tok rest, toks = tok :: rest /\ tType tok = t.
Proof.
  intros Ht H. destruct toks as [|tok rest]; [simpl in H; congruence |].
  exists tok, rest. split; [reflexivity | exact H].
Qed.

Lemma run_check {A : Type} (n : nat) (t : TokenType) (k : bool -> Parser A)
    (toks : list Token) (R : A -> list Token -> list Token -> Prop) :
  (tType (current_token toks) = t -> run_ok n (k true) toks R) ->
  (tType (current_token toks) <> t -> run_ok n (k false) toks R) ->
  run_ok n (bind (p_check t) k) toks R.
Proof.
  intros Ht Hf. unfold run_ok.
  change (bind (p_check t) k toks)
    with (k (TokenType_eqb (tType (current_token toks)) t) toks).
  unfold TokenType_eqb.
  destruct (TokenType_eq_dec (tType (current_token toks)) t) as [E | E];
    [apply Ht | apply Hf]; exact E.
Qed.

Lemma bind_match {A : Type} (t : TokenType) (k : bool -> Parser A) (toks : list Token) :
  bind (p_match t) k toks
  = if TokenType_eqb (tType (current_token toks)) t
    then k true (tl toks) else k false toks.
Proof.
  unfold p_match, p_check, p_current, p_advance, ret, bind.
  destruct (TokenType_eqb (tType (current_token toks)) t); reflexivity.
Qed.

Lemma run_match {A : Type} (n : nat) (t : TokenType) (k : bool -> Parser A)
    (toks : list Token) (R : A -> list Token -> list Token -> Prop) :
  t <> TokenEOF ->
  (forall tok rest, toks = tok :: rest -> tType tok = t -> tok_inv tok ->
     run_ok n (k true) rest (fun b s r => R b (tok :: s) r)) ->
  (tType (current_token toks) <> t -> run_ok n (k false) toks R) ->
  run_ok n (bind (p_match t) k) toks R.
Proof.
  intros Hne Ht Hf. unfold run_ok. rewrite bind_match.
  unfold TokenType_eqb.
  destruct (TokenType_eq_dec (tType (current_token toks)) t) as [E | E].
  - destruct (current_type toks t Hne E) as (tok & rest & -> & Htok).
    intros Hlen Hinv. cbn [tl].
    apply (run_advance n (fun _ => k true) tok rest R (Ht tok rest eq_refl Htok) Hlen Hinv).
  - apply Hf. exact E.
Qed.

(** ** The parser, function by function *)

Lemma plain_cons (t : Token) (seg : list Token) :
  plain_type (tType t) = true -> plain seg -> plain (t :: seg).
Proof. intros Ht Hs. constructor; assumption. Qed.

Lemma plain_app (a b : list Token) : plain a -> plain b -> plain (a ++ b)%list.
Proof. intros Ha Hb. apply Forall_app. split; assumption. Qed.

Lemma plain_of_type (t : Token) (ty : TokenType) :
  tType t = ty -> plain_type ty = true -> plain_type (tType t) = true.
Proof. intros -> H. exact H. Qed.

Lemma parseField_loop_ok (n : nat) :
  forall (fuel : nat) (parts : list string) (toks : list Token),
    List.length toks < fuel ->
    run_ok n (parseField_loop fuel parts) toks
      (fun ps seg _ => plain seg /\ exists more, ps = (parts ++ more)%list).
Proof.
  induction fuel as [|fuel IH]; intros parts toks Hfuel; [lia |].
  cbn [parseField_loop].
  apply run_match; [discriminate | intros tok rest -> Htok _ | intros _].
  - apply run_check; intros E; cbn [negb].
    + destruct (current_type rest TokenIdent ltac:(discriminate) E)
        as (tok2 & rest2 & -> & Htok2).
      apply run_current. apply run_advance. intros _.
      apply (run_weaken n _ _ _ _ (IH _ rest2 ltac:(simpl in Hfuel; lia))).
      intros ps seg _ [Hseg [more ->]]. split.
      * apply plain_cons; [rewrite Htok; reflexivity |].
        apply plain_cons; [rewrite Htok2; reflexivity | exact Hseg].
      * exists (tValue (current_token (tok2 :: rest2)) :: more).
        rewrite <- app_assoc. reflexivity.
    + apply run_error. reflexivity.
  - apply run_ret. split; [constructor | exists []; rewrite app_nil_r; reflexivity].
Qed.

Lemma Join_nonempty (x : string) (l : list string) (sep : string) :
  x <> "" -> Join (x :: l) sep <> "".
Proof.
  intros Hx. destruct x as [|c x]; [congruence |].
  destruct l; simpl; discriminate.
Qed.

Lemma parseField_ok (n : nat) (toks : list Token) :
  run_ok n (parseField n) toks
    (fun f seg _ => seg <> [] /\ plain seg /\ fName f <> "").
Proof.
  unfold parseField.
  apply run_check; intros E; cbn [negb]; [| apply run_error; reflexivity].
  destruct (current_type toks TokenIdent ltac:(discriminate) E)
    as (tok & rest & -> & Htok).
  apply run_current. apply run_advance. intros [Hid _].
  apply run_with_length; intros Hlen.
  eapply run_bind; [apply parseField_loop_ok; exact Hlen |].
  intros ps s1 rest1 _ [Hs1 [more ->]].
  apply run_ret. rewrite app_nil_r. split; [discriminate |]. split.
  - apply plain_cons; [rewrite Htok; reflexivity | exact Hs1].
  - cbn [fName current_token app]. apply Join_nonempty. apply Hid. exact Htok.
Qed.

Lemma length_app_nonempty {A : Type} (s rest : list A) :
  s <> [] -> List.length rest < List.length (s ++ rest)%list.
Proof. destruct s; [congruence | simpl; rewrite length_app; lia]. Qed.

Lemma parseFieldList_loop_ok (n : nat) :
  forall (fuel : nat) (fields : list Field) (toks : list Token),
    List.length toks < fuel ->
    run_ok n (parseFieldList_loop n fuel fields) toks
      (fun fs seg _ =>
         seg <> [] /\ plain seg
         /\ exists more, fs = (fields ++ more)%list /\ more <> []
                         /\ Forall (fun f => fName f <> "") more).
Proof.
  induction fuel as [|fuel IH]; intros fields toks Hfuel; [lia |].
  cbn [parseFieldList_loop].
  eapply run_bind; [apply parseField_ok |].
  intros f s1 rest1 -> (Hne & Hpl & Hf). cbv zeta.
  pose proof (length_app_nonempty s1 rest1 Hne) as Hshort.
  apply run_match; [discriminate | intros tok rest -> Htok _ | intros _].
  - apply (run_weaken n _ _ _ _ (IH _ rest ltac:(simpl in Hshort; lia))).
    intros fs seg _ (_ & Hseg & more & -> & _ & Hmore).
    split; [destruct s1; [congruence | discriminate] |]. split.
    + apply plain_app; [exact Hpl |].
      apply plain_cons; [rewrite Htok; reflexivity | exact Hseg].
    + exists (f :: more). rewrite <- app_assoc. split; [reflexivity |].
      split; [discriminate | constructor; assumption].
  - apply run_ret. rewrite app_nil_r. split; [exact Hne |]. split; [exact Hpl |].
    exists [f]. split; [reflexivity |]. split; [discriminate |].
    constructor; [exact Hf | constructor].
Qed.

Lemma parseFieldList_ok (n : nat) (toks : list Token) :
  run_ok n (parseFieldList n) toks
    (fun fs seg _ =>
       fs <> [] /\ Forall (fun f => fName f <> "") fs /\ plain seg /\ seg <> []).
Proof.
  unfold parseFieldList. apply run_with_length; intros Hlen.
  eapply run_bind; [apply parseFieldList_loop_ok; exact Hlen |].
  intros fs s1 rest1 _ (Hne & Hpl & more & -> & Hmore & Hall).
  simpl app. destruct more as [|f more]; [congruence |].
  apply run_ret. rewrite app_nil_r. repeat split; assumption.
Qed.

Lemma plain_nil : plain [].
Proof. constructor. Qed.

Ltac plain_tac :=
  repeat first
    [ assumption
    | apply plain_nil
    | apply plain_app
    | apply plain_cons
    | match goal with
      | H : tType ?t = _ |- plain_type (tType ?t) = true => rewrite H; reflexivity
      end ].

Ltac run_step :=
  first
    [ apply run_advance; intros _
    | apply run_ret
    | apply run_error; reflexivity
    | apply run_match; [discriminate | intros ? ? -> ? _ | intros _] ].

Lemma parseOperator_ok (n : nat) (toks : list Token) :
  run_ok n parseOperator toks
    (fun op seg _ =>
       seg <> []
       /\ ((op = OpDuring /\ exists t, seg = [t] /\ tType t = TokenDuring)
           \/ (op <> OpDuring /\ plain seg))).
Proof.
  unfold parseOperator. apply run_current.
  destruct toks as [|tok rest]; [apply run_error; reflexivity |].
  cbn [current_token].
  destruct (tType tok) eqn:E; try (apply run_error; reflexivity);
    repeat run_step; cbn [negb]; repeat run_step;
    (split; [discriminate |]);
    try (right; split; [discriminate | plain_tac]).
  left. split; [reflexivity |]. exists tok. split; [reflexivity | exact E].
Qed.

Lemma parseSimpleValue_ok (n : nat) (toks : list Token) :
  run_ok n parseSimpleValue toks (fun _ seg _ => seg <> [] /\ plain seg).
Proof.
  unfold parseSimpleValue. apply run_current.
  destruct toks as [|tok rest]; [apply run_error; reflexivity |].
  cbn [current_token].
  destruct (tType tok) eqn:E; try (apply run_error; reflexivity);
    repeat run_step; (split; [discriminate | plain_tac]).
Qed.

Lemma parseList_loop_ok (n : nat) :
  forall (fuel : nat) (items : list string) (toks : list Token),
    List.length toks < fuel ->
    run_ok n (parseList_loop fuel items) toks
      (fun res seg _ =>
         seg <> [] /\ plain seg
         /\ exists more, res = (items ++ more)%list /\ more <> []).
Proof.
  induction fuel as [|fuel IH]; intros items toks Hfuel; [lia |].
  cbn [parseList_loop].
  eapply run_bind; [apply parseSimpleValue_ok |].
  intros val s1 rest1 -> (Hne & Hpl). cbv zeta.
  pose proof (length_app_nonempty s1 rest1 Hne) as Hshort.
  apply run_match; [discriminate | intros tok rest -> Htok _ | intros _].
  - apply (run_weaken n _ _ _ _ (IH _ rest ltac:(simpl in Hshort; lia))).
    intros res seg _ (_ & Hseg & more & -> & _).
    split; [destruct s1; [congruence | discriminate] |]. split; [plain_tac |].
    exists (val :: more). rewrite <- app_assoc. split; [reflexivity | discriminate].
  - apply run_ret. rewrite app_nil_r. split; [exact Hne |]. split; [exact Hpl |].
    exists [val]. split; [reflexivity | discriminate].
Qed.

Lemma parseList_ok (n : nat) (toks : list Token) :
  run_ok n (parseList n) toks
    (fun v seg _ =>
       seg <> [] /\ plain seg /\ vType v = ValueList /\ vList v <> []).
Proof.
  unfold parseList.
  apply run_match; [discriminate | intros lp rest -> Hlp _ | intros _];
    cbn [negb]; [| apply run_error; reflexivity].
  apply run_with_length; intros Hlen.
  eapply run_bind; [apply parseList_loop_ok; exact Hlen |].
  intros items s1 rest1 _ (Hne & Hpl & more & -> & Hmore).
  apply run_match; [discriminate | intros rp rest2 -> Hrp _ | intros _];
    cbn [negb]; [| apply run_error; reflexivity].
  apply run_ret. split; [discriminate |]. split; [plain_tac |].
  split; [reflexivity |]. simpl. destruct more; [congruence | discriminate].
Qed.

Lemma Operator_eqb_neq (a b : Operator) : Operator_eqb a b = false <-> a <> b.
Proof.
  unfold Operator_eqb. destruct (Operator_eq_dec a b); split; congruence.
Qed.

Lemma value_permitted_simple (op : Operator) (v : Value) :
  op <> OpIsNull -> op <> OpIsNotNull -> op <> OpDuring -> op <> OpBetween ->
  is_list_operator op = false ->
  vType v = ValueString \/ vType v = ValueNumber ->
  value_permitted op v.
Proof. intros H1 H2 H3 H4 H5 Hv. destruct op; try congruence; try discriminate; exact Hv. Qed.

Lemma value_permitted_list (op : Operator) (v : Value) :
  is_list_operator op = true -> vType v = ValueList -> vList v <> [] ->
  value_permitted op v.
Proof. intros H Ht Hl. destruct op; try discriminate; split; assumption. Qed.

Lemma parseValue_ok (n : nat) (op : Operator) (toks : list Token) :
  op <> OpIsNull -> op <> OpIsNotNull ->
  run_ok n (parseValue n op) toks
    (fun v seg _ =>
       seg <> [] /\ plain seg /\ value_permitted op v
       /\ (op = OpDuring -> exists d, seg = [d] /\ tType d = TokenDateRange)).
Proof.
  intros Hn1 Hn2. unfold parseValue. apply run_current.
  destruct (Operator_eqb op OpDuring) eqn:E1.
  { apply Operator_eqb_eq in E1. subst op.
    apply run_check; intros E; cbn [negb]; [| apply run_error; reflexivity].
    destruct (current_type toks TokenDateRange ltac:(discriminate) E)
      as (tok & rest & -> & Htok).
    apply run_with_inv; intros Hinv.
    apply Forall_inv in Hinv. destruct Hinv as [_ Hdr]. specialize (Hdr Htok).
    cbn [current_token].
    destruct (lookup DateRangeKeywords (tValue tok)) as [dr|]; [| congruence].
    apply run_advance; intros _. apply run_ret.
    split; [discriminate |]. split; [plain_tac |]. split; [reflexivity |].
    intros _. exists tok. split; [reflexivity | exact Htok]. }
  apply Operator_eqb_neq in E1.
  destruct (Operator_eqb op OpBetween) eqn:E2.
  { apply Operator_eqb_eq in E2. subst op.
    eapply run_bind; [apply parseSimpleValue_ok |].
    intros start s1 rest1 _ (Hne1 & Hpl1).
    apply run_match; [discriminate | intros tok rest -> Htok _ | intros _];
      cbn [negb]; [| apply run_error; reflexivity].
    eapply run_bind; [apply parseSimpleValue_ok |].
    intros end_ s2 rest2 _ (Hne2 & Hpl2).
    apply run_ret. rewrite app_nil_r.
    split; [destruct s1; [congruence | discriminate] |].
    split; [plain_tac |]. split; [split; reflexivity | congruence]. }
  apply Operator_eqb_neq in E2.
  destruct (is_list_operator op) eqn:E3.
  { apply (run_weaken n _ _ _ _ (parseList_ok n toks)).
    intros v seg _ (Hne & Hpl & Hty & Hl).
    split; [exact Hne |]. split; [exact Hpl |].
    split; [apply value_permitted_list; assumption | congruence]. }
  destruct toks as [|tok rest]; [apply run_error; reflexivity |].
  cbn [current_token].
  destruct (tType tok) eqn:E; try (apply run_error; reflexivity).
  - apply run_advance; intros _. apply run_ret.
    split; [discriminate |]. split; [plain_tac |].
    split; [apply value_permitted_simple; try assumption; left; reflexivity | congruence].
  - apply run_advance; intros _. apply run_ret.
    split; [discriminate |]. split; [plain_tac |].
    split; [apply value_permitted_simple; try assumption; left; reflexivity | congruence].
  - destruct (ParseFloat (tValue tok)) as [num|]; [| apply run_error; reflexivity].
    apply run_advance; intros _. apply run_ret.
    split; [discriminate |]. split; [plain_tac |].
    split; [apply value_permitted_simple; try assumption; right; reflexivity | congruence].
Qed.

Lemma plain_during_ok (seg : list Token) : plain seg -> during_ok seg.
Proof.
  induction 1 as [|t seg Ht Hseg IH]; simpl; [exact I |].
  split; [| exact IH]. intros E. rewrite E in Ht. discriminate.
Qed.

Lemma seg_ok_plain (seg : list Token) : plain seg -> seg_ok seg.
Proof.
  intros H. split; [| apply plain_during_ok; exact H].
  eapply Forall_impl; [| exact H]. intros t Ht. cbv beta in Ht.
  split; intros E; rewrite E in Ht; discriminate.
Qed.

Lemma during_ok_app (a b : list Token) :
  during_ok a -> during_ok b -> during_ok (a ++ b)%list.
Proof.
  induction a as [|t a IH]; simpl; intros Ha Hb; [exact Hb |].
  destruct Ha as [Ht Ha]. split; [| apply IH; assumption].
  intros E. destruct (Ht E) as (d & rest' & -> & Hd).
  exists d, (rest' ++ b)%list. split; [reflexivity | exact Hd].
Qed.

Lemma seg_ok_app (a b : list Token) : seg_ok a -> seg_ok b -> seg_ok (a ++ b)%list.
Proof.
  intros [Ha1 Ha2] [Hb1 Hb2]. split.
  - apply Forall_app. split; assumption.
  - apply during_ok_app; assumption.
Qed.

Lemma seg_ok_during (t d : Token) :
  tType t = TokenDuring -> tType d = TokenDateRange -> seg_ok [t; d].
Proof.
  intros Ht Hd. split.
  - repeat constructor; rewrite ?Ht, ?Hd; discriminate.
  - simpl. split; [intros _; exists d, []; split; [reflexivity | exact Hd] |].
    split; [rewrite Hd; discriminate | exact I].
Qed.

Lemma app_nonempty_l {A : Type} (a b : list A) : a <> [] -> (a ++ b)%list <> [].
Proof. destruct a; [congruence | discriminate]. Qed.

Lemma parseCondition_ok (n : nat) (toks : list Token) :
  run_ok n (parseCondition n) toks
    (fun c seg _ => seg <> [] /\ seg_ok seg /\ cond_ok c).
Proof.
  unfold parseCondition.
  eapply run_bind; [apply parseField_ok |].
  intros field s1 rest1 _ (Hne1 & Hpl1 & Hf).
  eapply run_bind; [apply parseOperator_ok |].
  intros op s2 rest2 _ (Hne2 & Hop).
  destruct (Operator_eqb op OpIsNull || Operator_eqb op OpIsNotNull) eqn:E.
  - apply run_ret. rewrite app_nil_r.
    split; [apply app_nonempty_l; exact Hne1 |].
    apply orb_true_iff in E. rewrite !Operator_eqb_eq in E.
    split.
    + apply seg_ok_app; [apply seg_ok_plain; exact Hpl1 |].
      destruct Hop as [[-> _] | [_ Hpl2]]; [destruct E; discriminate |].
      apply seg_ok_plain; exact Hpl2.
    + split; [exact Hf |]. destruct E as [-> | ->]; reflexivity.
  - apply orb_false_iff in E. rewrite !Operator_eqb_neq in E. destruct E as [En1 En2].
    eapply run_bind; [apply parseValue_ok; assumption |].
    intros v s3 rest3 _ (Hne3 & Hpl3 & Hperm & Hdur).
    apply run_ret. rewrite app_nil_r.
    split; [apply app_nonempty_l; exact Hne1 |].
    split; [| split; [exact Hf | exact Hperm]].
    apply seg_ok_app; [apply seg_ok_plain; exact Hpl1 |].
    destruct Hop as [[-> (t & -> & Ht)] | [_ Hpl2]].
    + destruct (Hdur eq_refl) as (d & -> & Hd). apply seg_ok_during; assumption.
    + apply seg_ok_app; apply seg_ok_plain; assumption.
Qed.

Lemma parseConditions_loop_ok (n : nat) :
  forall (fuel : nat) (conditions : list Condition) (toks : list Token),
    List.length toks < fuel ->
    run_ok n (parseConditions_loop n fuel conditions) toks
      (fun cs seg _ =>
         seg <> [] /\ seg_ok seg
         /\ exists more, cs = (conditions ++ more)%list /\ Forall cond_ok more).
Proof.
  induction fuel as [|fuel IH]; intros conditions toks Hfuel; [lia |].
  cbn [parseConditions_loop].
  eapply run_bind; [apply parseCondition_ok |].
  intros c s1 rest1 -> (Hne & Hok & Hc). cbv zeta.
  pose proof (length_app_nonempty s1 rest1 Hne) as Hshort.
  apply run_match; [discriminate | intros tok rest -> Htok _ | intros _].
  - apply (run_weaken n _ _ _ _ (IH _ rest ltac:(simpl in Hshort; lia))).
    intros cs seg _ (_ & Hseg & more & -> & Hmore).
    split; [apply app_nonempty_l; exact Hne |]. split.
    + apply seg_ok_app; [exact Hok |].
      apply (seg_ok_app [tok]); [apply seg_ok_plain; plain_tac | exact Hseg].
    + exists (c :: more). rewrite <- app_assoc. split; [reflexivity |].
      constructor; assumption.
  - apply run_ret. rewrite app_nil_r. split; [exact Hne |]. split; [exact Hok |].
    exists [c]. split; [reflexivity | constructor; [exact Hc | constructor]].
Qed.

Lemma parseConditions_ok (n : nat) (toks : list Token) :
  run_ok n (parseConditions n) toks
    (fun cs seg _ => seg_ok seg /\ Forall cond_ok cs).
Proof.
  unfold parseConditions. apply run_with_length; intros Hlen.
  apply (run_weaken n _ _ _ _ (parseConditions_loop_ok n n [] toks Hlen)).
  intros cs seg _ (_ & Hok & more & -> & Hmore). split; assumption.
Qed.

Lemma bind_assoc {A B C : Type} (m : Parser A) (f : A -> Parser B) (g : B -> Parser C)
    (toks : list Token) :
  bind (bind m f) g toks = bind m (fun x => bind (f x) g) toks.
Proof. unfold bind. destruct (m toks) as [[a rest] | e |]; reflexivity. Qed.

Lemma run_assoc {A B C : Type} (n : nat) (m : Parser A) (f : A -> Parser B)
    (g : B -> Parser C) (toks : list Token)
    (R : C -> list Token -> list Token -> Prop) :
  run_ok n (bind m (fun x => bind (f x) g)) toks R ->
  run_ok n (bind (bind m f) g) toks R.
Proof. unfold run_ok. rewrite bind_assoc. trivial. Qed.

Lemma run_bind_ret {A B : Type} (n : nat) (a : A) (k : A -> Parser B)
    (toks : list Token) (R : B -> list Token -> list Token -> Prop) :
  run_ok n (k a) toks R -> run_ok n (bind (ret a) k) toks R.
Proof. intros H. exact H. Qed.

Lemma parseOrderings_loop_ok (n : nat) :
  forall (fuel : nat) (orderings : list Ordering) (toks : list Token),
    List.length toks < fuel ->
    run_ok n (parseOrderings_loop n fuel orderings) toks
      (fun _ seg _ => seg <> [] /\ plain seg).
Proof.
  induction fuel as [|fuel IH]; intros orderings toks Hfuel; [lia |].
  cbn [parseOrderings_loop].
  eapply run_bind; [apply parseField_ok |].
  intros f s1 rest1 -> (Hne & Hpl & _).
  pose proof (length_app_nonempty s1 rest1 Hne) as Hshort.
  assert (Hcomma : forall dir pre toks',
             List.length toks' <= List.length rest1 -> plain pre ->
             run_ok n
               (comma <- p_match TokenComma ;;
                if comma
                then parseOrderings_loop n fuel
                       (orderings ++ [mkOrdering (fName f) dir])%list
                else ret (orderings ++ [mkOrdering (fName f) dir])%list)
               toks'
               (fun _ s _ => (s1 ++ pre ++ s)%list <> [] /\ plain (s1 ++ pre ++ s)%list)).
  { intros dir pre toks' Hle Hpre.
    apply run_match; [discriminate | intros tok rest -> Htok _ | intros _].
    - apply (run_weaken n _ _ _ _ (IH _ rest ltac:(simpl in Hle; lia))).
      intros _ seg _ (_ & Hseg).
      split; [apply app_nonempty_l; exact Hne | plain_tac].
    - apply run_ret. split; [apply app_nonempty_l; exact Hne | plain_tac]. }
  apply run_match; [discriminate | intros tok rest -> Htok _ | intros _].
  - apply run_bind_ret. cbv zeta.
    apply (run_weaken n _ _ _ _ (Hcomma Desc [tok] rest ltac:(simpl; lia) ltac:(plain_tac))).
    intros _ seg _ H. exact H.
  - apply run_assoc.
    apply run_match; [discriminate | intros tok rest -> Htok _ | intros _].
    + apply run_bind_ret. cbv zeta.
      apply (run_weaken n _ _ _ _ (Hcomma Asc [tok] rest ltac:(simpl; lia) ltac:(plain_tac))).
      intros _ seg _ H. exact H.
    + apply run_bind_ret. cbv zeta.
      apply (run_weaken n _ _ _ _ (Hcomma Asc [] rest1 ltac:(lia) ltac:(plain_tac))).
      intros _ seg _ H. exact H.
Qed.

Lemma parseParameters_loop_ok (n : nat) :
  forall (fuel : nat) (params : list (string * string)) (toks : list Token),
    List.length toks < fuel ->
    run_ok n (parseParameters_loop fuel params) toks
      (fun _ seg _ => seg <> [] /\ plain seg).
Proof.
  induction fuel as [|fuel IH]; intros params toks Hfuel; [lia |].
  cbn [parseParameters_loop].
  apply run_check; intros E; cbn [negb]; [| apply run_error; reflexivity].
  destruct (current_type toks TokenIdent ltac:(discriminate) E)
    as (name & rest & -> & Hname).
  apply run_current. apply run_advance; intros _.
  apply run_match; [discriminate | intros eq rest1 -> Heq _ | intros _];
    cbn [negb]; [| apply run_error; reflexivity].
  eapply run_bind; [apply parseSimpleValue_ok |].
  intros val s1 rest2 -> (Hne & Hpl). cbv zeta.
  apply run_match; [discriminate | intros tok rest -> Htok _ | intros _].
  - apply (run_weaken n _ _ _ _
             (IH _ rest ltac:(simpl in Hfuel; rewrite length_app in Hfuel;
                              simpl in Hfuel; lia))).
    intros _ seg _ (_ & Hseg). split; [discriminate | plain_tac].
  - apply run_ret. split; [discriminate | plain_tac].
Qed.

Lemma parseSelectFrom_ok (n : nat) (toks : list Token) :
  run_ok n (parseSelectFrom n) toks
    (fun sf seg _ =>
       fst sf <> [] /\ Forall (fun f => fName f <> "") (fst sf) /\ snd sf <> ""
       /\ plain seg).
Proof.
  unfold parseSelectFrom.
  apply run_match; [discriminate | intros sel rest -> Hsel _ | intros _];
    cbn [negb]; [| apply run_error; reflexivity].
  eapply run_bind; [apply parseFieldList_ok |].
  intros fields s1 rest1 _ (Hne & Hall & Hpl & _).
  apply run_match; [discriminate | intros from rest2 -> Hfrom _ | intros _];
    cbn [negb]; [| apply run_error; reflexivity].
  apply run_check; intros E; cbn [negb]; [| apply run_error; reflexivity].
  destruct (current_type rest2 TokenIdent ltac:(discriminate) E)
    as (tok & rest3 & -> & Htok).
  apply run_current. apply run_advance; intros [Hid _]. apply run_ret.
  cbn [fst snd current_token].
  split; [exact Hne |]. split; [exact Hall |]. split; [apply Hid; exact Htok |].
  plain_tac.
Qed.

Lemma parseWhereClause_ok (n : nat) (toks : list Token) :
  run_ok n (parseWhereClause n) toks
    (fun cs seg _ => seg_ok seg /\ Forall cond_ok cs).
Proof.
  unfold parseWhereClause.
  apply run_match; [discriminate | intros tok rest -> Htok _ | intros _].
  - apply (run_weaken n _ _ _ _ (parseConditions_ok n rest)).
    intros cs seg _ [Hseg Hcs]. split; [| exact Hcs].
    apply (seg_ok_app [tok]); [apply seg_ok_plain; plain_tac | exact Hseg].
  - apply run_ret. split; [apply seg_ok_plain; plain_tac | constructor].
Qed.

Lemma parseOrderByClause_ok (n : nat) (toks : list Token) :
  run_ok n (parseOrderByClause n) toks (fun _ seg _ => plain seg).
Proof.
  unfold parseOrderByClause.
  apply run_match; [discriminate | intros tok rest -> Htok _ | intros _].
  - unfold parseOrderings. apply run_with_length; intros Hlen.
    apply (run_weaken n _ _ _ _ (parseOrderings_loop_ok n n [] rest Hlen)).
    intros _ seg _ [_ Hseg]. plain_tac.
  - apply run_ret. plain_tac.
Qed.

Lemma parseLimitClause_ok (n : nat) (toks : list Token) :
  run_ok n parseLimitClause toks (fun limit seg _ => limit_seg limit seg).
Proof.
  unfold parseLimitClause.
  apply run_match; [discriminate | intros lim rest -> Hlim _ | intros _].
  - apply run_check; intros E; cbn [negb]; [| apply run_error; reflexivity].
    destruct (current_type rest TokenNumber ltac:(discriminate) E)
      as (num & rest1 & -> & Hnum).
    apply run_current. cbn [current_token].
    destruct (Atoi (tValue num)) as [limit|] eqn:Hatoi; [| apply run_error; reflexivity].
    destruct (limit <=? 0)%Z eqn:Hpos; [apply run_error; reflexivity |].
    apply run_advance; intros _. apply run_ret.
    right. exists lim, num. apply Z.leb_gt in Hpos. repeat split; assumption.
  - apply run_ret. left. split; reflexivity.
Qed.

Lemma parseParametersClause_ok (n : nat) (toks : list Token) :
  run_ok n (parseParametersClause n) toks (fun _ seg _ => plain seg).
Proof.
  unfold parseParametersClause.
  apply run_match; [discriminate | intros tok rest -> Htok _ | intros _].
  - unfold parseParameters. apply run_with_length; intros Hlen.
    apply (run_weaken n _ _ _ _ (parseParameters_loop_ok n n [] rest Hlen)).
    intros _ seg _ [_ Hseg]. plain_tac.
  - apply run_ret. plain_tac.
Qed.

Lemma limit_seg_nonneg (limit : Z) (seg : list Token) :
  limit_seg limit seg -> (0 <= limit)%Z.
Proof. intros [[_ ->] | (lim & num & _ & _ & _ & _ & H)]; lia. Qed.

Lemma parseQuery_ok (n : nat) (toks : list Token) :
  run_ok n (parseQuery n) toks
    (fun q seg rest =>
       Select q <> [] /\ Forall (fun f => fName f <> "") (Select q)
       /\ From q <> "" /\ Forall cond_ok (Where q)
       /\ (exists head limseg params,
             seg = (head ++ limseg ++ params)%list
             /\ seg_ok head /\ limit_seg (Limit q) limseg /\ plain params)
       /\ tType (current_token rest) = TokenEOF).
Proof.
  unfold parseQuery.
  eapply run_bind; [apply parseSelectFrom_ok |].
  intros sf s1 rest1 _ (Hsel & Hnames & Hfrom & Hpl1).
  eapply run_bind; [apply parseWhereClause_ok |].
  intros conditions s2 rest2 _ (Hok2 & Hconds).
  eapply run_bind; [apply parseOrderByClause_ok |].
  intros orderings s3 rest3 _ Hpl3.
  eapply run_bind; [apply parseLimitClause_ok |].
  intros limit s4 rest4 _ Hlim.
  eapply run_bind; [apply parseParametersClause_ok |].
  intros params s5 rest5 _ Hpl5.
  apply run_check; intros E; cbn [negb].
  - apply run_ret. cbn [Select From Where Limit]. rewrite app_nil_r.
    repeat split; try assumption.
    exists (s1 ++ s2 ++ s3)%list, s4, s5. rewrite <- !app_assoc.
    split; [reflexivity |]. split; [| split; assumption].
    apply seg_ok_app; [apply seg_ok_plain; exact Hpl1 |].
    apply seg_ok_app; [exact Hok2 | apply seg_ok_plain; exact Hpl3].
  - apply run_current. apply run_error. reflexivity.
Qed.

(** ** Parse *)

Lemma split_at_eof (body seg rest : list Token) (eof : Token) :
  Forall (fun t => tType t <> TokenEOF) body ->
  Forall (fun t => tType t <> TokenEOF) seg ->
  tType eof = TokenEOF ->
  tType (current_token rest) = TokenEOF ->
  (body ++ [eof])%list = (seg ++ rest)%list ->
  seg = body /\ rest = [eof].
Proof.
  intros Hbody Hseg Heof Hrest. revert seg Hseg.
  induction Hbody as [|b body Hb Hbody IH]; intros seg Hseg Heq.
  - destruct seg as [|x seg]; simpl in Heq.
    + split; [reflexivity | symmetry; exact Heq].
    + injection Heq as <- Heq. inversion Hseg; subst. contradiction.
  - destruct seg as [|x seg]; simpl in Heq.
    + subst rest. simpl in Hrest. contradiction.
    + injection Heq as <- Heq. inversion Hseg; subst.
      destruct (IH seg ltac:(assumption) Heq) as [-> ->]. split; reflexivity.
Qed.

Lemma seg_ok_no_eof (seg : list Token) :
  seg_ok seg -> Forall (fun t => tType t <> TokenEOF) seg.
Proof. intros [H _]. eapply Forall_impl; [| exact H]. intros t [Ht _]. exact Ht. Qed.

Lemma plain_no_eof (seg : list Token) :
  plain seg -> Forall (fun t => tType t <> TokenEOF) seg.
Proof. intros H. apply seg_ok_no_eof, seg_ok_plain. exact H. Qed.

Lemma limit_seg_no_eof (limit : Z) (seg : list Token) :
  limit_seg limit seg -> Forall (fun t => tType t <> TokenEOF) seg.
Proof.
  intros [[-> _] | (lim & num & -> & Hl & Hn & _)]; [constructor |].
  repeat constructor; rewrite ?Hl, ?Hn; discriminate.
Qed.

(** What a run of [Parse] amounts to: the lexer and the parser always answer;
    a successful parse has consumed all tokens up to the end-of-input token,
    in the three runs described by [seg_ok], [limit_seg] and [plain]; a
    failure never carries the message of the dead branch. *)
Lemma Parse_spec (s : string) :
  match Parse s with
  | Ok q =>
      exists head limseg params eof,
        Tokenize s = Ok (head ++ limseg ++ params ++ [eof])%list
        /\ seg_ok head /\ limit_seg (Limit q) limseg /\ plain params
        /\ tType eof = TokenEOF
        /\ Select q <> [] /\ Forall (fun f => fName f <> "") (Select q)
        /\ From q <> "" /\ Forall cond_ok (Where q)
  | Err e => err_ok e
  | OutOfFuel => False
  end.
Proof.
  unfold Parse. pose proof (Tokenize_spec s) as Hlex.
  destruct (Tokenize s) as [toks | e |]; [| exact Hlex | exact Hlex].
  destruct Hlex as (body & eof & Htoks & Heof & Hbody & Hinv).
  pose proof (parseQuery_ok (S (List.length toks)) toks (Nat.lt_succ_diag_r _) Hinv) as Hp.
  destruct (parseQuery _ toks) as [[q rest] | e |]; [| exact Hp | exact Hp].
  destruct Hp as (seg & Hseg & Hsel & Hnames & Hfrom & Hconds & Hsegs & Hrest).
  destruct Hsegs as (head & limseg & params & -> & Hhead & Hlim & Hparams).
  assert (Hnoeof : Forall (fun t => tType t <> TokenEOF) (head ++ limseg ++ params)%list).
  { apply Forall_app. split; [apply seg_ok_no_eof; exact Hhead |].
    apply Forall_app. split; [eapply limit_seg_no_eof; exact Hlim |].
    apply plain_no_eof; exact Hparams. }
  rewrite Htoks in Hseg.
  destruct (split_at_eof _ _ _ _ Hbody Hnoeof Heof Hrest Hseg) as [Hb ->].
  exists head, limseg, params, eof. subst toks. rewrite <- Hb, <- !app_assoc.
  split; [reflexivity |]. repeat (split; [assumption |]). assumption.
Qed.

Lemma Parse_ok_inv (s : string) (q : Query) :
  Parse s = Ok q ->
  exists head limseg params eof,
    Tokenize s = Ok (head ++ limseg ++ params ++ [eof])%list
    /\ seg_ok head /\ limit_seg (Limit q) limseg /\ plain params
    /\ tType eof = TokenEOF
    /\ Select q <> [] /\ Forall (fun f => fName f <> "") (Select q)
    /\ From q <> "" /\ Forall cond_ok (Where q).
Proof. intros H. pose proof (Parse_spec s) as Hs. rewrite H in Hs. exact Hs. Qed.

Lemma Parse_total (s : string) : Parse s <> OutOfFuel.
Proof. intros H. pose proof (Parse_spec s) as Hs. rewrite H in Hs. exact Hs. Qed.

Lemma Parse_err_ok (s : string) (e : ParseError) : Parse s = Err e -> err_ok e.
Proof. intros H. pose proof (Parse_spec s) as Hs. rewrite H in Hs. exact Hs. Qed.

(** C2.  A successful parse yields a query with a non-empty SELECT list, a
    non-empty FROM, a LIMIT that is zero (unset) or positive, and in every
    WHERE condition a value of a kind its operator admits. *)
Theorem C2_parse_success_invariants (s : string) (q : Query) (H : Parse s = Ok q) :
  Select q <> [] /\ From q <> "" /\ (0 <= Limit q)%Z
  /\ Forall (fun c => value_permitted (cOperator c) (cValue c)) (Where q).
Proof.
  destruct (Parse_ok_inv s q H)
    as (head & limseg & params & eof & _ & _ & Hlim & _ & _ & Hsel & _ & Hfrom & Hconds).
  split; [exact Hsel |]. split; [exact Hfrom |].
  split; [eapply limit_seg_nonneg; exact Hlim |].
  eapply Forall_impl; [| exact Hconds]. intros c [_ Hc]. exact Hc.
Qed.

Lemma C2_parse_success_invariants_witness :
  let q := mkQuery [mkField "campaign.id"] "campaign"
             [ mkCondition "campaign.status" OpIn (Value_list ["ENABLED"; "PAUSED"]);
               mkCondition "segments.date" OpDuring (Value_dr DateRangeLast7Days) ]
             [] 10 [] in
  Select q <> [] /\ From q <> "" /\ (0 <= Limit q)%Z
  /\ Forall (fun c => value_permitted (cOperator c) (cValue c)) (Where q).
Proof.
  intros q.
  apply (C2_parse_success_invariants
           "SELECT campaign.id FROM campaign WHERE campaign.status IN ('ENABLED', 'PAUSED') AND segments.date DURING LAST_7_DAYS LIMIT 10").
  vm_compute. reflexivity.
Defined.

Lemma HasPrefix_app (p r : string) : HasPrefix (p ++ r) p = true.
Proof. apply HasPrefix_spec. exists r. reflexivity. Qed.

Lemma bind_check {A : Type} (t : TokenType) (k : bool -> Parser A) (toks : list Token) :
  bind (p_check t) k toks = k (TokenType_eqb (tType (current_token toks)) t) toks.
Proof. reflexivity. Qed.

Lemma TokenType_eqb_refl (t : TokenType) : TokenType_eqb t t = true.
Proof. apply TokenType_eqb_eq. reflexivity. Qed.

Lemma TokenType_eqb_neq (a b : TokenType) : TokenType_eqb a b = false <-> a <> b.
Proof.
  unfold TokenType_eqb. destruct (TokenType_eq_dec a b); split; congruence.
Qed.

(** C9.  Every date-range token of the lexer carries a key of
    [DateRangeKeywords]; at such a token the DURING branch of [parseValue]
    finds the key and succeeds; and no error of [Parse] has a message that
    begins with the text of the branch that reports an unknown date range. *)
Theorem C9_unknown_date_range_unreachable :
  (forall s toks t,
      Tokenize s = Ok toks -> In t toks -> tType t = TokenDateRange ->
      lookup DateRangeKeywords (tValue t) <> None)
  /\ (forall s toks pre t post n,
        Tokenize s = Ok toks -> toks = (pre ++ t :: post)%list ->
        tType t = TokenDateRange ->
        exists dr, lookup DateRangeKeywords (tValue t) = Some dr
                   /\ parseValue n OpDuring (t :: post) = Ok (Value_dr dr, post))
  /\ (forall s e,
        Parse s = Err e ->
        HasPrefix (peMessage e) "unknown date range" = false
        /\ forall v, peMessage e <> "unknown date range: " ++ v).
Proof.
  assert (Hlex : forall s toks t,
             Tokenize s = Ok toks -> In t toks -> tType t = TokenDateRange ->
             lookup DateRangeKeywords (tValue t) <> None).
  { intros s toks t Hs Hin Ht. pose proof (Tokenize_spec s) as H. rewrite Hs in H.
    destruct H as (body & eof & _ & _ & _ & Hinv).
    rewrite Forall_forall in Hinv. apply (Hinv t Hin). exact Ht. }
  split; [exact Hlex |]. split.
  - intros s toks pre t post n Hs Htoks Ht.
    assert (Hin : In t toks) by (subst toks; apply in_elt).
    specialize (Hlex s toks t Hs Hin Ht).
    destruct (lookup DateRangeKeywords (tValue t)) as [dr|] eqn:E; [| congruence].
    exists dr. split; [reflexivity |].
    unfold parseValue.
    change (bind p_current ?k (t :: post)) with (k t (t :: post)). cbv beta.
    change (Operator_eqb OpDuring OpDuring) with true. cbv iota.
    rewrite bind_check. cbn [current_token].
    rewrite Ht, TokenType_eqb_refl. cbn [negb]. rewrite E. reflexivity.
  - intros s e He. apply Parse_err_ok in He. split; [exact He |].
    intros v Hv. unfold err_ok in He. rewrite Hv in He.
    change ("unknown date range: " ++ v)
      with ("unknown date range" ++ (": " ++ v)) in He.
    rewrite HasPrefix_app in He. discriminate.
Qed.

Lemma C9_unknown_date_range_unreachable_witness :
  lookup DateRangeKeywords "LAST_7_DAYS" <> None
  /\ HasPrefix "expected date range keyword after DURING" "unknown date range" = false.
Proof.
  destruct C9_unknown_date_range_unreachable as (Hlex & _ & Herr).
  split.
  - apply (Hlex "DURING last_7_days"
             [ mkToken TokenDuring "DURING" 1 1;
               mkToken TokenDateRange "LAST_7_DAYS" 1 8;
               mkToken TokenEOF "" 1 19 ]
             (mkToken TokenDateRange "LAST_7_DAYS" 1 8)).
    + reflexivity.
    + right; left; reflexivity.
    + reflexivity.
  - apply (Herr "SELECT a FROM b WHERE c DURING FOO"
             (mkParseError "expected date range keyword after DURING" 1 32)).
    reflexivity.
Defined.



Lemma bind_current {A : Type} (k : Token -> Parser A) (toks : list Token) :
  bind p_current k toks = k (current_token toks) toks.
Proof. reflexivity. Qed.





Lemma unique_split {A : Type} (P : A -> Prop) (l1 l1' : list A) :
  forall (x x' : A) (l2 l2' : list A),
    (l1 ++ x :: l2)%list = (l1' ++ x' :: l2')%list ->
    P x -> Forall (fun y => ~ P y) l1' -> Forall (fun y => ~ P y) l2' ->
    l1 = l1' /\ x = x' /\ l2 = l2'.
Proof.
  revert l1'; induction l1 as [|a l1 IH]; intros l1' x x' l2 l2' Heq Hx H1 H2.
  - destruct l1' as [|y l1']; simpl in Heq.
    + injection Heq as -> ->. repeat split.
    + injection Heq as -> _. inversion H1; subst. contradiction.
  - destruct l1' as [|y l1']; simpl in Heq.
    + injection Heq as -> Heq. subst l2'.
      apply Forall_app in H2. destruct H2 as [_ H2]. inversion H2; subst. contradiction.
    + injection Heq as -> Heq. inversion H1; subst.
      destruct (IH l1' x x' l2 l2' Heq Hx ltac:(assumption) H2) as (-> & -> & ->).
      repeat split.
Qed.

Lemma seg_ok_no_limit (seg : list Token) :
  seg_ok seg -> Forall (fun t => ~ tType t = TokenLimit) seg.
Proof. intros [H _]. eapply Forall_impl; [| exact H]. intros t [_ Ht]. exact Ht. Qed.

Lemma plain_no_limit (seg : list Token) :
  plain seg -> Forall (fun t => ~ tType t = TokenLimit) seg.
Proof. intros H. apply seg_ok_no_limit, seg_ok_plain. exact H. Qed.

Lemma digits_value_all_digits (s : string) :
  forall acc c, In c (list_ascii_of_string s) -> isDigit c = false ->
                digits_value acc s = None.
Proof.
  induction s as [|a s IH]; intros acc c Hin Hc; simpl in *; [contradiction |].
  destruct Hin as [-> | Hin]; [rewrite Hc; reflexivity |].
  destruct (isDigit a); [apply (IH _ c Hin Hc) | reflexivity].
Qed.

Lemma Atoi_fraction (s : string) :
  In "."%char (list_ascii_of_string s) -> Atoi s = None.
Proof.
  intros Hin. unfold Atoi.
  assert (Hbody : In "."%char (list_ascii_of_string (snd (split_sign s)))).
  { unfold split_sign. destruct s as [|c rest]; [exact Hin |].
    destruct (Ascii.eqb c "-") eqn:E1; [| destruct (Ascii.eqb c "+") eqn:E2];
      simpl; try exact Hin.
    - apply Ascii.eqb_eq in E1. subst c. simpl in Hin.
      destruct Hin as [H | H]; [discriminate | exact H].
    - apply Ascii.eqb_eq in E2. subst c. simpl in Hin.
      destruct Hin as [H | H]; [discriminate | exact H]. }
  destruct (split_sign s) as [neg body]. simpl in Hbody.
  destruct body as [|c body]; [reflexivity |].
  rewrite (digits_value_all_digits _ 0%N "."%char Hbody eq_refl). reflexivity.
Qed.

Lemma bind_ext {A B : Type} (m : Parser A) (f g : A -> Parser B) (toks : list Token) :
  (forall a rest, f a rest = g a rest) -> bind m f toks = bind m g toks.
Proof.
  intros H. unfold bind. destruct (m toks) as [[a rest] | e |]; [apply H | |]; reflexivity.
Qed.

Lemma parseQuery_split (n : nat) (toks : list Token) :
  parseQuery n toks = bind (clausesBeforeLimit n) (clausesFromLimit n) toks.
Proof.
  unfold parseQuery, clausesBeforeLimit.
  rewrite bind_assoc. apply bind_ext; intros sf r1.
  rewrite bind_assoc. apply bind_ext; intros cs r2.
  rewrite bind_assoc. apply bind_ext; intros os r3.
  reflexivity.
Qed.

Lemma parseLimitClause_at (lim num : Token) (rest : list Token) :
  tType lim = TokenLimit -> tType num = TokenNumber ->
  parseLimitClause (lim :: num :: rest)
  = match Atoi (tValue num) with
    | None =>
        Err (mkParseError ("invalid LIMIT value: " ++ tValue num) (tLine num) (tColumn num))
    | Some limit =>
        if (limit <=? 0)%Z
        then Err (mkParseError "LIMIT must be a positive integer" (tLine num) (tColumn num))
        else Ok (limit, rest)
    end.
Proof.
  intros Hlim Hnum. unfold parseLimitClause.
  rewrite bind_match. cbn [current_token tl]. rewrite Hlim, TokenType_eqb_refl.
  rewrite bind_check. cbn [current_token]. rewrite Hnum, TokenType_eqb_refl. cbn [negb].
  rewrite bind_current. cbn [current_token].
  destruct (Atoi (tValue num)) as [limit|]; [| reflexivity].
  destruct (limit <=? 0)%Z; reflexivity.
Qed.

Lemma Parse_at_limit (s : string) (toks : list Token)
    (x : list Field * string * list Condition * list Ordering)
    (lim num : Token) (rest : list Token) (e : ParseError) :
  Tokenize s = Ok toks ->
  clausesBeforeLimit (S (List.length toks)) toks = Ok (x, lim :: num :: rest) ->
  parseLimitClause (lim :: num :: rest) = Err e ->
  Parse s = Err e.
Proof.
  intros Hs Hhead Hlimit. unfold Parse. rewrite Hs, parseQuery_split.
  unfold bind at 1. rewrite Hhead. destruct x as [[sf cs] os].
  unfold clausesFromLimit. unfold bind at 1. rewrite Hlimit. reflexivity.
Qed.

(** [strconv.Atoi] converts the texts that denote an integer of 64 bits. *)
Lemma Atoi_literal (s : string) :
  Atoi s
  = match literal_value s with
    | Some z => if ((- 2 ^ 63 <=? z) && (z <=? 2 ^ 63 - 1))%Z then Some z else None
    | None => None
    end.
Proof.
  unfold Atoi, literal_value. destruct (split_sign s) as [neg body].
  destruct body as [|c body]; [reflexivity |].
  destruct (digits_value 0 (String c body)); reflexivity.
Qed.

(** C5 (amended).  When the tokens of the input hold a LIMIT token, a
    successful parse has found after it a number token that [Atoi] converts to
    a positive integer, which is the LIMIT of the query.  When the parser
    reaches a LIMIT followed by a number token, the message is
    "LIMIT must be a positive integer" if the number converts to zero or to a
    negative integer, that is if it denotes an integer from -2^63 to 0; it is
    "invalid LIMIT value: " with the text of the number if the conversion
    fails, as it does for a number with a decimal point and for an integer
    below -2^63 or above 2^63 - 1.  So LIMIT 0, LIMIT -1 and
    LIMIT -9223372036854775808 give the first message, LIMIT 1.5 and
    LIMIT -9223372036854775809 the second. *)
Theorem C5_limit_clause :
  (forall s toks pre lim post q,
      Tokenize s = Ok toks -> toks = (pre ++ lim :: post)%list ->
      tType lim = TokenLimit -> Parse s = Ok q ->
      exists num post',
        post = num :: post' /\ tType num = TokenNumber
        /\ Atoi (tValue num) = Some (Limit q) /\ (0 < Limit q)%Z)
  /\ (forall s toks x lim num rest limit,
        Tokenize s = Ok toks ->
        clausesBeforeLimit (S (List.length toks)) toks = Ok (x, lim :: num :: rest) ->
        tType lim = TokenLimit -> tType num = TokenNumber ->
        Atoi (tValue num) = Some limit -> (limit <= 0)%Z ->
        Parse s = Err (mkParseError "LIMIT must be a positive integer"
                         (tLine num) (tColumn num)))
  /\ (forall s toks x lim num rest,
        Tokenize s = Ok toks ->
        clausesBeforeLimit (S (List.length toks)) toks = Ok (x, lim :: num :: rest) ->
        tType lim = TokenLimit -> tType num = TokenNumber ->
        In "."%char (list_ascii_of_string (tValue num)) ->
        Parse s = Err (mkParseError ("invalid LIMIT value: " ++ tValue num)
                         (tLine num) (tColumn num)))
  /\ (forall s toks x lim num rest,
        Tokenize s = Ok toks ->
        clausesBeforeLimit (S (List.length toks)) toks = Ok (x, lim :: num :: rest) ->
        tType lim = TokenLimit -> tType num = TokenNumber ->
        Atoi (tValue num) = None ->
        Parse s = Err (mkParseError ("invalid LIMIT value: " ++ tValue num)
                         (tLine num) (tColumn num)))
  /\ (forall s toks x lim num rest v,
        Tokenize s = Ok toks ->
        clausesBeforeLimit (S (List.length toks)) toks = Ok (x, lim :: num :: rest) ->
        tType lim = TokenLimit -> tType num = TokenNumber ->
        literal_value (tValue num) = Some v -> (- 2 ^ 63 <= v <= 0)%Z ->
        Parse s = Err (mkParseError "LIMIT must be a positive integer"
                         (tLine num) (tColumn num)))
  /\ (forall s toks x lim num rest v,
        Tokenize s = Ok toks ->
        clausesBeforeLimit (S (List.length toks)) toks = Ok (x, lim :: num :: rest) ->
        tType lim = TokenLimit -> tType num = TokenNumber ->
        literal_value (tValue num) = Some v -> (v < - 2 ^ 63 \/ 2 ^ 63 - 1 < v)%Z ->
        Parse s = Err (mkParseError ("invalid LIMIT value: " ++ tValue num)
                         (tLine num) (tColumn num)))
  /\ Parse "SELECT campaign.id FROM campaign LIMIT 0"
     = Err (mkParseError "LIMIT must be a positive integer" 1 40)
  /\ Parse "SELECT campaign.id FROM campaign LIMIT -1"
     = Err (mkParseError "LIMIT must be a positive integer" 1 40)
  /\ Parse "SELECT campaign.id FROM campaign LIMIT 1.5"
     = Err (mkParseError "invalid LIMIT value: 1.5" 1 40)
  /\ Parse "SELECT campaign.id FROM campaign LIMIT -9223372036854775808"
     = Err (mkParseError "LIMIT must be a positive integer" 1 40)
  /\ Parse "SELECT campaign.id FROM campaign LIMIT -9223372036854775809"
     = Err (mkParseError "invalid LIMIT value: -9223372036854775809" 1 40).
Proof.
  assert (Hnone : forall s toks x lim num rest,
             Tokenize s = Ok toks ->
             clausesBeforeLimit (S (List.length toks)) toks
             = Ok (x, lim :: num :: rest) ->
             tType lim = TokenLimit -> tType num = TokenNumber ->
             Atoi (tValue num) = None ->
             Parse s = Err (mkParseError ("invalid LIMIT value: " ++ tValue num)
                              (tLine num) (tColumn num))).
  { intros s toks x lim num rest Hs Hhead Hlim Hnum Hatoi.
    apply (Parse_at_limit s toks x lim num rest _ Hs Hhead).
    rewrite (parseLimitClause_at lim num rest Hlim Hnum), Hatoi. reflexivity. }
  assert (Hsome : forall s toks x lim num rest limit,
             Tokenize s = Ok toks ->
             clausesBeforeLimit (S (List.length toks)) toks
             = Ok (x, lim :: num :: rest) ->
             tType lim = TokenLimit -> tType num = TokenNumber ->
             Atoi (tValue num) = Some limit -> (limit <= 0)%Z ->
             Parse s = Err (mkParseError "LIMIT must be a positive integer"
                              (tLine num) (tColumn num))).
  { intros s toks x lim num rest limit Hs Hhead Hlim Hnum Hatoi Hle.
    apply (Parse_at_limit s toks x lim num rest _ Hs Hhead).
    rewrite (parseLimitClause_at lim num rest Hlim Hnum), Hatoi.
    apply Z.leb_le in Hle. rewrite Hle. reflexivity. }
  split; [| split; [exact Hsome | split; [| split; [exact Hnone | split; [| split]]]]].
  - intros s toks pre lim post q Hs Htoks Hlim Hq.
    destruct (Parse_ok_inv s q Hq)
      as (head & limseg & params & eof & Hlex & Hhead & Hseg & Hparams & Heof & _).
    rewrite Hs in Hlex. injection Hlex as Hlex. rewrite Htoks in Hlex.
    assert (Htail : Forall (fun t => ~ tType t = TokenLimit) (params ++ [eof])%list).
    { apply Forall_app. split; [apply plain_no_limit; exact Hparams |].
      constructor; [rewrite Heof; discriminate | constructor]. }
    destruct Hseg as [[-> _] | (l & num & -> & Hl & Hnum & Hatoi & Hpos)].
    + exfalso. simpl in Hlex.
      assert (Hall : Forall (fun t => ~ tType t = TokenLimit) (pre ++ lim :: post)%list).
      { rewrite Hlex. apply Forall_app. split; [apply seg_ok_no_limit; exact Hhead |].
        exact Htail. }
      apply Forall_app in Hall. destruct Hall as [_ Hall].
      inversion Hall; subst. contradiction.
    + simpl in Hlex.
      destruct (unique_split (fun t => tType t = TokenLimit) pre head lim l post
                  (num :: params ++ [eof])%list Hlex Hlim
                  (seg_ok_no_limit _ Hhead)) as (_ & _ & ->).
      { constructor; [rewrite Hnum; discriminate | exact Htail]. }
      exists num, (params ++ [eof])%list. repeat split; assumption.
  - intros s toks x lim num rest Hs Hhead Hlim Hnum Hdot.
    apply (Hnone s toks x lim num rest Hs Hhead Hlim Hnum). apply Atoi_fraction. exact Hdot.
  - intros s toks x lim num rest v Hs Hhead Hlim Hnum Hv [Hlo Hhi].
    apply (Hsome s toks x lim num rest v Hs Hhead Hlim Hnum); [| exact Hhi].
    rewrite Atoi_literal, Hv.
    replace ((- 2 ^ 63 <=? v) && (v <=? 2 ^ 63 - 1))%Z with true; [reflexivity |].
    symmetry. apply andb_true_iff. split; apply Z.leb_le; lia.
  - intros s toks x lim num rest v Hs Hhead Hlim Hnum Hv Hout.
    apply (Hnone s toks x lim num rest Hs Hhead Hlim Hnum).
    rewrite Atoi_literal, Hv.
    replace ((- 2 ^ 63 <=? v) && (v <=? 2 ^ 63 - 1))%Z with false; [reflexivity |].
    symmetry. apply andb_false_iff.
    destruct Hout as [H | H]; [left; apply Z.leb_gt | right; apply Z.leb_gt]; lia.
  - repeat split; vm_compute; reflexivity.
Qed.

(** C5 as stated fails: a negative limit below -2^63 is rejected with the
    message "invalid LIMIT value: ...", not with
    "LIMIT must be a positive integer". *)
Lemma C5_counterexample :
  Tokenize "SELECT campaign.id FROM campaign LIMIT -9223372036854775809"
  = Ok [ mkToken TokenSelect "SELECT" 1 1; mkToken TokenIdent "campaign" 1 8;
         mkToken TokenDot "." 1 16; mkToken TokenIdent "id" 1 17;
         mkToken TokenFrom "FROM" 1 20; mkToken TokenIdent "campaign" 1 25;
         mkToken TokenLimit "LIMIT" 1 34;
         mkToken TokenNumber "-9223372036854775809" 1 40;
         mkToken TokenEOF "" 1 60 ]
  /\ literal_value "-9223372036854775809" = Some (- 9223372036854775809)%Z
  /\ (- 9223372036854775809 < 0)%Z
  /\ Atoi "-9223372036854775809" = None
  /\ Parse "SELECT campaign.id FROM campaign LIMIT -9223372036854775809"
     = Err (mkParseError "invalid LIMIT value: -9223372036854775809" 1 40)
  /\ "invalid LIMIT value: -9223372036854775809" <> "LIMIT must be a positive integer".
Proof.
  repeat split; try (vm_compute; reflexivity). discriminate.
Qed.

Lemma C5_limit_clause_witness :
  (exists num post',
      [mkToken TokenNumber "10" 1 40; mkToken TokenEOF "" 1 42] = num :: post'
      /\ tType num = TokenNumber /\ Atoi (tValue num) = Some 10%Z /\ (0 < 10)%Z)
  /\ Parse "SELECT campaign.id FROM campaign LIMIT -0"
     = Err (mkParseError "LIMIT must be a positive integer" 1 40)
  /\ Parse "SELECT campaign.id FROM campaign LIMIT 9223372036854775808"
     = Err (mkParseError "invalid LIMIT value: 9223372036854775808" 1 40).
Proof.
  destruct C5_limit_clause as (Hok & Hzero & _ & _ & _ & Hout & _).
  split; [| split].
  - apply (Hok "SELECT campaign.id FROM campaign LIMIT 10"
             [ mkToken TokenSelect "SELECT" 1 1; mkToken TokenIdent "campaign" 1 8;
               mkToken TokenDot "." 1 16; mkToken TokenIdent "id" 1 17;
               mkToken TokenFrom "FROM" 1 20; mkToken TokenIdent "campaign" 1 25;
               mkToken TokenLimit "LIMIT" 1 34; mkToken TokenNumber "10" 1 40;
               mkToken TokenEOF "" 1 42 ]
             [ mkToken TokenSelect "SELECT" 1 1; mkToken TokenIdent "campaign" 1 8;
               mkToken TokenDot "." 1 16; mkToken TokenIdent "id" 1 17;
               mkToken TokenFrom "FROM" 1 20; mkToken TokenIdent "campaign" 1 25 ]
             (mkToken TokenLimit "LIMIT" 1 34)
             [ mkToken TokenNumber "10" 1 40; mkToken TokenEOF "" 1 42 ]
             (mkQuery [mkField "campaign.id"] "campaign" [] [] 10 [])).
    + reflexivity.
    + reflexivity.
    + reflexivity.
    + reflexivity.
  - apply (Hzero "SELECT campaign.id FROM campaign LIMIT -0"
             [ mkToken TokenSelect "SELECT" 1 1; mkToken TokenIdent "campaign" 1 8;
               mkToken TokenDot "." 1 16; mkToken TokenIdent "id" 1 17;
               mkToken TokenFrom "FROM" 1 20; mkToken TokenIdent "campaign" 1 25;
               mkToken TokenLimit "LIMIT" 1 34; mkToken TokenNumber "-0" 1 40;
               mkToken TokenEOF "" 1 42 ]
             ([mkField "campaign.id"], "campaign", [], [])
             (mkToken TokenLimit "LIMIT" 1 34) (mkToken TokenNumber "-0" 1 40)
             [ mkToken TokenEOF "" 1 42 ] 0%Z).
    + reflexivity.
    + reflexivity.
    + reflexivity.
    + reflexivity.
    + reflexivity.
    + lia.
  - apply (Hout "SELECT campaign.id FROM campaign LIMIT 9223372036854775808"
             [ mkToken TokenSelect "SELECT" 1 1; mkToken TokenIdent "campaign" 1 8;
               mkToken TokenDot "." 1 16; mkToken TokenIdent "id" 1 17;
               mkToken TokenFrom "FROM" 1 20; mkToken TokenIdent "campaign" 1 25;
               mkToken TokenLimit "LIMIT" 1 34;
               mkToken TokenNumber "9223372036854775808" 1 40;
               mkToken TokenEOF "" 1 59 ]
             ([mkField "campaign.id"], "campaign", [], [])
             (mkToken TokenLimit "LIMIT" 1 34)
             (mkToken TokenNumber "9223372036854775808" 1 40)
             [ mkToken TokenEOF "" 1 59 ] 9223372036854775808%Z).
    + vm_compute. reflexivity.
    + vm_compute. reflexivity.
    + reflexivity.
    + reflexivity.
    + vm_compute. reflexivity.
    + right. lia.
Defined.

(** ** Parsed queries and the validator *)

Lemma first_error_None {A : Type} (check : A -> verror) (xs : list A) :
  Forall (fun x => check x = None) xs -> first_error check xs = None.
Proof.
  induction 1 as [|x xs Hx Hxs IH]; simpl; [reflexivity |]. rewrite Hx. exact IH.
Qed.

Lemma validateFieldName_None (name : string) :
  name <> "" -> validateFieldName name = None.
Proof.
  intros H. unfold validateFieldName. apply String.eqb_neq in H. rewrite H. reflexivity.
Qed.

(** A parsed query passes the rules on SELECT and on LIMIT. *)
Lemma Parse_validates (s : string) (q : Query) :
  Parse s = Ok q -> validateSelect q = None /\ validateLimit q = None.
Proof.
  intros H.
  destruct (Parse_ok_inv s q H)
    as (head & limseg & params & eof & _ & _ & Hlim & _ & _ & Hsel & Hnames & _).
  split.
  - unfold validateSelect. destruct (Select q) as [|f fs] eqn:E; [congruence |].
    apply first_error_None. eapply Forall_impl; [| exact Hnames].
    intros g Hg. apply validateFieldName_None. exact Hg.
  - unfold validateLimit. apply limit_seg_nonneg in Hlim.
    apply Z.ltb_ge in Hlim. rewrite Hlim. reflexivity.
Qed.

(** C3 (amended).  For a query on click_view the single-day rule is settled
    by the first WHERE condition on segments.date whose operator is DURING, =
    or BETWEEN (conditions on segments.date with another operator are passed
    over): the rule passes when that condition is DURING TODAY, DURING
    YESTERDAY, an equality or BETWEEN x AND x; otherwise it fails on
    segments.date, with the message that ends in (TODAY or YESTERDAY) for
    DURING and the plain message for BETWEEN; with no such condition it fails
    with the message tagged FROM.  The default validator accepts the query
    exactly when the rules on SELECT, WHERE and LIMIT pass as well; for a
    parsed query those on SELECT and LIMIT always pass, which leaves the
    rule on WHERE (the date format of BETWEEN). *)
Theorem C3_single_day_rule (q : Query) (Hfrom : From q = "click_view") :
  match find decisive (Where q) with
  | None => validateSingleDayResource q = Some missing_date_error
  | Some c =>
      (single_day c -> validateSingleDayResource q = None)
      /\ (~ single_day c -> validateSingleDayResource q = Some (single_day_error c))
  end
  /\ (Validate NewValidator q = None <->
      validateSelect q = None /\ validateWhere q = None /\ validateLimit q = None
      /\ exists c, find decisive (Where q) = Some c /\ single_day c)
  /\ (forall s, Parse s = Ok q ->
      (Validate NewValidator q = None <->
       validateWhere q = None
       /\ exists c, find decisive (Where q) = Some c /\ single_day c)).
Proof.
  pose proof (validateSingleDayResource_find q Hfrom) as Hrule.
  assert (Hval : Validate NewValidator q = None <->
      validateSelect q = None /\ validateWhere q = None /\ validateLimit q = None
      /\ exists c, find decisive (Where q) = Some c /\ single_day c).
  { unfold Validate. rewrite !or_else_None, (validateFrom_click_view q Hfrom).
    split.
    - intros (Hs & _ & Hw & Hl & Hd & _). repeat split; try assumption.
      rewrite Hrule in Hd. destruct (find decisive (Where q)) as [c|]; [| discriminate].
      exists c. split; [reflexivity |]. apply single_day_dec.
      destruct (_ && _); [reflexivity | discriminate].
    - intros (Hs & Hw & Hl & c & Hc & Hday). repeat split; try assumption.
      + rewrite Hrule, Hc. apply single_day_dec in Hday. rewrite Hday. reflexivity.
      + unfold validateMetricDateContext. simpl.
        destruct (existsb (fun f => HasPrefix (fName f) "metrics.") (Select q));
          [simpl | reflexivity].
        destruct (existsb (fun f => String.eqb (fName f) "segments.date") (Select q));
          [reflexivity | simpl].
        apply find_decisive_In in Hc. destruct Hc as [Hin Hf].
        assert (Hex : existsb (fun cond => String.eqb (cField cond) "segments.date")
                        (Where q) = true).
        { apply existsb_exists. exists c.
          split; [assumption | apply String.eqb_eq; assumption]. }
        rewrite Hex. reflexivity. }
  split; [| split; [exact Hval |]].
  - destruct (find decisive (Where q)) as [c|]; [| exact Hrule].
    split; intros Hc.
    + apply single_day_dec in Hc. rewrite Hc in Hrule. exact Hrule.
    + destruct (_ && _) eqn:E in Hrule; [| exact Hrule].
      apply single_day_dec in E. contradiction.
  - intros s Hs. destruct (Parse_validates s q Hs) as [Hsel Hlim].
    rewrite Hval. tauto.
Qed.

Lemma C3_single_day_rule_witness :
  let q := mkQuery [mkField "click_view.gclid"] "click_view"
             [ mkCondition "segments.date" OpGt (Value_str "2026-02-26");
               mkCondition "segments.date" OpEq (Value_str "2026-02-27") ] [] 0 [] in
  validateSingleDayResource q = None /\ Validate NewValidator q = None.
Proof.
  intros q.
  destruct (C3_single_day_rule q eq_refl) as (Hrule & Hval & _).
  assert (Hday : single_day (mkCondition "segments.date" OpEq (Value_str "2026-02-27"))).
  { split; [reflexivity | right; left; reflexivity]. }
  split.
  - simpl in Hrule. apply (proj1 Hrule). exact Hday.
  - apply Hval. repeat split; try reflexivity.
    eexists. split; [reflexivity | exact Hday].
Defined.

(** C3 as stated fails.  First query: WHERE holds an equality on
    segments.date, yet validation fails, because the DURING LAST_7_DAYS
    condition before it settles the rule.  Second query: its only condition on
    segments.date uses >; it is not rejected with the single-day message on
    segments.date but with the message for a missing condition, tagged
    FROM. *)
Lemma C3_counterexample :
  (exists q,
      Parse "SELECT click_view.gclid FROM click_view WHERE segments.date DURING LAST_7_DAYS AND segments.date = '2026-02-27'"
      = Ok q
      /\ From q = "click_view"
      /\ (exists c, In c (Where q) /\ single_day c)
      /\ Validate NewValidator q
         = Some (mkValidationError
                   "click_view requires single-day date range (TODAY or YESTERDAY)"
                   "segments.date"))
  /\ (exists q,
      Parse "SELECT click_view.gclid FROM click_view WHERE segments.date > '2026-02-27'"
      = Ok q
      /\ From q = "click_view"
      /\ In "segments.date" (map cField (Where q))
      /\ Validate NewValidator q = Some missing_date_error
      /\ veMessage missing_date_error <> "click_view requires single-day date range"
      /\ veField missing_date_error = "FROM").
Proof.
  split.
  - eexists. split; [vm_compute; reflexivity |].
    split; [reflexivity |]. split; [| reflexivity].
    eexists. split; [right; left; reflexivity |].
    split; [reflexivity | right; left; reflexivity].
  - eexists. split; [vm_compute; reflexivity |].
    split; [reflexivity |]. split; [left; reflexivity |].
    split; [reflexivity |]. split; [discriminate | reflexivity].
Qed.


(** ** More on the lexer: the shape of tokens *)

Lemma Tokenize_loop_inv (I : Lexer -> Prop) (Q : Token -> Prop) :
  (forall l, I l -> I (snd (nextToken l)) /\ Q (fst (nextToken l))) ->
  forall fuel l acc toks,
    I l -> Forall Q acc -> Tokenize_loop fuel l acc = Ok toks -> Forall Q toks.
Proof.
  intros Hstep. induction fuel as [|fuel IH]; intros l acc toks Hl Hacc H;
    [discriminate |].
  cbn [Tokenize_loop] in H. destruct (Hstep l Hl) as [Hl' Hq].
  destruct (nextToken l) as [tok l']. cbn [fst snd] in *.
  assert (Hacc' : Forall Q (acc ++ [tok])%list).
  { apply Forall_app. split; [exact Hacc | constructor; [exact Hq | constructor]]. }
  destruct (TokenType_eqb (tType tok) TokenEOF).
  - injection H as <-. exact Hacc'.
  - destruct (TokenType_eqb (tType tok) TokenError); [discriminate |].
    apply (IH l' _ toks Hl' Hacc' H).
Qed.

Lemma Tokenize_inv (I : Lexer -> Prop) (Q : Token -> Prop) (s : string) (toks : list Token) :
  (forall l, I l -> I (snd (nextToken l)) /\ Q (fst (nextToken l))) ->
  I (NewLexer s) -> Tokenize s = Ok toks -> Forall Q toks.
Proof.
  intros Hstep H0 H. unfold Tokenize in H.
  apply (Tokenize_loop_inv I Q Hstep _ _ [] toks H0 (Forall_nil _) H).
Qed.

Lemma advanceWhile_from_chars (p : ascii -> bool) (s : string) :
  forall ln col,
    let '(v, l') := advanceWhile_from p s ln col in
    s = v ++ input l'
    /\ forallb p (list_ascii_of_string v) = true
    /\ match input l' with
       | String c _ => p c = false
       | EmptyString => True
       end.
Proof.
  induction s as [|ch rest IH]; intros ln col; simpl.
  - repeat split.
  - destruct (p ch) eqn:E.
    + match goal with
      | |- context [advanceWhile_from p rest ?a ?b] => specialize (IH a b)
      end.
      destruct (advanceWhile_from p rest _ _) as [v l2].
      destruct IH as (Hs & Hall & Hnext). simpl. rewrite E, Hall.
      split; [f_equal; exact Hs | split; [reflexivity | exact Hnext]].
    + simpl. repeat split. exact E.
Qed.

Lemma advanceWhile_chars (p : ascii -> bool) (l : Lexer) :
  input l = fst (advanceWhile p l) ++ input (snd (advanceWhile p l))
  /\ forallb p (list_ascii_of_string (fst (advanceWhile p l))) = true
  /\ match input (snd (advanceWhile p l)) with
     | String c _ => p c = false
     | EmptyString => True
     end.
Proof.
  unfold advanceWhile.
  pose proof (advanceWhile_from_chars p (input l) (line l) (column l)) as H.
  destruct (advanceWhile_from p (input l) (line l) (column l)) as [v l'].
  exact H.
Qed.

Lemma span_digits_app (ip r : string) :
  forallb isDigit (list_ascii_of_string ip) = true ->
  match r with
  | String c _ => isDigit c = false
  | EmptyString => True
  end ->
  span_digits (ip ++ r) = (ip, r).
Proof.
  intros Hip Hr. induction ip as [|c ip IH]; simpl in *.
  - destruct r as [|c r]; [reflexivity |]. simpl. rewrite Hr. reflexivity.
  - apply andb_true_iff in Hip. destruct Hip as [Hc Hip].
    rewrite Hc, (IH Hip). reflexivity.
Qed.

Lemma string_app_nil_r (s : string) : s ++ "" = s.
Proof. induction s as [|c s IH]; simpl; [reflexivity | rewrite IH; reflexivity]. Qed.

Lemma number_text_parts (sign ip dec : string) :
  (sign = "-" \/ (sign = "" /\ ip <> "")) ->
  forallb isDigit (list_ascii_of_string ip) = true ->
  (dec = "" \/ exists digits,
      dec = "." ++ digits /\ forallb isDigit (list_ascii_of_string digits) = true) ->
  number_text (sign ++ ip ++ dec) = true.
Proof.
  intros Hsign Hip Hdec.
  assert (Hspan : span_digits (ip ++ dec) = (ip, dec)).
  { apply span_digits_app; [exact Hip |].
    destruct Hdec as [-> | (digits & -> & _)]; [exact I | reflexivity]. }
  assert (Htail : match dec with
                  | EmptyString => true
                  | String c r => Ascii.eqb c "." && String.eqb (snd (span_digits r)) ""
                  end = true).
  { destruct Hdec as [-> | (digits & -> & Hd)]; [reflexivity |]. simpl.
    rewrite <- (string_app_nil_r digits) at 1.
    rewrite (span_digits_app digits "" Hd I). reflexivity. }
  unfold number_text. destruct Hsign as [-> | [-> Hne]].
  - simpl. rewrite Hspan. exact Htail.
  - simpl "++". destruct ip as [|c ip]; [congruence |].
    simpl in Hip. apply andb_true_iff in Hip. destruct Hip as [Hc Hip'].
    assert (Hminus : Ascii.eqb c "-" = false).
    { destruct (Ascii.eqb c "-") eqn:E; [| reflexivity].
      apply Ascii.eqb_eq in E. subst c. discriminate. }
    change ((String c ip) ++ dec) with (String c (ip ++ dec)) in *.
    cbv iota. rewrite Hminus, Hspan. exact Htail.
Qed.

Lemma readNumber_text (l : Lexer) (ch : ascii) (rest : string) :
  input l = String ch rest ->
  Ascii.eqb ch "-" || isDigit ch = true ->
  number_text (tValue (fst (readNumber l))) = true.
Proof.
  intros Hin Hch. unfold readNumber. rewrite Hin.
  set (sl := if Ascii.eqb ch "-" then ("-", advance l) else ("", l)).
  assert (Hsl : (fst sl = "-" \/ (fst sl = "" /\ snd sl = l /\ isDigit ch = true))).
  { subst sl. destruct (Ascii.eqb ch "-"); simpl in *; [left; reflexivity |].
    right. repeat split. exact Hch. }
  destruct sl as [sign l1]. simpl in Hsl.
  destruct (advanceWhile_chars isDigit l1) as (Hsplit & Hdigits & Hnext).
  destruct (advanceWhile_spec isDigit l1) as [_ Hne].
  destruct (advanceWhile isDigit l1) as [int_part l2]. simpl in *.
  assert (Hsign : sign = "-" \/ (sign = "" /\ int_part <> "")).
  { destruct Hsl as [-> | (-> & -> & Hd)]; [left; reflexivity |].
    right. split; [reflexivity |]. apply (Hne ch rest Hin Hd). }
  destruct (input l2) as [|c2 r2] eqn:E2.
  - simpl. apply number_text_parts; [exact Hsign | exact Hdigits | left; reflexivity].
  - destruct (Ascii.eqb c2 ".").
    + destruct (advanceWhile_chars isDigit (advance l2)) as (_ & Hd2 & _).
      destruct (advanceWhile isDigit (advance l2)) as [digits l3]. simpl in *.
      apply number_text_parts; [exact Hsign | exact Hdigits |].
      right. exists digits. split; [reflexivity | exact Hd2].
    + simpl. apply number_text_parts; [exact Hsign | exact Hdigits | left; reflexivity].
Qed.

Lemma Keywords_canonical (k : string) (ty : TokenType) :
  lookup Keywords k = Some ty ->
  (ty = TokenIdent /\ ident_text k = true)
  \/ (TokenType_String ty = k
      /\ ty <> TokenIdent /\ ty <> TokenString /\ ty <> TokenNumber
      /\ ty <> TokenDateRange /\ ty <> TokenError /\ ty <> TokenOrderBy
      /\ ty <> TokenEOF).
Proof.
  unfold Keywords. simpl.
  repeat (destruct (String.eqb k _) eqn:E;
          [ apply String.eqb_eq in E; subst k;
            intros H; injection H as <-;
            first [ left; split; reflexivity
                  | right; repeat split; first [reflexivity | discriminate] ]
          | clear E ]).
  discriminate.
Qed.

Lemma readIdentOrKeyword_wf (l : Lexer) (ch : ascii) (rest : string) :
  input l = String ch rest ->
  isLetter ch || Ascii.eqb ch "_" = true ->
  token_wf (fst (readIdentOrKeyword l)).
Proof.
  intros Hin Hch. unfold readIdentOrKeyword.
  destruct (advanceWhile_chars isIdentByte l) as (Hsplit & Hall & _).
  assert (Hid : isIdentByte ch = true).
  { unfold isIdentByte. apply orb_true_iff in Hch. destruct Hch as [-> | ->];
      [reflexivity | rewrite orb_true_r; reflexivity]. }
  destruct (advanceWhile_spec isIdentByte l) as [_ Hne].
  specialize (Hne ch rest Hin Hid).
  destruct (advanceWhile isIdentByte l) as [value l1]. cbn [fst snd] in *.
  assert (Hvalue : ident_text value = true).
  { destruct value as [|c v]; [congruence |].
    rewrite Hin in Hsplit. simpl in Hsplit. injection Hsplit as <- _.
    simpl in Hall. apply andb_true_iff in Hall. destruct Hall as [_ Hall].
    unfold ident_text. rewrite Hch, Hall. reflexivity. }
  unfold token_wf. cbv zeta.
  destruct (String.eqb (ToUpper value) "ORDER").
  - destruct (_ && _); cbn [fst tType tValue]; [reflexivity | exact Hvalue].
  - destruct (lookup DateRangeKeywords (ToUpper value)) as [dr|] eqn:Edr;
      cbn [fst tType tValue]; [rewrite Edr; discriminate |].
    destruct (lookup Keywords (ToUpper value)) as [ty|] eqn:Ekw;
      cbn [fst tType tValue]; [| exact Hvalue].
    destruct (Keywords_canonical _ _ Ekw) as [[-> Hk] | (Hs & H1 & H2 & H3 & H4 & H5 & H6 & H7)];
      [exact Hk |].
    destruct ty; try congruence; try discriminate; symmetry; exact Hs.
Qed.

Lemma skipWhitespace_from_stops (s : string) (ln col : nat) :
  match input (skipWhitespace_from s ln col) with
  | String c _ => isSpace c = false
  | EmptyString => True
  end.
Proof.
  revert ln col; induction s as [|ch rest IH]; intros ln col; simpl; [exact I |].
  destruct (Ascii.eqb ch " " || Ascii.eqb ch tab || Ascii.eqb ch carriage_return) eqn:E1;
    [apply IH |].
  destruct (Ascii.eqb ch newline) eqn:E2; [apply IH |].
  simpl. unfold isSpace. rewrite E1, E2. reflexivity.
Qed.

Ltac wf_simple_token := cbn [fst tType tValue]; reflexivity.

Lemma nextToken_wf (l : Lexer) : token_wf (fst (nextToken l)).
Proof.
  unfold nextToken. set (l1 := skipWhitespace l).
  destruct (input l1) as [|ch rest] eqn:Hin; [reflexivity |].
  unfold token_wf.
  destruct (Ascii.eqb ch ","); [wf_simple_token |].
  destruct (Ascii.eqb ch "("); [wf_simple_token |].
  destruct (Ascii.eqb ch ")"); [wf_simple_token |].
  destruct (Ascii.eqb ch "."); [wf_simple_token |].
  destruct (Ascii.eqb ch "="); [wf_simple_token |].
  destruct (Ascii.eqb ch "!").
  { destruct (Ascii.eqb (peek l1 1) "="); [wf_simple_token | exact I]. }
  destruct (Ascii.eqb ch ">").
  { destruct (Ascii.eqb (peek l1 1) "="); wf_simple_token. }
  destruct (Ascii.eqb ch "<").
  { destruct (Ascii.eqb (peek l1 1) "="); wf_simple_token. }
  destruct (Ascii.eqb ch single_quote || Ascii.eqb ch double_quote).
  { destruct (readString_spec ch l1 ch rest Hin) as [[Ht | [Ht _]] _];
      rewrite Ht; exact I. }
  destruct (Ascii.eqb ch "-" || isDigit ch) eqn:Enum.
  { destruct (readNumber_spec l1 ch rest Hin Enum) as [Ht _].
    rewrite Ht. apply (readNumber_text l1 ch rest Hin Enum). }
  destruct (isLetter ch || Ascii.eqb ch "_") eqn:Eid.
  { apply (readIdentOrKeyword_wf l1 ch rest Hin Eid). }
  exact I.
Qed.

Lemma nextToken_error (l : Lexer) :
  tType (fst (nextToken l)) = TokenError ->
  lexer_message (tValue (fst (nextToken l))).
Proof.
  unfold nextToken.
  pose proof (skipWhitespace_from_stops (input l) (line l) (column l)) as Hstop.
  fold (skipWhitespace l) in Hstop. set (l1 := skipWhitespace l) in *.
  destruct (input l1) as [|ch rest] eqn:Hin; [discriminate |].
  destruct (Ascii.eqb ch ","); [discriminate |].
  destruct (Ascii.eqb ch "("); [discriminate |].
  destruct (Ascii.eqb ch ")"); [discriminate |].
  destruct (Ascii.eqb ch "."); [discriminate |].
  destruct (Ascii.eqb ch "="); [discriminate |].
  destruct (Ascii.eqb ch "!") eqn:Ebang.
  { destruct (Ascii.eqb (peek l1 1) "="); [discriminate |].
    intros _. right. exists "!"%char. repeat split. }
  destruct (Ascii.eqb ch ">").
  { destruct (Ascii.eqb (peek l1 1) "="); discriminate. }
  destruct (Ascii.eqb ch "<").
  { destruct (Ascii.eqb (peek l1 1) "="); discriminate. }
  destruct (Ascii.eqb ch single_quote || Ascii.eqb ch double_quote).
  { destruct (readString_spec ch l1 ch rest Hin) as [[Ht | [Ht Hv]] _].
    - rewrite Ht. discriminate.
    - intros _. left. exact Hv. }
  destruct (Ascii.eqb ch "-" || isDigit ch) eqn:Enum.
  { destruct (readNumber_spec l1 ch rest Hin Enum) as [Ht _]. rewrite Ht. discriminate. }
  destruct (isLetter ch || Ascii.eqb ch "_") eqn:Eid.
  { destruct (readIdentOrKeyword_spec l1 ch rest Hin Eid) as (_ & _ & Ht & _).
    intros H. contradiction. }
  intros _. right. exists ch. cbn [fst tValue].
  apply orb_false_iff in Enum, Eid. destruct Enum as [_ Hd]. destruct Eid as [Hl _].
  repeat split; assumption.
Qed.

Lemma Tokenize_loop_err (M : string -> Prop) :
  (forall l, tType (fst (nextToken l)) = TokenError -> M (tValue (fst (nextToken l)))) ->
  forall fuel l acc e, Tokenize_loop fuel l acc = Err e -> M (peMessage e).
Proof.
  intros Hstep. induction fuel as [|fuel IH]; intros l acc e H; [discriminate |].
  cbn [Tokenize_loop] in H. specialize (Hstep l).
  destruct (nextToken l) as [tok l']. cbn [fst] in Hstep.
  destruct (TokenType_eqb (tType tok) TokenEOF); [discriminate |].
  destruct (TokenType_eqb (tType tok) TokenError) eqn:E.
  - injection H as <-. apply Hstep. apply TokenType_eqb_eq. exact E.
  - apply (IH _ _ _ H).
Qed.

Lemma Tokenize_loop_no_error (fuel : nat) :
  forall l acc toks,
    Tokenize_loop fuel l acc = Ok toks ->
    Forall (fun t => tType t <> TokenError) acc ->
    Forall (fun t => tType t <> TokenError) toks.
Proof.
  induction fuel as [|fuel IH]; intros l acc toks H Hacc; [discriminate |].
  cbn [Tokenize_loop] in H. destruct (nextToken l) as [tok l'].
  destruct (TokenType_eqb (tType tok) TokenEOF) eqn:E1.
  - injection H as <-. apply Forall_app. split; [exact Hacc |].
    apply TokenType_eqb_eq in E1. constructor; [rewrite E1; discriminate | constructor].
  - destruct (TokenType_eqb (tType tok) TokenError) eqn:E2; [discriminate |].
    apply (IH _ _ _ H). apply Forall_app. split; [exact Hacc |].
    apply TokenType_eqb_neq in E2. constructor; [exact E2 | constructor].
Qed.

(** X1.  The lexer answers on every input.  On success the tokens are a
    run without end-of-input and error tokens followed by exactly one
    end-of-input token; on failure the message is "unterminated string" or
    reports one unexpected character that is no letter, digit or space. *)
Theorem X1_tokenize_outcome (s : string) :
  match Tokenize s with
  | Ok toks =>
      exists body eof,
        toks = (body ++ [eof])%list /\ tType eof = TokenEOF
        /\ Forall (fun t => tType t <> TokenEOF /\ tType t <> TokenError) body
  | Err e => lexer_message (peMessage e)
  | OutOfFuel => False
  end.
Proof.
  pose proof (Tokenize_spec s) as H.
  destruct (Tokenize s) as [toks | e |] eqn:E; [| | exact H].
  - destruct H as (body & eof & -> & Heof & Hbody & _).
    exists body, eof. split; [reflexivity |]. split; [exact Heof |].
    pose proof (Tokenize_loop_no_error _ _ _ _ E (Forall_nil _)) as Hne.
    apply Forall_app in Hne. destruct Hne as [Hne _].
    rewrite Forall_forall in *. intros t Ht. split; [apply Hbody | apply Hne]; exact Ht.
  - apply (Tokenize_loop_err lexer_message nextToken_error _ _ _ _ E).
Qed.

(** X2.  Every token of a lexed input is well formed for its kind: keyword,
    operator and punctuation tokens carry their canonical upper-case
    spelling, an identifier is a letter or underscore followed by letters,
    digits and underscores, a date-range token carries a key of the date-range
    table, and a number token is an optional minus, digits and optionally a
    point and digits (not empty, though possibly without any digit). *)
Theorem X2_tokens_well_formed (s : string) (toks : list Token)
    (H : Tokenize s = Ok toks) :
  Forall token_wf toks.
Proof.
  apply (Tokenize_inv (fun _ => True) token_wf s toks); [| exact I | exact H].
  intros l _. split; [exact I | apply nextToken_wf].
Qed.

Lemma X2_tokens_well_formed_witness :
  Forall token_wf
    [ mkToken TokenOrderBy "ORDER BY" 1 1; mkToken TokenIdent "_x1" 1 10;
      mkToken TokenGte ">=" 1 14; mkToken TokenNumber "-.5" 1 17;
      mkToken TokenAnd "AND" 1 21; mkToken TokenEOF "" 1 24 ].
Proof.
  apply (X2_tokens_well_formed "order by _x1 >= -.5 and"). reflexivity.
Defined.

(** ** More on the lexer: positions *)

Ltac pos_tac :=
  unfold moves_to, moves_past, pos_le, pos_lt, lexer_pos, token_pos in *;
  cbn [fst snd line column tLine tColumn] in *; lia.

Lemma moves_to_refl (a : nat * nat) : moves_to a a.
Proof. pos_tac. Qed.

Lemma moves_to_trans (a b c : nat * nat) : moves_to a b -> moves_to b c -> moves_to a c.
Proof. pos_tac. Qed.

Lemma moves_past_to (a b c : nat * nat) : moves_past a b -> moves_to b c -> moves_past a c.
Proof. pos_tac. Qed.

Lemma moves_to_past (a b c : nat * nat) : moves_to a b -> moves_past b c -> moves_past a c.
Proof. pos_tac. Qed.

Lemma moves_past_weaken (a b : nat * nat) : moves_past a b -> moves_to a b.
Proof. pos_tac. Qed.

Lemma advance_moves (l : Lexer) :
  moves_to (lexer_pos l) (lexer_pos (advance l))
  /\ (input l <> "" -> moves_past (lexer_pos l) (lexer_pos (advance l))).
Proof.
  unfold advance. destruct (input l) as [|ch rest].
  - split; [apply moves_to_refl | congruence].
  - destruct (Ascii.eqb ch newline); split; intros; pos_tac.
Qed.

Lemma advance_moves_at (s : string) (ln col : nat) (ch : ascii) (rest : string) :
  s = String ch rest ->
  moves_past (ln, col) (lexer_pos (advance (mkLexer s ln col))).
Proof.
  intros ->. apply (proj2 (advance_moves (mkLexer (String ch rest) ln col))).
  discriminate.
Qed.

Lemma skipWhitespace_from_moves (s : string) :
  forall ln col, moves_to (ln, col) (lexer_pos (skipWhitespace_from s ln col)).
Proof.
  induction s as [|ch rest IH]; intros ln col; simpl; [apply moves_to_refl |].
  destruct (_ || _).
  - apply (moves_to_trans _ (ln, col + 1)); [pos_tac | apply IH].
  - destruct (Ascii.eqb ch newline).
    + apply (moves_to_trans _ (ln + 1, 1)); [pos_tac | apply IH].
    + apply moves_to_refl.
Qed.

Lemma readString_loop_moves (quote : ascii) (sl sc : nat) (k : nat) :
  forall (s : string) (ln col : nat) (sb : string),
    String.length s <= k ->
    moves_to (ln, col) (lexer_pos (snd (readString_loop quote sl sc s ln col sb)))
    /\ token_pos (fst (readString_loop quote sl sc s ln col sb)) = (sl, sc).
Proof.
  induction k as [|k IH]; intros s ln col sb Hlen.
  - destruct s; [| simpl in Hlen; lia]. simpl. split; [apply moves_to_refl | reflexivity].
  - destruct s as [|ch rest]; [simpl; split; [apply moves_to_refl | reflexivity] |].
    simpl in Hlen. cbn [readString_loop].
    pose proof (advance_moves_at (String ch rest) ln col ch rest eq_refl) as Hadv.
    destruct (Ascii.eqb ch quote).
    + split; [apply moves_past_weaken; exact Hadv | reflexivity].
    + destruct rest as [|escaped rest'].
      * match goal with
        | |- context [readString_loop quote sl sc "" ?a ?b ?c] =>
            destruct (IH "" a b c ltac:(simpl; lia)) as [Hm Hp]
        end.
        split; [| exact Hp].
        eapply moves_to_trans; [apply moves_past_weaken; exact Hadv | exact Hm].
      * destruct (Ascii.eqb ch backslash).
        -- match goal with
           | |- context [readString_loop quote sl sc rest' ?a ?b ?c] =>
               destruct (IH rest' a b c ltac:(simpl in Hlen; lia)) as [Hm Hp]
           end.
           split; [| exact Hp].
           eapply moves_to_trans; [apply moves_past_weaken; exact Hadv |].
           eapply moves_to_trans; [| exact Hm].
           apply (proj1 (advance_moves (advance (mkLexer (String ch (String escaped rest')) ln col)))).
        -- match goal with
           | |- context [readString_loop quote sl sc (String escaped rest') ?a ?b ?c] =>
               destruct (IH (String escaped rest') a b c ltac:(simpl in *; lia)) as [Hm Hp]
           end.
           split; [| exact Hp].
           eapply moves_to_trans; [apply moves_past_weaken; exact Hadv | exact Hm].
Qed.

Lemma advanceWhile_from_moves (p : ascii -> bool) (s : string) :
  forall ln col,
    moves_to (ln, col) (lexer_pos (snd (advanceWhile_from p s ln col)))
    /\ (forall ch rest, s = String ch rest -> p ch = true ->
        moves_past (ln, col) (lexer_pos (snd (advanceWhile_from p s ln col)))).
Proof.
  induction s as [|ch rest IH]; intros ln col; simpl.
  - split; [apply moves_to_refl | intros ch rest H; discriminate].
  - pose proof (advance_moves_at (String ch rest) ln col ch rest eq_refl) as Hadv.
    destruct (p ch) eqn:E.
    + match goal with
      | |- context [advanceWhile_from p rest ?a ?b] => destruct (IH a b) as [Hm _]
      end.
      destruct (advanceWhile_from p rest _ _) as [v l2]. cbn [snd] in *.
      assert (Hpast : moves_past (ln, col) (lexer_pos l2))
        by (eapply moves_past_to; [exact Hadv | exact Hm]).
      split; [apply moves_past_weaken; exact Hpast | intros; exact Hpast].
    + split; [apply moves_to_refl |]. intros ch' rest' H Hp. injection H as -> ->. congruence.
Qed.

Lemma advanceWhile_moves (p : ascii -> bool) (l : Lexer) :
  moves_to (lexer_pos l) (lexer_pos (snd (advanceWhile p l)))
  /\ (forall ch rest, input l = String ch rest -> p ch = true ->
      moves_past (lexer_pos l) (lexer_pos (snd (advanceWhile p l)))).
Proof. apply advanceWhile_from_moves. Qed.

Lemma readNumber_moves (l : Lexer) (ch : ascii) (rest : string) :
  input l = String ch rest ->
  Ascii.eqb ch "-" || isDigit ch = true ->
  token_pos (fst (readNumber l)) = lexer_pos l
  /\ moves_past (lexer_pos l) (lexer_pos (snd (readNumber l))).
Proof.
  intros Hin Hch. unfold readNumber. rewrite Hin.
  set (sl := if Ascii.eqb ch "-" then ("-", advance l) else ("", l)).
  assert (Hsl : moves_to (lexer_pos l) (lexer_pos (snd sl))
                /\ (Ascii.eqb ch "-" = true -> moves_past (lexer_pos l) (lexer_pos (snd sl)))
                /\ (Ascii.eqb ch "-" = false -> snd sl = l)).
  { subst sl. destruct (advance_moves l) as [Hto Hpast].
    destruct (Ascii.eqb ch "-"); simpl.
    - split; [exact Hto |]. split; [intros _; apply Hpast; rewrite Hin; discriminate |].
      discriminate.
    - split; [apply moves_to_refl |]. split; [discriminate | reflexivity]. }
  destruct sl as [sign l1]. cbn [snd] in Hsl. destruct Hsl as (Hto & Hminus & Hsame).
  destruct (advanceWhile_moves isDigit l1) as [Hto2 Hpast2].
  destruct (advanceWhile isDigit l1) as [int_part l2]. cbn [snd] in *.
  assert (H2 : moves_past (lexer_pos l) (lexer_pos l2)).
  { destruct (Ascii.eqb ch "-") eqn:E.
    - eapply moves_past_to; [apply Hminus; reflexivity | exact Hto2].
    - simpl in Hch. rewrite (Hsame eq_refl) in *. apply (Hpast2 ch rest Hin Hch). }
  destruct (input l2) as [|c2 r2] eqn:E2.
  - cbn [fst snd]. split; [reflexivity | exact H2].
  - destruct (Ascii.eqb c2 ".").
    + destruct (advanceWhile_moves isDigit (advance l2)) as [Hto3 _].
      destruct (advanceWhile isDigit (advance l2)) as [digits l3]. cbn [fst snd] in *.
      split; [reflexivity |].
      eapply moves_past_to; [exact H2 |].
      eapply moves_to_trans; [apply (proj1 (advance_moves l2)) | exact Hto3].
    + cbn [fst snd]. split; [reflexivity | exact H2].
Qed.

Lemma readIdentOrKeyword_moves (l : Lexer) (ch : ascii) (rest : string) :
  input l = String ch rest ->
  isLetter ch || Ascii.eqb ch "_" = true ->
  token_pos (fst (readIdentOrKeyword l)) = lexer_pos l
  /\ moves_past (lexer_pos l) (lexer_pos (snd (readIdentOrKeyword l))).
Proof.
  intros Hin Hch.
  assert (Hid : isIdentByte ch = true).
  { unfold isIdentByte. apply orb_true_iff in Hch. destruct Hch as [-> | ->];
      [reflexivity | rewrite orb_true_r; reflexivity]. }
  unfold readIdentOrKeyword.
  destruct (advanceWhile_moves isIdentByte l) as [_ Hpast].
  specialize (Hpast ch rest Hin Hid).
  destruct (advanceWhile isIdentByte l) as [value l1]. cbn [snd] in Hpast. cbv zeta.
  destruct (String.eqb (ToUpper value) "ORDER").
  - assert (Hsk : moves_past (lexer_pos l) (lexer_pos (skipWhitespace l1))).
    { eapply moves_past_to; [exact Hpast | apply skipWhitespace_from_moves]. }
    destruct (_ && _); cbn [fst snd]; (split; [reflexivity |]); [| exact Hsk].
    eapply moves_past_to; [exact Hsk |].
    eapply moves_to_trans; [apply (proj1 (advance_moves _)) |].
    apply (proj1 (advance_moves _)).
  - destruct (lookup DateRangeKeywords (ToUpper value)); cbn [fst snd];
      [split; [reflexivity | exact Hpast] |].
    destruct (lookup Keywords (ToUpper value)); cbn [fst snd];
      split; try reflexivity; exact Hpast.
Qed.

Lemma readString_moves (quote : ascii) (l : Lexer) (ch : ascii) (rest : string) :
  input l = String ch rest ->
  token_pos (fst (readString quote l)) = lexer_pos l
  /\ moves_past (lexer_pos l) (lexer_pos (snd (readString quote l))).
Proof.
  intros Hin. unfold readString.
  destruct (readString_loop_moves quote (line l) (column l)
              (String.length (input (advance l))) (input (advance l))
              (line (advance l)) (column (advance l)) "" (le_n _)) as [Hm Hp].
  split; [exact Hp |].
  eapply moves_past_to; [| exact Hm].
  apply (proj2 (advance_moves l)). rewrite Hin. discriminate.
Qed.

Ltac pos_simple_token Hskip Hadv1 :=
  cbn [fst snd];
  split; [exact Hskip |];
  intros _ _;
  first [ exact Hadv1
        | eapply moves_past_to; [exact Hadv1 | apply (proj1 (advance_moves _))] ].

Lemma nextToken_moves (l : Lexer) :
  let tok := fst (nextToken l) in
  let l' := snd (nextToken l) in
  moves_to (lexer_pos l) (token_pos tok)
  /\ (tType tok <> TokenEOF -> tType tok <> TokenError ->
      moves_past (token_pos tok) (lexer_pos l')).
Proof.
  unfold nextToken.
  pose proof (skipWhitespace_from_moves (input l) (line l) (column l)) as Hskip.
  fold (skipWhitespace l) in Hskip. fold (lexer_pos l) in Hskip.
  set (l1 := skipWhitespace l) in *.
  destruct (input l1) as [|ch rest] eqn:Hin.
  - cbn [fst snd]. split; [exact Hskip |].
    intros H. contradiction H. reflexivity.
  - assert (Hadv1 : moves_past (lexer_pos l1) (lexer_pos (advance l1))).
    { apply (proj2 (advance_moves l1)). rewrite Hin. discriminate. }
    destruct (Ascii.eqb ch ","); [pos_simple_token Hskip Hadv1 |].
    destruct (Ascii.eqb ch "("); [pos_simple_token Hskip Hadv1 |].
    destruct (Ascii.eqb ch ")"); [pos_simple_token Hskip Hadv1 |].
    destruct (Ascii.eqb ch "."); [pos_simple_token Hskip Hadv1 |].
    destruct (Ascii.eqb ch "="); [pos_simple_token Hskip Hadv1 |].
    destruct (Ascii.eqb ch "!").
    { destruct (Ascii.eqb (peek l1 1) "="); [pos_simple_token Hskip Hadv1 |].
      cbn [fst snd]. split; [exact Hskip |].
      intros _ H. contradiction H. reflexivity. }
    destruct (Ascii.eqb ch ">").
    { destruct (Ascii.eqb (peek l1 1) "="); pos_simple_token Hskip Hadv1. }
    destruct (Ascii.eqb ch "<").
    { destruct (Ascii.eqb (peek l1 1) "="); pos_simple_token Hskip Hadv1. }
    destruct (Ascii.eqb ch single_quote || Ascii.eqb ch double_quote).
    { destruct (readString_moves ch l1 ch rest Hin) as [Hp Hm].
      rewrite Hp. split; [exact Hskip |]. intros _ _. exact Hm. }
    destruct (Ascii.eqb ch "-" || isDigit ch) eqn:Enum.
    { destruct (readNumber_moves l1 ch rest Hin Enum) as [Hp Hm].
      rewrite Hp. split; [exact Hskip |]. intros _ _. exact Hm. }
    destruct (isLetter ch || Ascii.eqb ch "_") eqn:Eid.
    { destruct (readIdentOrKeyword_moves l1 ch rest Hin Eid) as [Hp Hm].
      rewrite Hp. split; [exact Hskip |]. intros _ _. exact Hm. }
    cbn [fst snd]. split; [exact Hskip |].
    intros _ H. contradiction H. reflexivity.
Qed.

Lemma StronglySorted_snoc {A : Type} (R : A -> A -> Prop) (l : list A) (x : A) :
  StronglySorted R l -> Forall (fun y => R y x) l -> StronglySorted R (l ++ [x])%list.
Proof.
  induction 1 as [|a l Hl IH Ha]; intros Hx; simpl.
  - constructor; constructor.
  - inversion Hx; subst. constructor; [apply IH; assumption |].
    apply Forall_app. split; [exact Ha | constructor; [assumption | constructor]].
Qed.

Lemma Tokenize_loop_sorted (fuel : nat) :
  forall l acc toks,
    Tokenize_loop fuel l acc = Ok toks ->
    StronglySorted token_before acc ->
    Forall (fun t => moves_past (token_pos t) (lexer_pos l)) acc ->
    Forall (fun t => 1 <= tLine t /\ 1 <= tColumn t) acc ->
    1 <= line l -> 1 <= column l ->
    StronglySorted token_before toks
    /\ Forall (fun t => 1 <= tLine t /\ 1 <= tColumn t) toks.
Proof.
  induction fuel as [|fuel IH]; intros l acc toks H Hsorted Hacc Hpos Hln Hcol;
    [discriminate |].
  cbn [Tokenize_loop] in H.
  destruct (nextToken_moves l) as [Hto Hpast].
  destruct (nextToken l) as [tok l']. cbn [fst snd] in *.
  assert (Hbefore : Forall (fun t => token_before t tok) acc).
  { eapply Forall_impl; [| exact Hacc]. intros t Ht. cbv beta in Ht.
    unfold token_before. pose proof (moves_past_to _ _ _ Ht Hto) as [Hlt _]. exact Hlt. }
  assert (Hsorted' : StronglySorted token_before (acc ++ [tok])%list)
    by (apply StronglySorted_snoc; assumption).
  assert (Hpos' : Forall (fun t => 1 <= tLine t /\ 1 <= tColumn t) (acc ++ [tok])%list).
  { apply Forall_app. split; [exact Hpos |]. constructor; [pos_tac | constructor]. }
  destruct (TokenType_eqb (tType tok) TokenEOF) eqn:E1.
  - injection H as <-. split; assumption.
  - destruct (TokenType_eqb (tType tok) TokenError) eqn:E2; [discriminate |].
    apply TokenType_eqb_neq in E1, E2. specialize (Hpast E1 E2).
    apply (IH l' _ toks H Hsorted'); [| exact Hpos' | pos_tac | pos_tac].
    apply Forall_app. split; [| constructor; [exact Hpast | constructor]].
    eapply Forall_impl; [| exact Hacc]. intros t Ht. cbv beta in Ht.
    eapply moves_past_to; [exact Ht |].
    eapply moves_to_trans; [exact Hto | apply moves_past_weaken; exact Hpast].
Qed.

(** X3.  The tokens of a lexed input, the end-of-input token included, stand
    at strictly increasing source positions (line, then column), and every
    line and column is at least 1. *)
Theorem X3_token_positions_increase (s : string) (toks : list Token)
    (H : Tokenize s = Ok toks) :
  StronglySorted token_before toks
  /\ Forall (fun t => 1 <= tLine t /\ 1 <= tColumn t) toks.
Proof.
  unfold Tokenize in H.
  apply (Tokenize_loop_sorted _ _ _ _ H); try constructor; simpl; lia.
Qed.

Lemma X3_token_positions_increase_witness :
  StronglySorted token_before
    [ mkToken TokenIdent "a" 1 1; mkToken TokenEq "=" 1 3;
      mkToken TokenString "x" 2 2; mkToken TokenEOF "" 2 5 ]
  /\ Forall (fun t => 1 <= tLine t /\ 1 <= tColumn t)
       [ mkToken TokenIdent "a" 1 1; mkToken TokenEq "=" 1 3;
         mkToken TokenString "x" 2 2; mkToken TokenEOF "" 2 5 ].
Proof.
  apply (X3_token_positions_increase (String "a" (String " " (String "="
           (String newline (String " " (String "'" (String "x" (String "'" ""))))))))).
  reflexivity.
Defined.

(** ** More on the lexer: blank input and string literals *)

Lemma skipWhitespace_from_blank (s : string) :
  forall ln col,
    input (skipWhitespace_from s ln col) = ""
    <-> forallb isSpace (list_ascii_of_string s) = true.
Proof.
  induction s as [|ch rest IH]; intros ln col; simpl; [tauto |].
  unfold isSpace at 1.
  destruct (Ascii.eqb ch " " || Ascii.eqb ch tab || Ascii.eqb ch carriage_return);
    simpl; [apply IH |].
  destruct (Ascii.eqb ch newline); simpl; [apply IH |].
  split; discriminate.
Qed.

Lemma nextToken_eof (l : Lexer) :
  tType (fst (nextToken l)) = TokenEOF <-> input (skipWhitespace l) = "".
Proof.
  unfold nextToken. set (l1 := skipWhitespace l).
  destruct (input l1) as [|ch rest] eqn:Hin; [split; reflexivity |].
  split; [| discriminate]. intros H. exfalso. revert H.
  destruct (Ascii.eqb ch ","); [discriminate |].
  destruct (Ascii.eqb ch "("); [discriminate |].
  destruct (Ascii.eqb ch ")"); [discriminate |].
  destruct (Ascii.eqb ch "."); [discriminate |].
  destruct (Ascii.eqb ch "="); [discriminate |].
  destruct (Ascii.eqb ch "!").
  { destruct (Ascii.eqb (peek l1 1) "="); discriminate. }
  destruct (Ascii.eqb ch ">").
  { destruct (Ascii.eqb (peek l1 1) "="); discriminate. }
  destruct (Ascii.eqb ch "<").
  { destruct (Ascii.eqb (peek l1 1) "="); discriminate. }
  destruct (Ascii.eqb ch single_quote || Ascii.eqb ch double_quote).
  { destruct (readString_spec ch l1 ch rest Hin) as [[Ht | [Ht _]] _];
      rewrite Ht; discriminate. }
  destruct (Ascii.eqb ch "-" || isDigit ch) eqn:Enum.
  { destruct (readNumber_spec l1 ch rest Hin Enum) as [Ht _]. rewrite Ht. discriminate. }
  destruct (isLetter ch || Ascii.eqb ch "_") eqn:Eid.
  { destruct (readIdentOrKeyword_spec l1 ch rest Hin Eid) as (_ & Ht & _). exact Ht. }
  discriminate.
Qed.

(** X4.  The lexer returns the end-of-input token alone exactly for the
    inputs that consist of spaces, tabs, carriage returns and newlines only
    (the empty input among them). *)
Theorem X4_blank_input (s : string) :
  (exists eof, Tokenize s = Ok [eof])
  <-> forallb isSpace (list_ascii_of_string s) = true.
Proof.
  rewrite <- (skipWhitespace_from_blank s 1 1).
  change (skipWhitespace_from s 1 1) with (skipWhitespace (NewLexer s)).
  rewrite <- nextToken_eof.
  unfold Tokenize. cbn [Tokenize_loop].
  pose proof (nextToken_spec (NewLexer s)) as [_ Hcases]. cbv zeta in Hcases.
  destruct (nextToken (NewLexer s)) as [tok l']. cbn [fst snd] in *.
  unfold TokenType_eqb at 1.
  destruct (TokenType_eq_dec (tType tok) TokenEOF) as [E | E].
  - split; [intros _; exact E | intros _; exists tok; reflexivity].
  - split; [| contradiction]. intros [eof H]. exfalso.
    destruct (TokenType_eqb (tType tok) TokenError) eqn:E2; [discriminate |].
    apply TokenType_eqb_neq in E2.
    destruct Hcases as [Hc | [[Hc _] | (_ & _ & Hlen)]]; [contradiction | contradiction |].
    pose proof (Tokenize_loop_spec (String.length s) l' ([] ++ [tok])%list) as Hs.
    rewrite H in Hs. simpl in Hlen.
    destruct (Hs Hlen) as (body & e & Heq & _).
    simpl in Heq. destruct body; discriminate.
Qed.

Lemma string_app_assoc (a b c : string) : (a ++ b) ++ c = a ++ b ++ c.
Proof. induction a as [|x a IH]; simpl; [reflexivity | rewrite IH; reflexivity]. Qed.

Lemma readString_loop_plain (quote : ascii) (sl sc : nat) (v : string) :
  forall (rest : string) (ln col : nat) (sb : string),
    forallb (fun c => negb (Ascii.eqb c quote) && negb (Ascii.eqb c backslash))
      (list_ascii_of_string v) = true ->
    fst (readString_loop quote sl sc (v ++ String quote rest) ln col sb)
    = mkToken TokenString (sb ++ v) sl sc
    /\ input (snd (readString_loop quote sl sc (v ++ String quote rest) ln col sb)) = rest.
Proof.
  induction v as [|c v IH]; intros rest ln col sb Hv.
  - simpl. rewrite Ascii.eqb_refl. rewrite string_app_nil_r.
    split; [reflexivity |]. unfold advance. simpl.
    destruct (Ascii.eqb quote newline); reflexivity.
  - simpl in Hv. apply andb_true_iff in Hv. destruct Hv as [Hc Hv].
    apply andb_true_iff in Hc. destruct Hc as [Hq Hb].
    apply negb_true_iff in Hq, Hb.
    change (String c v ++ String quote rest) with (String c (v ++ String quote rest)).
    cbn [readString_loop]. rewrite Hq.
    destruct (v ++ String quote rest) as [|x y] eqn:E;
      [destruct v; discriminate |].
    rewrite Hb. rewrite <- E.
    match goal with
    | |- context [readString_loop quote sl sc _ ?a ?b ?d] =>
        destruct (IH rest a b d Hv) as [Ht Hl]
    end.
    rewrite Ht, Hl. split; [| reflexivity].
    rewrite string_app_assoc. reflexivity.
Qed.

(** X5.  A string literal whose content holds neither its quote character nor
    a backslash is read back unchanged: on an input that starts with the
    quote, the content and the closing quote, the lexer emits a string token
    with that content at the position of the opening quote and goes on right
    after the closing quote. *)
Theorem X5_string_literal_content (quote : ascii) (v rest : string) (l : Lexer)
    (Hquote : quote = single_quote \/ quote = double_quote)
    (Hv : forallb (fun c => negb (Ascii.eqb c quote) && negb (Ascii.eqb c backslash))
            (list_ascii_of_string v) = true)
    (Hin : input l = String quote (v ++ String quote rest)) :
  fst (nextToken l) = mkToken TokenString v (line l) (column l)
  /\ input (snd (nextToken l)) = rest.
Proof.
  assert (Hskip : skipWhitespace l = l).
  { unfold skipWhitespace. rewrite Hin. destruct l as [i ln col]. simpl in *.
    subst i. destruct Hquote as [-> | ->]; reflexivity. }
  assert (Hne : Ascii.eqb quote "," = false /\ Ascii.eqb quote "(" = false
                /\ Ascii.eqb quote ")" = false /\ Ascii.eqb quote "." = false
                /\ Ascii.eqb quote "=" = false /\ Ascii.eqb quote "!" = false
                /\ Ascii.eqb quote ">" = false /\ Ascii.eqb quote "<" = false
                /\ Ascii.eqb quote newline = false
                /\ Ascii.eqb quote single_quote || Ascii.eqb quote double_quote = true)
    by (destruct Hquote as [-> | ->]; repeat split).
  destruct Hne as (H1 & H2 & H3 & H4 & H5 & H6 & H7 & H8 & H9 & H10).
  unfold nextToken. rewrite Hskip, Hin, H1, H2, H3, H4, H5, H6, H7, H8, H10.
  unfold readString.
  assert (Hadv : advance l = mkLexer (v ++ String quote rest) (line l) (column l + 1)).
  { unfold advance. rewrite Hin, H9. reflexivity. }
  rewrite Hadv. cbn [input line column].
  apply (readString_loop_plain quote (line l) (column l) v rest _ _ "" Hv).
Qed.

Lemma X5_string_literal_content_witness :
  fst (nextToken (NewLexer "'2026-02-27' AND x"))
  = mkToken TokenString "2026-02-27" 1 1
  /\ input (snd (nextToken (NewLexer "'2026-02-27' AND x"))) = " AND x".
Proof.
  apply (X5_string_literal_content single_quote "2026-02-27" " AND x"
           (NewLexer "'2026-02-27' AND x")).
  - left. reflexivity.
  - reflexivity.
  - reflexivity.
Defined.

(** ** The tokens the parser consumes and the errors it raises *)

Lemma sound_ret {A : Type} (a : A) (toks : list Token) : sound_at (ret a) toks.
Proof. exists []. split; [reflexivity | constructor]. Qed.

Lemma sound_error {A : Type} (msg : string) (toks : list Token) :
  parser_message msg \/ (exists v, msg = "unknown date range: " ++ v) ->
  sound_at (@p_error A msg) toks.
Proof.
  intros H. exists [], toks. split; [reflexivity |]. split; [constructor |].
  split; [reflexivity |]. split; [reflexivity | exact H].
Qed.

Lemma err_at_app (seg rest : list Token) (e : ParseError) :
  Forall consumable seg -> err_at rest e -> err_at (seg ++ rest)%list e.
Proof.
  intros Hseg (s2 & r & -> & Hs2 & Hl & Hc & Hm).
  exists (seg ++ s2)%list, r. split; [apply app_assoc |].
  split; [apply Forall_app; split; assumption |]. repeat split; assumption.
Qed.

Lemma sound_bind {A B : Type} (m : Parser A) (k : A -> Parser B) (toks : list Token) :
  sound_at m toks ->
  (forall a rest, m toks = Ok (a, rest) -> sound_at (k a) rest) ->
  sound_at (bind m k) toks.
Proof.
  unfold sound_at, bind. intros Hm Hk.
  destruct (m toks) as [[a rest1] | e |]; [| exact Hm | exact I].
  destruct Hm as (s1 & -> & Hs1). specialize (Hk a rest1 eq_refl).
  destruct (k a rest1) as [[b rest] | e |]; [| | exact I].
  - destruct Hk as (s2 & -> & Hs2). exists (s1 ++ s2)%list.
    split; [apply app_assoc | apply Forall_app; split; assumption].
  - apply err_at_app; assumption.
Qed.

Lemma sound_current {A : Type} (k : Token -> Parser A) (toks : list Token) :
  sound_at (k (current_token toks)) toks -> sound_at (bind p_current k) toks.
Proof. intros H. exact H. Qed.

Lemma sound_advance {A : Type} (k : unit -> Parser A) (tok : Token) (rest : list Token) :
  consumable tok -> sound_at (k tt) rest -> sound_at (bind p_advance k) (tok :: rest).
Proof.
  intros Htok H. unfold sound_at, bind, p_advance in *. cbn [tl].
  destruct (k tt rest) as [[b r] | e |]; [| | exact I].
  - destruct H as (s & -> & Hs). exists (tok :: s).
    split; [reflexivity | constructor; assumption].
  - apply (err_at_app [tok]); [constructor; [exact Htok | constructor] | exact H].
Qed.

Lemma sound_check {A : Type} (t : TokenType) (k : bool -> Parser A) (toks : list Token) :
  (tType (current_token toks) = t -> sound_at (k true) toks) ->
  (tType (current_token toks) <> t -> sound_at (k false) toks) ->
  sound_at (bind (p_check t) k) toks.
Proof.
  intros Ht Hf. unfold sound_at. rewrite bind_check. unfold TokenType_eqb.
  destruct (TokenType_eq_dec (tType (current_token toks)) t) as [E | E];
    [apply Ht | apply Hf]; exact E.
Qed.

Lemma sound_match {A : Type} (t : TokenType) (k : bool -> Parser A) (toks : list Token) :
  t <> TokenEOF -> t <> TokenError -> t <> TokenOr ->
  (forall tok rest, toks = tok :: rest -> tType tok = t -> sound_at (k true) rest) ->
  (tType (current_token toks) <> t -> sound_at (k false) toks) ->
  sound_at (bind (p_match t) k) toks.
Proof.
  intros H1 H2 H3 Ht Hf. unfold sound_at. rewrite bind_match. unfold TokenType_eqb.
  destruct (TokenType_eq_dec (tType (current_token toks)) t) as [E | E].
  - destruct (current_type toks t H1 E) as (tok & rest & -> & Htok). cbn [tl].
    apply (sound_advance (fun _ => k true) tok rest); [| apply (Ht tok rest eq_refl Htok)].
    unfold consumable. rewrite Htok. repeat split; assumption.
  - apply Hf. exact E.
Qed.

Lemma sound_assoc {A B C : Type} (m : Parser A) (f : A -> Parser B) (g : B -> Parser C)
    (toks : list Token) :
  sound_at (bind m (fun x => bind (f x) g)) toks -> sound_at (bind (bind m f) g) toks.
Proof. unfold sound_at. rewrite bind_assoc. trivial. Qed.

Ltac known_message :=
  first
    [ solve [left; left; cbn [In]; repeat (first [left; reflexivity | right])]
    | left; right; left; eexists; reflexivity
    | left; right; right; left; eexists; reflexivity
    | left; right; right; right; left; eexists; reflexivity
    | left; right; right; right; right; left; eexists; reflexivity
    | left; right; right; right; right; right; eexists; reflexivity
    | right; eexists; reflexivity ].

Ltac consumable_tac :=
  match goal with
  | H : tType ?t = _ |- consumable ?t =>
      unfold consumable; rewrite H; repeat split; discriminate
  end.

Ltac sound_step :=
  first
    [ apply sound_ret
    | apply sound_error; known_message
    | apply sound_current
    | apply sound_advance; [consumable_tac |]
    | apply sound_match; [discriminate | discriminate | discriminate
                         | intros ? ? -> ? | intros ?] ].

Lemma parseField_loop_sound :
  forall (fuel : nat) (parts : list string) (toks : list Token),
    sound_at (parseField_loop fuel parts) toks.
Proof.
  induction fuel as [|fuel IH]; intros parts toks; [exact I |].
  cbn [parseField_loop].
  apply sound_match; [discriminate | discriminate | discriminate
                     | intros tok rest -> Htok | intros _]; [| apply sound_ret].
  apply sound_check; intros E; cbn [negb]; [| apply sound_error; known_message].
  destruct (current_type rest TokenIdent ltac:(discriminate) E)
    as (tok2 & rest2 & -> & Htok2).
  apply sound_current. apply sound_advance; [consumable_tac | apply IH].
Qed.

Lemma parseField_sound (n : nat) (toks : list Token) : sound_at (parseField n) toks.
Proof.
  unfold parseField.
  apply sound_check; intros E; cbn [negb]; [| apply sound_error; known_message].
  destruct (current_type toks TokenIdent ltac:(discriminate) E)
    as (tok & rest & -> & Htok).
  apply sound_current. apply sound_advance; [consumable_tac |].
  apply sound_bind; [apply parseField_loop_sound | intros; apply sound_ret].
Qed.

Lemma parseFieldList_loop_sound (n : nat) :
  forall (fuel : nat) (fields : list Field) (toks : list Token),
    sound_at (parseFieldList_loop n fuel fields) toks.
Proof.
  induction fuel as [|fuel IH]; intros fields toks; [exact I |].
  cbn [parseFieldList_loop].
  apply sound_bind; [apply parseField_sound |]. intros f rest _. cbv zeta.
  apply sound_match; [discriminate | discriminate | discriminate
                     | intros tok rest' -> Htok | intros _];
    [apply IH | apply sound_ret].
Qed.

Lemma parseFieldList_loop_nonempty (n : nat) :
  forall (fuel : nat) (fields : list Field) (toks : list Token) fs rest,
    parseFieldList_loop n fuel fields toks = Ok (fs, rest) -> fs <> [].
Proof.
  induction fuel as [|fuel IH]; intros fields toks fs rest H; [discriminate |].
  cbn [parseFieldList_loop] in H. unfold bind at 1 in H.
  destruct (parseField n toks) as [[f r1] | e |]; [| discriminate | discriminate].
  cbv zeta in H. rewrite bind_match in H.
  destruct (TokenType_eqb (tType (current_token r1)) TokenComma).
  - apply (IH _ _ _ _ H).
  - injection H as <- _. destruct fields; discriminate.
Qed.

Lemma parseFieldList_sound (n : nat) (toks : list Token) :
  sound_at (parseFieldList n) toks.
Proof.
  unfold parseFieldList.
  apply sound_bind; [apply parseFieldList_loop_sound |].
  intros fs rest H. apply parseFieldList_loop_nonempty in H.
  destruct fs; [congruence | apply sound_ret].
Qed.

Lemma parseOperator_sound (toks : list Token) : sound_at parseOperator toks.
Proof.
  unfold parseOperator. apply sound_current.
  destruct toks as [|tok rest]; [apply sound_error; known_message |].
  cbn [current_token].
  destruct (tType tok) eqn:E; try (apply sound_error; known_message);
    repeat sound_step; cbn [negb]; repeat sound_step.
Qed.

Lemma parseSimpleValue_sound (toks : list Token) : sound_at parseSimpleValue toks.
Proof.
  unfold parseSimpleValue. apply sound_current.
  destruct toks as [|tok rest]; [apply sound_error; known_message |].
  cbn [current_token].
  destruct (tType tok) eqn:E; try (apply sound_error; known_message);
    repeat sound_step.
Qed.

Lemma parseList_loop_sound :
  forall (fuel : nat) (items : list string) (toks : list Token),
    sound_at (parseList_loop fuel items) toks.
Proof.
  induction fuel as [|fuel IH]; intros items toks; [exact I |].
  cbn [parseList_loop].
  apply sound_bind; [apply parseSimpleValue_sound |]. intros v rest _. cbv zeta.
  apply sound_match; [discriminate | discriminate | discriminate
                     | intros tok rest' -> Htok | intros _];
    [apply IH | apply sound_ret].
Qed.

Lemma parseList_sound (n : nat) (toks : list Token) : sound_at (parseList n) toks.
Proof.
  unfold parseList.
  apply sound_match; [discriminate | discriminate | discriminate
                     | intros lp rest -> Hlp | intros _];
    cbn [negb]; [| apply sound_error; known_message].
  apply sound_bind; [apply parseList_loop_sound |]. intros items rest1 _.
  apply sound_match; [discriminate | discriminate | discriminate
                     | intros rp rest2 -> Hrp | intros _];
    cbn [negb]; [apply sound_ret | apply sound_error; known_message].
Qed.

Lemma parseValue_sound (n : nat) (op : Operator) (toks : list Token) :
  sound_at (parseValue n op) toks.
Proof.
  unfold parseValue. apply sound_current.
  destruct (Operator_eqb op OpDuring).
  { apply sound_check; intros E; cbn [negb]; [| apply sound_error; known_message].
    destruct (current_type toks TokenDateRange ltac:(discriminate) E)
      as (tok & rest & -> & Htok).
    cbn [current_token].
    destruct (lookup DateRangeKeywords (tValue tok));
      [| apply sound_error; known_message].
    apply sound_advance; [consumable_tac | apply sound_ret]. }
  destruct (Operator_eqb op OpBetween).
  { apply sound_bind; [apply parseSimpleValue_sound |]. intros start rest1 _.
    apply sound_match; [discriminate | discriminate | discriminate
                       | intros tok rest -> Htok | intros _];
      cbn [negb]; [| apply sound_error; known_message].
    apply sound_bind; [apply parseSimpleValue_sound |]. intros; apply sound_ret. }
  destruct (is_list_operator op); [apply parseList_sound |].
  destruct toks as [|tok rest]; [apply sound_error; known_message |].
  cbn [current_token].
  destruct (tType tok) eqn:E; try (apply sound_error; known_message);
    repeat sound_step.
  destruct (ParseFloat (tValue tok)); [| apply sound_error; known_message].
  repeat sound_step.
Qed.

Lemma parseCondition_sound (n : nat) (toks : list Token) :
  sound_at (parseCondition n) toks.
Proof.
  unfold parseCondition.
  apply sound_bind; [apply parseField_sound |]. intros field rest1 _.
  apply sound_bind; [apply parseOperator_sound |]. intros op rest2 _.
  destruct (_ || _); [apply sound_ret |].
  apply sound_bind; [apply parseValue_sound |]. intros; apply sound_ret.
Qed.

Lemma parseConditions_loop_sound (n : nat) :
  forall (fuel : nat) (conditions : list Condition) (toks : list Token),
    sound_at (parseConditions_loop n fuel conditions) toks.
Proof.
  induction fuel as [|fuel IH]; intros conditions toks; [exact I |].
  cbn [parseConditions_loop].
  apply sound_bind; [apply parseCondition_sound |]. intros c rest _. cbv zeta.
  apply sound_match; [discriminate | discriminate | discriminate
                     | intros tok rest' -> Htok | intros _];
    [apply IH | apply sound_ret].
Qed.

Lemma parseOrderings_loop_sound (n : nat) :
  forall (fuel : nat) (orderings : list Ordering) (toks : list Token),
    sound_at (parseOrderings_loop n fuel orderings) toks.
Proof.
  induction fuel as [|fuel IH]; intros orderings toks; [exact I |].
  cbn [parseOrderings_loop].
  apply sound_bind; [apply parseField_sound |]. intros f rest1 _.
  assert (Hcomma : forall dir toks',
             sound_at
               (comma <- p_match TokenComma ;;
                if comma
                then parseOrderings_loop n fuel
                       (orderings ++ [mkOrdering (fName f) dir])%list
                else ret (orderings ++ [mkOrdering (fName f) dir])%list) toks').
  { intros dir toks'.
    apply sound_match; [discriminate | discriminate | discriminate
                       | intros tok rest -> Htok | intros _];
      [apply IH | apply sound_ret]. }
  apply sound_match; [discriminate | discriminate | discriminate
                     | intros tok rest -> Htok | intros _].
  - apply (Hcomma Desc).
  - apply sound_assoc.
    apply sound_match; [discriminate | discriminate | discriminate
                       | intros tok rest -> Htok | intros _];
      apply (Hcomma Asc).
Qed.

Lemma parseParameters_loop_sound :
  forall (fuel : nat) (params : list (string * string)) (toks : list Token),
    sound_at (parseParameters_loop fuel params) toks.
Proof.
  induction fuel as [|fuel IH]; intros params toks; [exact I |].
  cbn [parseParameters_loop].
  apply sound_check; intros E; cbn [negb]; [| apply sound_error; known_message].
  destruct (current_type toks TokenIdent ltac:(discriminate) E)
    as (name & rest & -> & Hname).
  apply sound_current. apply sound_advance; [consumable_tac |].
  apply sound_match; [discriminate | discriminate | discriminate
                     | intros eq rest1 -> Heq | intros _];
    cbn [negb]; [| apply sound_error; known_message].
  apply sound_bind; [apply parseSimpleValue_sound |]. intros val rest2 _. cbv zeta.
  apply sound_match; [discriminate | discriminate | discriminate
                     | intros tok rest' -> Htok | intros _];
    [apply IH | apply sound_ret].
Qed.

Lemma parseQuery_sound (n : nat) (toks : list Token) : sound_at (parseQuery n) toks.
Proof.
  unfold parseQuery.
  apply sound_bind.
  { unfold parseSelectFrom.
    apply sound_match; [discriminate | discriminate | discriminate
                       | intros sel rest -> Hsel | intros _];
      cbn [negb]; [| apply sound_error; known_message].
    apply sound_bind; [apply parseFieldList_sound |]. intros fields rest1 _.
    apply sound_match; [discriminate | discriminate | discriminate
                       | intros from rest2 -> Hfrom | intros _];
      cbn [negb]; [| apply sound_error; known_message].
    apply sound_check; intros E; cbn [negb]; [| apply sound_error; known_message].
    destruct (current_type rest2 TokenIdent ltac:(discriminate) E)
      as (tok & rest3 & -> & Htok).
    apply sound_current. apply sound_advance; [consumable_tac | apply sound_ret]. }
  intros sf rest1 _. apply sound_bind.
  { unfold parseWhereClause.
    apply sound_match; [discriminate | discriminate | discriminate
                       | intros tok rest -> Htok | intros _];
      [apply parseConditions_loop_sound | apply sound_ret]. }
  intros conditions rest2 _. apply sound_bind.
  { unfold parseOrderByClause.
    apply sound_match; [discriminate | discriminate | discriminate
                       | intros tok rest -> Htok | intros _];
      [apply parseOrderings_loop_sound | apply sound_ret]. }
  intros orderings rest3 _. apply sound_bind.
  { unfold parseLimitClause.
    apply sound_match; [discriminate | discriminate | discriminate
                       | intros lim rest -> Hlim | intros _]; [| apply sound_ret].
    apply sound_check; intros E; cbn [negb]; [| apply sound_error; known_message].
    destruct (current_type rest TokenNumber ltac:(discriminate) E)
      as (num & rest4 & -> & Hnum).
    apply sound_current. cbn [current_token].
    destruct (Atoi (tValue num)) as [limit|]; [| apply sound_error; known_message].
    destruct (limit <=? 0)%Z; [apply sound_error; known_message |].
    apply sound_advance; [consumable_tac | apply sound_ret]. }
  intros limit rest4 _. apply sound_bind.
  { unfold parseParametersClause.
    apply sound_match; [discriminate | discriminate | discriminate
                       | intros tok rest -> Htok | intros _];
      [apply parseParameters_loop_sound | apply sound_ret]. }
  intros params rest5 _.
  apply sound_check; intros E; cbn [negb]; [apply sound_ret |].
  apply sound_current. apply sound_error; known_message.
Qed.

Lemma parseQuery_on_tokens (s : string) (toks : list Token) :
  Tokenize s = Ok toks ->
  exists body eof,
    toks = (body ++ [eof])%list /\ tType eof = TokenEOF
    /\ Forall (fun t => tType t <> TokenEOF) body
    /\ Forall tok_inv toks.
Proof.
  intros H. pose proof (Tokenize_spec s) as Hs. rewrite H in Hs. exact Hs.
Qed.

Lemma consumable_no_eof (seg : list Token) :
  Forall consumable seg -> Forall (fun t => tType t <> TokenEOF) seg.
Proof. apply Forall_impl. intros t [H _]. exact H. Qed.

Lemma consumable_before_eof (body seg : list Token) (eof : Token) :
  tType eof = TokenEOF -> Forall consumable seg ->
  (body ++ [eof])%list <> seg.
Proof.
  intros Heof Hseg <-. apply Forall_app in Hseg. destruct Hseg as [_ Hseg].
  inversion Hseg as [|? ? [H _] _]; subst. contradiction.
Qed.

Lemma Tokenize_positive (s : string) (toks : list Token) :
  Tokenize s = Ok toks -> Forall (fun t => 1 <= tLine t /\ 1 <= tColumn t) toks.
Proof.
  unfold Tokenize. intros H.
  apply (Tokenize_loop_sorted _ _ _ _ H); try constructor; simpl; lia.
Qed.

(** X6.  Every failure of [Parse] is either the lexer's, with one of its two
    messages, or the parser's: then the tokens before a token [tok] of the
    input are all consumable ones, the error carries the line and column of
    [tok], and its message is one of the catalogue [parser_message]. *)
Theorem X6_parse_error_catalogue (s : string) (e : ParseError)
    (H : Parse s = Err e) :
  (Tokenize s = Err e /\ lexer_message (peMessage e))
  \/ (exists seg tok rest,
        Tokenize s = Ok (seg ++ tok :: rest)%list
        /\ Forall consumable seg
        /\ peLine e = tLine tok /\ peColumn e = tColumn tok
        /\ 1 <= peLine e /\ 1 <= peColumn e
        /\ parser_message (peMessage e)).
Proof.
  pose proof (Parse_err_ok s e H) as Hok. unfold Parse in H.
  destruct (Tokenize s) as [toks | e' |] eqn:E; [| | discriminate].
  - right.
    destruct (parseQuery_on_tokens s toks E) as (body & eof & Htoks & Heof & _ & _).
    pose proof (parseQuery_sound (S (List.length toks)) toks) as Hs.
    unfold sound_at in Hs.
    destruct (parseQuery _ toks) as [[q r] | e1 |]; [discriminate | | discriminate].
    injection H as ->.
    destruct Hs as (seg & r & Hsplit & Hseg & Hl & Hc & Hm).
    destruct r as [|tok rest].
    { exfalso. rewrite app_nil_r in Hsplit. rewrite Hsplit in Htoks.
      exact (consumable_before_eof body seg eof Heof Hseg (eq_sym Htoks)). }
    cbn [current_token] in Hl, Hc. exists seg, tok, rest.
    split; [rewrite Hsplit; reflexivity |]. split; [exact Hseg |].
    split; [exact Hl |]. split; [exact Hc |].
    assert (Hpos : Forall (fun t => 1 <= tLine t /\ 1 <= tColumn t) toks).
    { apply (Tokenize_positive s toks E). }
    rewrite Hsplit in Hpos. apply Forall_app in Hpos. destruct Hpos as [_ Hpos].
    inversion Hpos as [|? ? [Hp1 Hp2] _]; subst.
    rewrite Hl, Hc. split; [exact Hp1 |]. split; [exact Hp2 |].
    destruct Hm as [Hm | (v & Hv)]; [exact Hm |].
    exfalso. unfold err_ok in Hok. rewrite Hv in Hok.
    change ("unknown date range: " ++ v) with ("unknown date range" ++ (": " ++ v)) in Hok.
    rewrite HasPrefix_app in Hok. discriminate.
  - injection H as ->. left. split; [reflexivity |].
    apply (Tokenize_loop_err lexer_message nextToken_error _ _ _ _ E).
Qed.

Lemma X6_parse_error_catalogue_witness :
  exists e,
    Parse "SELECT a FROM b WHERE c = 1 OR d = 2" = Err e
    /\ peMessage e = "unexpected token: OR" /\ peLine e = 1 /\ peColumn e = 29
    /\ ((Tokenize "SELECT a FROM b WHERE c = 1 OR d = 2" = Err e
         /\ lexer_message (peMessage e))
        \/ (exists seg tok rest,
              Tokenize "SELECT a FROM b WHERE c = 1 OR d = 2"
              = Ok (seg ++ tok :: rest)%list
              /\ Forall consumable seg
              /\ peLine e = tLine tok /\ peColumn e = tColumn tok
              /\ 1 <= peLine e /\ 1 <= peColumn e
              /\ parser_message (peMessage e))).
Proof.
  eexists. split; [vm_compute; reflexivity |].
  split; [reflexivity |]. split; [reflexivity |]. split; [reflexivity |].
  apply (X6_parse_error_catalogue "SELECT a FROM b WHERE c = 1 OR d = 2").
  vm_compute. reflexivity.
Defined.

(** X7.  No rule of the grammar consumes the reserved word OR: the tokens of
    an input that parses hold no OR token (and no error token). *)
Theorem X7_or_never_parses (s : string) (q : Query) (toks : list Token)
    (Hparse : Parse s = Ok q) (Hlex : Tokenize s = Ok toks) :
  Forall (fun t => tType t <> TokenOr /\ tType t <> TokenError) toks.
Proof.
  unfold Parse in Hparse. rewrite Hlex in Hparse.
  destruct (parseQuery_on_tokens s toks Hlex) as (body & eof & Htoks & Heof & Hbody & Hinv).
  pose proof (parseQuery_sound (S (List.length toks)) toks) as Hs.
  pose proof (parseQuery_ok (S (List.length toks)) toks (Nat.lt_succ_diag_r _) Hinv) as Hp.
  unfold sound_at in Hs.
  destruct (parseQuery _ toks) as [[q' r] | e1 |]; [| discriminate | discriminate].
  destruct Hs as (seg & Hsplit & Hseg).
  destruct Hp as (seg' & Hsplit' & _ & _ & _ & _ & _ & Hrest).
  rewrite Htoks in Hsplit.
  destruct (split_at_eof _ _ _ _ Hbody (consumable_no_eof seg Hseg) Heof Hrest Hsplit)
    as [-> ->].
  rewrite Htoks. apply Forall_app. split.
  - eapply Forall_impl; [| exact Hseg]. intros t (_ & H1 & H2). split; assumption.
  - constructor; [| constructor]. rewrite Heof. split; discriminate.
Qed.

Lemma X7_or_never_parses_witness :
  exists q toks,
    Parse "SELECT a FROM b WHERE c IN (1, 2) AND d = 'OR'" = Ok q
    /\ Tokenize "SELECT a FROM b WHERE c IN (1, 2) AND d = 'OR'" = Ok toks
    /\ Forall (fun t => tType t <> TokenOr /\ tType t <> TokenError) toks.
Proof.
  eexists. eexists.
  split; [vm_compute; reflexivity |]. split; [vm_compute; reflexivity |].
  eapply (X7_or_never_parses "SELECT a FROM b WHERE c IN (1, 2) AND d = 'OR'");
    vm_compute; reflexivity.
Defined.

(** ** The printer's operators and date ranges, read back *)

(** X8.  The text [Operator_String] prints for an operator is lexed and parsed
    back by [parseOperator] as the same operator, with nothing left but the
    end-of-input token. *)
Theorem X8_operator_round_trip (op : Operator) :
  exists body eof,
    Tokenize (Operator_String op) = Ok (body ++ [eof])%list
    /\ tType eof = TokenEOF
    /\ parseOperator (body ++ [eof])%list = Ok (op, [eof]).
Proof.
  destruct op;
    match goal with
    | |- exists body eof, Tokenize ?s = _ /\ _ =>
        let r := eval vm_compute in (Tokenize s) in
        match r with
        | Ok ?l => exists (removelast l), (last l (mkToken TokenEOF "" 0 0))
        end
    end; vm_compute; repeat split.
Qed.

(** X9.  The twelve date ranges of [DateRangeKeywords] are printed as their
    keyword, which is lexed as a date-range token and read back after DURING
    as the same range.  [DateRangeCustom] is printed as CUSTOM, which is an
    identifier for the lexer and is refused after DURING. *)
Theorem X9_date_range_round_trip (d : DateRange) (n : nat) :
  exists tok eof,
    Tokenize (Value_String (Value_dr d)) = Ok [tok; eof]
    /\ tValue tok = DateRange_String d
    /\ match d with
       | DateRangeCustom =>
           tType tok = TokenIdent
           /\ parseValue n OpDuring [tok; eof]
              = Err (mkParseError "expected date range keyword after DURING" 1 1)
       | _ =>
           tType tok = TokenDateRange
           /\ lookup DateRangeKeywords (tValue tok) = Some d
           /\ parseValue n OpDuring [tok; eof] = Ok (Value_dr d, [eof])
       end.
Proof.
  destruct d;
    match goal with
    | |- exists tok eof, Tokenize ?s = _ /\ _ =>
        let r := eval vm_compute in (Tokenize s) in
        match r with
        | Ok [?t; ?e] => exists t, e
        end
    end; repeat split.
Qed.

(** ** The validator on parsed queries *)

Lemma first_error_Some {A : Type} (check : A -> verror) (xs : list A)
    (e : ValidationError) :
  first_error check xs = Some e -> exists x, In x xs /\ check x = Some e.
Proof.
  induction xs as [|x xs IH]; cbn [first_error]; [discriminate |].
  destruct (check x) as [e' |] eqn:E.
  - intros H. exists x. split; [left; reflexivity | congruence].
  - intros H. destruct (IH H) as (y & Hy & Hc). exists y. split; [right |]; assumption.
Qed.

Lemma validateCondition_message (c : Condition) (e : ValidationError) :
  cond_ok c -> validateCondition c = Some e ->
  veField e = cField c
  /\ exists d, veMessage e = "invalid date format (expected YYYY-MM-DD): " ++ d
               /\ datePattern_MatchString d = false /\ isDateRangeKeyword d = false.
Proof.
  intros [Hname Hval] H. unfold validateCondition in H.
  rewrite (validateFieldName_None _ Hname) in H. cbn [or_else] in H.
  destruct (Operator_eqb (cOperator c) OpDuring) eqn:E1.
  { apply Operator_eqb_eq in E1. rewrite E1 in Hval, H. cbn [value_permitted] in Hval.
    rewrite Hval in H.
    change (ValueType_eqb ValueDateRange ValueDateRange) with true in H.
    change (Operator_eqb OpDuring OpBetween) with false in H.
    cbn [negb or_else] in H. discriminate. }
  cbn [or_else] in H.
  destruct (Operator_eqb (cOperator c) OpBetween) eqn:E2; [| discriminate].
  apply Operator_eqb_eq in E2. rewrite E2 in Hval. cbn [value_permitted] in Hval.
  destruct Hval as [Ht Hl]. rewrite Ht, Hl in H.
  change (ValueType_eqb ValueList ValueList) with true in H.
  change (2 =? 2)%nat with true in H. cbn [negb orb] in H.
  destruct (first_error_Some _ _ _ H) as (d & _ & Hd). cbv beta in Hd.
  destruct (datePattern_MatchString d) eqn:D1; cbn [negb andb] in Hd; [discriminate |].
  destruct (isDateRangeKeyword d) eqn:D2; cbn [negb] in Hd; [discriminate |].
  injection Hd as <-. split; [reflexivity |]. exists d. repeat split; assumption.
Qed.

Lemma singleDay_loop_message (conds : list Condition) (e : ValidationError) :
  singleDay_loop conds = Some (Some e) ->
  veMessage e = "click_view requires single-day date range (TODAY or YESTERDAY)"
  \/ veMessage e = "click_view requires single-day date range".
Proof.
  induction conds as [|c conds IH]; cbn [singleDay_loop]; [discriminate |].
  destruct (String.eqb (cField c) "segments.date"); [| exact IH].
  destruct (Operator_eqb (cOperator c) OpDuring).
  { cbv zeta. destruct (_ || _); [discriminate |].
    intros H. injection H as <-. left. reflexivity. }
  destruct (Operator_eqb (cOperator c) OpEq); [discriminate |].
  destruct (Operator_eqb (cOperator c) OpBetween); [| exact IH].
  destruct (list_is_same_pair _); [discriminate |].
  intros H. injection H as <-. right. reflexivity.
Qed.

(** X10.  Of the validator's messages, [ValidateQuery] can report only the
    date format of a BETWEEN bound, the three click_view messages and the
    metrics message: the parser has already ruled out what the other checks
    look for, and unknown resources are allowed by default. *)
Theorem X10_validate_query_messages (s : string) (e : ValidationError)
    (H : ValidateQuery s = Err (EValidation e)) :
  validation_message (veMessage e).
Proof.
  unfold ValidateQuery in H.
  destruct (Parse s) as [q | e' |] eqn:Hparse; [| discriminate | discriminate].
  destruct (Validate NewValidator q) as [e' |] eqn:Hv; [| discriminate].
  injection H as ->.
  destruct (Parse_validates s q Hparse) as [Hsel Hlim].
  destruct (Parse_ok_inv s q Hparse)
    as (_ & _ & _ & _ & _ & _ & _ & _ & _ & _ & _ & Hfrom & Hconds).
  unfold Validate in Hv. rewrite Hsel, Hlim in Hv. cbn [or_else] in Hv.
  assert (Hf : validateFrom NewValidator q = None).
  { unfold validateFrom. apply String.eqb_neq in Hfrom. rewrite Hfrom. reflexivity. }
  rewrite Hf in Hv. cbn [or_else] in Hv.
  destruct (validateWhere q) as [ew |] eqn:Hw; cbn [or_else] in Hv.
  { injection Hv as ->. unfold validateWhere in Hw.
    destruct (first_error_Some _ _ _ Hw) as (c & Hc & Hce).
    rewrite Forall_forall in Hconds.
    destruct (validateCondition_message c e (Hconds c Hc) Hce) as [_ Hd].
    left. exact Hd. }
  right. destruct (validateSingleDayResource q) as [es |] eqn:Hs; cbn [or_else] in Hv.
  { injection Hv as ->. unfold validateSingleDayResource in Hs.
    destruct (negb _); [discriminate |].
    destruct (singleDay_loop (Where q)) as [[e1 |] |] eqn:Hl; try discriminate.
    - injection Hs as ->.
      destruct (singleDay_loop_message _ _ Hl) as [-> | ->]; cbn [In]; tauto.
    - injection Hs as <-. cbn [veMessage In]. tauto. }
  unfold validateMetricDateContext in Hv. cbv zeta in Hv.
  destruct (negb (RequireMetricDateContext NewValidator)); [discriminate |].
  destruct (negb (existsb _ (Select q))); [discriminate |].
  destruct (negb _); [| discriminate].
  injection Hv as <-. cbn [veMessage In]. tauto.
Qed.

Lemma X10_validate_query_messages_witness :
  exists e,
    ValidateQuery "SELECT a FROM click_view WHERE segments.date BETWEEN x AND y"
    = Err (EValidation e)
    /\ veMessage e = "invalid date format (expected YYYY-MM-DD): x"
    /\ validation_message (veMessage e).
Proof.
  eexists. split; [vm_compute; reflexivity |]. split; [reflexivity |].
  apply (X10_validate_query_messages
           "SELECT a FROM click_view WHERE segments.date BETWEEN x AND y").
  vm_compute. reflexivity.
Defined.

(** X11.  The two switches of the validator only relax it: a query accepted
    by a validator is accepted by every validator that allows unknown
    resources whenever the first does and requires the metrics date context
    only if the first does. *)
Theorem X11_validator_switches_relax (v v' : Validator) (q : Query)
    (Hrelax : relaxes v v') (H : Validate v q = None) :
  Validate v' q = None.
Proof.
  destruct Hrelax as [Hres Hctx]. unfold Validate in *.
  apply or_else_None in H. destruct H as [H1 H].
  apply or_else_None in H. destruct H as [H2 H].
  apply or_else_None in H. destruct H as [H3 H].
  apply or_else_None in H. destruct H as [H4 H].
  apply or_else_None in H. destruct H as [H5 H6].
  rewrite H1, H3, H4, H5. cbn [or_else].
  assert (H2' : validateFrom v' q = None).
  { unfold validateFrom in *. destruct (String.eqb (From q) ""); [discriminate |].
    destruct (AllowUnknownResources v') eqn:E'; [reflexivity |]. cbn [negb].
    destruct (AllowUnknownResources v) eqn:E; [specialize (Hres eq_refl); discriminate |].
    exact H2. }
  rewrite H2'. cbn [or_else].
  unfold validateMetricDateContext in *.
  destruct (RequireMetricDateContext v') eqn:E'; [| reflexivity].
  rewrite (Hctx eq_refl) in H6. exact H6.
Qed.

Lemma X11_validator_switches_relax_witness :
  Validate (mkValidator true false)
    (mkQuery [mkField "campaign.id"; mkField "segments.date"; mkField "metrics.clicks"]
       "campaign" [] [] 0 []) = None.
Proof.
  apply (X11_validator_switches_relax (mkValidator false true) (mkValidator true false)).
  - split; [reflexivity | discriminate].
  - vm_compute. reflexivity.
Defined.

(** ** A printed query read back *)

Lemma lex1_space (s s' : string) (ty : TokenType) (v : string) :
  lex1 s ty v s' -> lex1 (String " " s) ty v s'.
Proof.
  intros H ln col. destruct (H ln (col + 1)) as (tl & tc & ln' & col' & E).
  exists tl, tc, ln', col'. rewrite <- E. reflexivity.
Qed.

Lemma lexn_space (s s' : string) (tvs : list (TokenType * string)) :
  tvs <> [] -> lexn s tvs s' -> lexn (String " " s) tvs s'.
Proof.
  intros Hne H. destruct H as [| s s1 s2 ty v tvs H1 H2 H3 H4]; [congruence |].
  eapply lexn_cons; eauto. apply lex1_space. exact H1.
Qed.

Lemma lexn_app (s s1 s2 : string) (a b : list (TokenType * string)) :
  lexn s a s1 -> lexn s1 b s2 -> lexn s (a ++ b)%list s2.
Proof.
  induction 1 as [| s s1' s2' ty v tvs H1 H2 H3 H4 IH]; intros Hb; [exact Hb |].
  cbn [app]. eapply lexn_cons; eauto.
Qed.

Lemma lexn_one (s s' : string) (ty : TokenType) (v : string) :
  lex1 s ty v s' -> ty <> TokenEOF -> ty <> TokenError -> lexn s [(ty, v)] s'.
Proof. intros H H1 H2. eapply lexn_cons; eauto. constructor. Qed.

Lemma word_start (c : ascii) :
  isLetter c || Ascii.eqb c "_" = true ->
  forall rest ln col,
    nextToken (mkLexer (String c rest) ln col)
    = readIdentOrKeyword (mkLexer (String c rest) ln col).
Proof.
  intros H rest ln col.
  destruct c as [[] [] [] [] [] [] [] []]; vm_compute in H; try discriminate H;
    reflexivity.
Qed.

Lemma advanceWhile_from_word (p : ascii -> bool) (w rest : string) :
  forallb p (list_ascii_of_string w) = true ->
  match rest with EmptyString => True | String c _ => p c = false end ->
  forall ln col, exists ln' col',
    advanceWhile_from p (w ++ rest) ln col = (w, mkLexer rest ln' col').
Proof.
  intros Hw Hrest. induction w as [|a w IH]; intros ln col.
  - exists ln, col. cbn [append]. destruct rest as [|c r]; [reflexivity |].
    cbn [advanceWhile_from]. rewrite Hrest. reflexivity.
  - cbn [list_ascii_of_string forallb] in Hw. apply andb_true_iff in Hw.
    destruct Hw as [Ha Hw]. cbn [append advanceWhile_from]. rewrite Ha.
    unfold advance. cbn [input line column].
    destruct (Ascii.eqb a newline); cbn [line column].
    + destruct (IH Hw (ln + 1) 1) as (ln' & col' & E). rewrite E. eauto.
    + destruct (IH Hw ln (col + 1)) as (ln' & col' & E). rewrite E. eauto.
Qed.

Lemma nextToken_word (w rest : string) (ln col : nat) :
  ident_text w = true -> delim rest = true ->
  String.eqb (ToUpper w) "ORDER" = false ->
  exists ln' col',
    nextToken (mkLexer (w ++ rest) ln col)
    = (mkToken (fst (word_token w)) (snd (word_token w)) ln col, mkLexer rest ln' col').
Proof.
  intros Hw Hrest Hord.
  destruct w as [|c w']; [discriminate |]. cbn [ident_text] in Hw.
  apply andb_true_iff in Hw. destruct Hw as [Hc Hw'].
  cbn [append]. rewrite (word_start c Hc).
  assert (Hall : forallb isIdentByte (list_ascii_of_string (String c w')) = true).
  { cbn [list_ascii_of_string forallb]. rewrite Hw', andb_true_r.
    unfold isIdentByte. apply orb_true_iff in Hc. destruct Hc as [-> | ->];
      [reflexivity | apply orb_true_r]. }
  assert (Hr : match rest with
               | EmptyString => True
               | String c _ => isIdentByte c = false
               end).
  { destruct rest; [exact I |]. cbn [delim] in Hrest. apply negb_true_iff. exact Hrest. }
  destruct (advanceWhile_from_word isIdentByte (String c w') rest Hall Hr ln col)
    as (ln' & col' & E).
  unfold readIdentOrKeyword, advanceWhile. cbn [input line column].
  cbn [append] in E. rewrite E. rewrite Hord. unfold word_token.
  exists ln', col'.
  destruct (lookup DateRangeKeywords (ToUpper (String c w'))) as [d|]; [reflexivity |].
  destruct (lookup Keywords (ToUpper (String c w'))) as [ty|]; reflexivity.
Qed.

Lemma lex1_word (w rest : string) :
  ident_text w = true -> delim rest = true ->
  String.eqb (ToUpper w) "ORDER" = false ->
  lex1 (w ++ rest) (fst (word_token w)) (snd (word_token w)) rest.
Proof.
  intros Hw Hrest Hord ln col.
  destruct (nextToken_word w rest ln col Hw Hrest Hord) as (ln' & col' & E).
  exists ln, col, ln', col'. exact E.
Qed.

Lemma lex1_ident (w rest : string) :
  plain_ident w = true -> delim rest = true -> lex1 (w ++ rest) TokenIdent w rest.
Proof.
  unfold plain_ident. intros H Hrest.
  apply andb_true_iff in H. destruct H as [H H4].
  apply andb_true_iff in H. destruct H as [H H3].
  apply andb_true_iff in H. destruct H as [H1 H2].
  apply negb_true_iff in H2. apply TokenType_eqb_eq in H3. apply String.eqb_eq in H4.
  pose proof (lex1_word w rest H1 Hrest H2) as L. rewrite H3, H4 in L. exact L.
Qed.

Lemma Keywords_ident (k : string) :
  lookup Keywords k = Some TokenIdent -> k = "ORDER" \/ k = "BY".
Proof.
  unfold Keywords. cbn [lookup].
  repeat (destruct (String.eqb k _) eqn:E;
          [ apply String.eqb_eq in E; subst k; intros H;
            first [discriminate H | left; reflexivity | right; reflexivity]
          | clear E ]).
  discriminate.
Qed.

(** X14.  Keywords and date ranges are recognised in any letter case.  Two
    words with the same upper-case form (other than ORDER), each followed by a
    byte that ends a word, are lexed as tokens of the same type; a token that
    is no identifier carries the upper-case form, an identifier keeps the
    spelling of its word, except that a word whose upper-case form is BY is
    the identifier BY. *)
Theorem X14_keywords_case_insensitive (w1 w2 r1 r2 : string) (l1 l2 : Lexer)
    (Hw1 : ident_text w1 = true) (Hw2 : ident_text w2 = true)
    (Hupper : ToUpper w1 = ToUpper w2) (Hord : ToUpper w1 <> "ORDER")
    (Hr1 : delim r1 = true) (Hr2 : delim r2 = true)
    (Hin1 : input l1 = w1 ++ r1) (Hin2 : input l2 = w2 ++ r2) :
  tType (fst (nextToken l1)) = tType (fst (nextToken l2))
  /\ (tType (fst (nextToken l1)) <> TokenIdent ->
      tValue (fst (nextToken l1)) = ToUpper w1
      /\ tValue (fst (nextToken l2)) = ToUpper w1)
  /\ (tType (fst (nextToken l1)) = TokenIdent -> ToUpper w1 <> "BY" ->
      tValue (fst (nextToken l1)) = w1 /\ tValue (fst (nextToken l2)) = w2)
  /\ (ToUpper w1 = "BY" ->
      fst (nextToken l1) = mkToken TokenIdent "BY" (line l1) (column l1)).
Proof.
  destruct l1 as [i1 ln1 col1]. destruct l2 as [i2 ln2 col2].
  cbn [input line column] in *. subst i1 i2.
  assert (Ho1 : String.eqb (ToUpper w1) "ORDER" = false)
    by (apply String.eqb_neq; exact Hord).
  assert (Ho2 : String.eqb (ToUpper w2) "ORDER" = false)
    by (rewrite <- Hupper; exact Ho1).
  destruct (nextToken_word w1 r1 ln1 col1 Hw1 Hr1 Ho1) as (ln1' & col1' & ->).
  destruct (nextToken_word w2 r2 ln2 col2 Hw2 Hr2 Ho2) as (ln2' & col2' & ->).
  cbn [fst tType tValue]. unfold word_token. rewrite <- Hupper.
  destruct (lookup DateRangeKeywords (ToUpper w1)) as [d|] eqn:E1; cbn [fst snd].
  { repeat split; try congruence. intros Hby. rewrite Hby in E1. discriminate. }
  destruct (lookup Keywords (ToUpper w1)) as [ty|] eqn:E2; cbn [fst snd].
  - repeat split; try congruence.
    + subst ty. destruct (Keywords_ident _ E2); congruence.
    + subst ty. destruct (Keywords_ident _ E2); congruence.
    + intros Hby. rewrite Hby in E2 |- *. cbn in E2. congruence.
  - repeat split; try congruence. intros Hby. rewrite Hby in E2. discriminate.
Qed.

Lemma X14_keywords_case_insensitive_witness :
  tType (fst (nextToken (mkLexer "select x" 1 1)))
  = tType (fst (nextToken (mkLexer "SeLeCt, y" 3 7)))
  /\ tValue (fst (nextToken (mkLexer "SeLeCt, y" 3 7))) = "SELECT".
Proof.
  destruct (X14_keywords_case_insensitive "select" "SeLeCt" " x" ", y"
              (mkLexer "select x" 1 1) (mkLexer "SeLeCt, y" 3 7))
    as (H1 & H2 & _); try reflexivity; try discriminate.
  split; [exact H1 |]. apply H2. discriminate.
Defined.

Lemma lex1_select (r : string) : lex1 ("SELECT " ++ r) TokenSelect "SELECT" (" " ++ r).
Proof. intros ln col. do 4 eexists. reflexivity. Qed.

Lemma lex1_from (r : string) : lex1 (" FROM " ++ r) TokenFrom "FROM" (" " ++ r).
Proof. intros ln col. do 4 eexists. reflexivity. Qed.

Lemma lex1_where (r : string) : lex1 (" WHERE " ++ r) TokenWhere "WHERE" (" " ++ r).
Proof. intros ln col. do 4 eexists. reflexivity. Qed.

Lemma lex1_and (r : string) : lex1 (" AND " ++ r) TokenAnd "AND" (" " ++ r).
Proof. intros ln col. do 4 eexists. reflexivity. Qed.

Lemma lex1_order_by (r : string) :
  lex1 (" ORDER BY " ++ r) TokenOrderBy "ORDER BY" (" " ++ r).
Proof. intros ln col. do 4 eexists. reflexivity. Qed.

Lemma lex1_comma (r : string) : lex1 (", " ++ r) TokenComma "," (" " ++ r).
Proof. intros ln col. do 4 eexists. reflexivity. Qed.

Lemma lex1_dot (r : string) : lex1 ("." ++ r) TokenDot "." r.
Proof. intros ln col. do 4 eexists. reflexivity. Qed.

Lemma lex1_lparen (r : string) : lex1 ("(" ++ r) TokenLParen "(" r.
Proof. intros ln col. do 4 eexists. reflexivity. Qed.

Lemma lex1_rparen (r : string) : lex1 (")" ++ r) TokenRParen ")" r.
Proof. intros ln col. do 4 eexists. reflexivity. Qed.

Lemma lex1_string (v r : string) :
  plain_text v = true -> lex1 ("'" ++ v ++ "'" ++ r) TokenString v r.
Proof.
  intros Hv ln col.
  pose proof (readString_loop_plain single_quote ln col v r ln (col + 1) "" Hv) as [H1 H2].
  change (nextToken (mkLexer ("'" ++ v ++ "'" ++ r) ln col))
    with (readString_loop single_quote ln col (v ++ String single_quote r) ln (col + 1) "").
  destruct (readString_loop single_quote ln col (v ++ String single_quote r) ln (col + 1) "")
    as [tok [i ln' col']].
  cbn [fst snd input] in H1, H2. subst tok i. exists ln, col, ln', col'. reflexivity.
Qed.

Lemma lex1_desc (r : string) : delim r = true -> lex1 (" DESC" ++ r) TokenDesc "DESC" r.
Proof.
  intros Hr. apply lex1_space.
  apply (lex1_word "DESC" r); [reflexivity | exact Hr | reflexivity].
Qed.

Lemma lex1_date_range (d : DateRange) (r : string) :
  d <> DateRangeCustom -> delim r = true ->
  lex1 (DateRange_String d ++ r) TokenDateRange (DateRange_String d) r.
Proof.
  intros Hd Hr.
  destruct d; try congruence;
    match goal with
    | |- lex1 (?w ++ _) _ _ _ =>
        let w' := eval vm_compute in w in
        change w with w'; apply (lex1_word w' r); [reflexivity | exact Hr | reflexivity]
    end.
Qed.

Lemma lexn_operator (op : Operator) (r : string) :
  lexn (" " ++ Operator_String op ++ " " ++ r) (op_tvs op) (" " ++ r).
Proof.
  destruct op; cbn [op_tvs];
    repeat (eapply lexn_cons;
            [ intros ln col; do 4 eexists; reflexivity
            | discriminate | discriminate | ]);
    apply lexn_nil.
Qed.

Lemma Tokenize_loop_lexn (s s' : string) (tvs : list (TokenType * string)) :
  lexn s tvs s' ->
  forallb isSpace (list_ascii_of_string s') = true ->
  forall fuel ln col acc,
    String.length s < fuel ->
    exists toks,
      Tokenize_loop fuel (mkLexer s ln col) acc = Ok (acc ++ toks)%list
      /\ Forall2 tv toks (tvs ++ [(TokenEOF, "")])%list.
Proof.
  induction 1 as [s | s s1 s2 ty v tvs H1 H2 H3 H4 IH]; intros Hblank fuel ln col acc Hfuel.
  - destruct fuel as [|fuel]; [lia |]. cbn [Tokenize_loop].
    pose proof (proj2 (nextToken_eof (mkLexer s ln col))) as Heof.
    pose proof (nextToken_wf (mkLexer s ln col)) as Hwf.
    destruct (nextToken (mkLexer s ln col)) as [tok l'].
    cbn [fst] in Heof, Hwf.
    assert (E : tType tok = TokenEOF).
    { apply Heof. unfold skipWhitespace. cbn [input line column].
      apply skipWhitespace_from_blank. exact Hblank. }
    unfold token_wf in Hwf. rewrite E in Hwf. rewrite E. cbn.
    exists [tok]. split; [reflexivity |].
    constructor; [split; assumption | constructor].
  - destruct fuel as [|fuel]; [lia |]. cbn [Tokenize_loop].
    destruct (H1 ln col) as (tl & tc & ln' & col' & E).
    pose proof (nextToken_spec (mkLexer s ln col)) as Hspec. rewrite E in *.
    cbn [fst snd tType input] in Hspec.
    destruct Hspec as [_ [Hs | [[Hs _] | (_ & _ & Hlen)]]]; [congruence | congruence |].
    cbn [tType]. apply TokenType_eqb_neq in H2, H3. rewrite H2, H3.
    destruct (IH Hblank fuel ln' col' (acc ++ [mkToken ty v tl tc])%list ltac:(lia))
      as (toks & Htok & Hall).
    exists (mkToken ty v tl tc :: toks). rewrite Htok, <- app_assoc.
    split; [reflexivity |]. cbn [app]. constructor; [split; reflexivity | exact Hall].
Qed.

Lemma Tokenize_lexn (s : string) (tvs : list (TokenType * string)) :
  lexn s tvs "" ->
  exists toks, Tokenize s = Ok toks /\ Forall2 tv toks (tvs ++ [(TokenEOF, "")])%list.
Proof.
  intros H. unfold Tokenize, NewLexer.
  destruct (Tokenize_loop_lexn s "" tvs H eq_refl (S (String.length s)) 1 1 []
              (Nat.lt_succ_diag_r _)) as (toks & E & Hall).
  exists toks. split; [exact E | exact Hall].
Qed.

Lemma lex1_limit (r : string) : lex1 (" LIMIT " ++ r) TokenLimit "LIMIT" (" " ++ r).
Proof. intros ln col. do 4 eexists. reflexivity. Qed.

Lemma digit_start (c : ascii) :
  isDigit c = true ->
  forall rest ln col,
    nextToken (mkLexer (String c rest) ln col) = readNumber (mkLexer (String c rest) ln col).
Proof.
  intros H rest ln col.
  destruct c as [[] [] [] [] [] [] [] []]; vm_compute in H; try discriminate H;
    reflexivity.
Qed.

Lemma lex1_digits (d rest : string) :
  d <> "" -> forallb isDigit (list_ascii_of_string d) = true ->
  number_end rest = true ->
  lex1 (d ++ rest) TokenNumber d rest.
Proof.
  intros Hne Hd Hrest ln col. destruct d as [|c d']; [congruence |].
  pose proof Hd as Hd0. cbn [list_ascii_of_string forallb] in Hd0.
  apply andb_true_iff in Hd0. destruct Hd0 as [Hc _].
  cbn [append]. rewrite (digit_start c Hc).
  assert (Hr : match rest with
               | EmptyString => True
               | String c _ => isDigit c = false
               end).
  { destruct rest; [exact I |]. cbn [number_end] in Hrest.
    apply andb_true_iff in Hrest. destruct Hrest as [H _].
    apply negb_true_iff. exact H. }
  destruct (advanceWhile_from_word isDigit (String c d') rest Hd Hr ln col)
    as (ln' & col' & E).
  unfold readNumber. cbn [input].
  assert (Hminus : Ascii.eqb c "-" = false).
  { destruct (Ascii.eqb c "-") eqn:Em; [| reflexivity].
    apply Ascii.eqb_eq in Em. subst c. discriminate. }
  rewrite Hminus. unfold advanceWhile. cbn [input line column].
  cbn [append] in E. rewrite E. cbn [input].
  exists ln, col, ln', col'.
  destruct rest as [|c2 r2].
  - cbn [append]. rewrite string_app_nil_r. reflexivity.
  - cbn [number_end] in Hrest. apply andb_true_iff in Hrest. destruct Hrest as [_ H].
    apply negb_true_iff in H. rewrite H. cbn [append]. rewrite string_app_nil_r.
    reflexivity.
Qed.

Lemma string_of_uint_digits (d : Decimal.uint) :
  forallb isDigit (list_ascii_of_string (NilEmpty.string_of_uint d)) = true.
Proof. induction d; cbn; try assumption; reflexivity. Qed.

Lemma digits_value_acc (d : Decimal.uint) :
  forall acc : positive,
    digits_value (Npos acc) (NilEmpty.string_of_uint d)
    = Some (Npos (Pos.of_uint_acc d acc)).
Proof.
  induction d; intros acc; cbn [NilEmpty.string_of_uint digits_value Pos.of_uint_acc];
    try reflexivity;
    match goal with
    | |- context [isDigit ?c] => change (isDigit c) with true; cbv iota
    end;
    match goal with
    | |- context [N.of_nat ?e] =>
        let v := eval vm_compute in (N.of_nat e) in change (N.of_nat e) with v
    end;
    rewrite <- IHd; f_equal; lia.
Qed.

Lemma digits_value_uint (d : Decimal.uint) :
  digits_value 0 (NilEmpty.string_of_uint d) = Some (Pos.of_uint d).
Proof.
  induction d; cbn [NilEmpty.string_of_uint digits_value Pos.of_uint];
    try reflexivity;
    match goal with
    | |- context [isDigit ?c] => change (isDigit c) with true; cbv iota
    end;
    match goal with
    | |- context [N.of_nat ?e] =>
        let v := eval vm_compute in (N.of_nat e) in change (N.of_nat e) with v
    end;
    first [exact IHd | rewrite <- digits_value_acc; reflexivity].
Qed.

Lemma Atoi_FormatInt (n : Z) :
  (0 < n < 2 ^ 63)%Z ->
  Atoi (FormatInt n) = Some n
  /\ FormatInt n <> ""
  /\ forallb isDigit (list_ascii_of_string (FormatInt n)) = true.
Proof.
  intros Hn. destruct n as [|p|p]; try lia.
  unfold FormatInt. cbn [Z.to_int NilZero.string_of_int].
  pose proof (digits_value_uint (Pos.to_uint p)) as Hv.
  rewrite DecimalPos.Unsigned.of_to in Hv.
  pose proof (string_of_uint_digits (Pos.to_uint p)) as Hd.
  assert (Hnil : Pos.to_uint p <> Decimal.Nil).
  { intros E. rewrite E in Hv. cbn in Hv. discriminate. }
  assert (Hs : NilZero.string_of_uint (Pos.to_uint p)
               = NilEmpty.string_of_uint (Pos.to_uint p)).
  { unfold NilZero.string_of_uint. destruct (Pos.to_uint p); congruence. }
  unfold NilZero.string_of_int. cbn [NilZero.string_of_int]. 
  rewrite Hs. split; [| split; [| exact Hd]].
  - unfold Atoi.
    destruct (NilEmpty.string_of_uint (Pos.to_uint p)) as [|c s] eqn:E;
      [cbn in Hv; discriminate |].
    cbn [list_ascii_of_string forallb] in Hd. apply andb_true_iff in Hd.
    destruct Hd as [Hc _].
    assert (Hsign : split_sign (String c s) = (false, String c s)).
    { unfold split_sign.
      destruct (Ascii.eqb c "-") eqn:E1;
        [apply Ascii.eqb_eq in E1; subst c; discriminate |].
      destruct (Ascii.eqb c "+") eqn:E2;
        [apply Ascii.eqb_eq in E2; subst c; discriminate |].
      reflexivity. }
    rewrite Hsign, Hv. cbn [Z.of_N].
    replace ((- 2 ^ 63 <=? Z.pos p) && (Z.pos p <=? 2 ^ 63 - 1))%Z with true;
      [reflexivity |].
    symmetry. apply andb_true_iff. split; apply Z.leb_le; lia.
  - intros E. rewrite E in Hv. cbn in Hv. discriminate.
Qed.

Lemma split_dots_nonempty (s : string) : split_dots s <> [].
Proof.
  destruct s as [|c r]; cbn [split_dots]; [discriminate |].
  destruct (Ascii.eqb c "."); [discriminate |].
  destruct (split_dots r); discriminate.
Qed.

Lemma Join_split_dots (s : string) : Join (split_dots s) "." = s.
Proof.
  induction s as [|c r IH]; [reflexivity |]. cbn [split_dots].
  destruct (Ascii.eqb c ".") eqn:E.
  - apply Ascii.eqb_eq in E. subst c.
    pose proof (split_dots_nonempty r) as Hne.
    destruct (split_dots r) as [|p ps]; [congruence |].
    change (Join ("" :: p :: ps) ".") with ("" ++ "." ++ Join (p :: ps) ".").
    rewrite IH. reflexivity.
  - pose proof (split_dots_nonempty r) as Hne.
    destruct (split_dots r) as [|p ps]; [congruence |].
    destruct ps as [|p' ps].
    + cbn [Join] in *. rewrite IH. reflexivity.
    + change (Join (String c p :: p' :: ps) ".")
        with (String c (p ++ "." ++ Join (p' :: ps) ".")).
      change (Join (p :: p' :: ps) ".") with (p ++ "." ++ Join (p' :: ps) ".") in IH.
      rewrite IH. reflexivity.
Qed.

Lemma join_tvs_cons (sep : TokenType * string) (a b : list (TokenType * string))
    (l : list (list (TokenType * string))) :
  join_tvs sep (a :: b :: l) = (a ++ sep :: join_tvs sep (b :: l))%list.
Proof. reflexivity. Qed.

Lemma join_tvs_nonempty (sep : TokenType * string) (a : list (TokenType * string))
    (l : list (list (TokenType * string))) :
  a <> [] -> join_tvs sep (a :: l) <> [].
Proof. destruct a; [congruence | discriminate]. Qed.

(** Lexing a [Join]: every item is lexed up to a delimiter, the separator
    starts with a delimiter and is one token, after which at most a space is
    left before the next item. *)
Lemma lexn_Join {A : Type} (str : A -> string) (tvs : A -> list (TokenType * string))
    (sepstr pad : string) (sep : TokenType * string) (xs : list A) :
  xs <> [] ->
  Forall (fun x => tvs x <> []
                   /\ forall r, delim r = true -> lexn (str x ++ r) (tvs x) r) xs ->
  (forall r, delim (sepstr ++ r) = true) ->
  (forall r, lexn (sepstr ++ r) [sep] (pad ++ r)) ->
  pad = "" \/ pad = " " ->
  forall r, delim r = true ->
    lexn (Join (map str xs) sepstr ++ r) (join_tvs sep (map tvs xs)) r.
Proof.
  intros Hne Hxs Hdelim Hsep Hpad r Hr.
  induction xs as [|x xs IH]; [congruence |].
  inversion Hxs as [|? ? [Hx1 Hx2] Hxs']; subst.
  destruct xs as [|y ys].
  - cbn [map Join join_tvs flat_map]. rewrite app_nil_r. apply Hx2. exact Hr.
  - change (Join (map str (x :: y :: ys)) sepstr)
      with (str x ++ sepstr ++ Join (map str (y :: ys)) sepstr).
    change (map tvs (x :: y :: ys)) with (tvs x :: tvs y :: map tvs ys).
    rewrite join_tvs_cons, !string_app_assoc.
    eapply lexn_app; [apply Hx2; apply Hdelim |].
    change (sep :: join_tvs sep (tvs y :: map tvs ys))
      with ([sep] ++ join_tvs sep (map tvs (y :: ys)))%list.
    eapply lexn_app; [apply Hsep |].
    assert (Hrec : lexn (Join (map str (y :: ys)) sepstr ++ r)
                     (join_tvs sep (map tvs (y :: ys))) r)
      by (apply IH; [discriminate | exact Hxs']).
    destruct Hpad as [-> | ->]; [exact Hrec |].
    apply lexn_space; [| exact Hrec].
    inversion Hxs' as [|? ? [Hy _] _]; subst. apply join_tvs_nonempty. exact Hy.
Qed.

Lemma lexn_idents (sepstr pad : string) (sep : TokenType * string) (ws : list string) :
  ws <> [] -> forallb plain_ident ws = true ->
  (forall r, delim (sepstr ++ r) = true) ->
  (forall r, lexn (sepstr ++ r) [sep] (pad ++ r)) ->
  pad = "" \/ pad = " " ->
  forall r, delim r = true -> lexn (Join ws sepstr ++ r) (idents_tvs sep ws) r.
Proof.
  intros Hne Hws Hdelim Hsep Hpad r Hr.
  pose proof (lexn_Join (fun w => w) (fun w => [(TokenIdent, w)]) sepstr pad sep ws Hne)
    as H.
  rewrite map_id in H. apply H; try assumption.
  apply Forall_forall. intros w Hin. rewrite forallb_forall in Hws.
  split; [discriminate |]. intros r' Hr'.
  apply lexn_one; [apply lex1_ident; [apply Hws; exact Hin | exact Hr'] | discriminate
                  | discriminate].
Qed.

Lemma lexn_name (name r : string) :
  plain_name name = true -> delim r = true -> lexn (name ++ r) (name_tvs name) r.
Proof.
  intros Hname Hr. rewrite <- (Join_split_dots name) at 1.
  apply (lexn_idents "." "" (TokenDot, ".")); try assumption.
  - apply split_dots_nonempty.
  - reflexivity.
  - intros r'. apply lexn_one; [apply lex1_dot | discriminate | discriminate].
  - left. reflexivity.
Qed.

Lemma name_tvs_nonempty (name : string) : name_tvs name <> [].
Proof.
  unfold name_tvs, idents_tvs. pose proof (split_dots_nonempty name) as H.
  destruct (split_dots name); [congruence | discriminate].
Qed.

Lemma lexn_comma (r : string) : lexn (", " ++ r) [(TokenComma, ",")] (" " ++ r).
Proof. apply lexn_one; [apply lex1_comma | discriminate | discriminate]. Qed.

Lemma lexn_value (c : Condition) (r : string) :
  printable_condition c -> delim r = true ->
  lexn (" " ++ Value_String (cValue c) ++ r) (value_tvs (cValue c)) r
  /\ value_tvs (cValue c) <> [].
Proof.
  intros [_ [(_ & Hv & Ht) | [(_ & Hv & Hd) | (_ & Hv & Hne & Hl)]]] Hr;
    rewrite Hv; unfold Value_String, value_tvs;
    cbn [vType vStr vDateRange vList Value_str Value_dr Value_list].
  - split; [| discriminate].
    rewrite !string_app_assoc. apply lexn_space; [discriminate |].
    apply lexn_one; [apply (lex1_string _ r); exact Ht | discriminate | discriminate].
  - split; [| discriminate].
    apply lexn_space; [discriminate |].
    apply lexn_one; [apply lex1_date_range; assumption | discriminate | discriminate].
  - split; [| discriminate].
    rewrite !string_app_assoc. apply lexn_space; [discriminate |].
    eapply lexn_cons; [apply lex1_lparen | discriminate | discriminate |].
    eapply lexn_app.
    + apply (lexn_idents ", " " " (TokenComma, ",")); try assumption.
      * reflexivity.
      * apply lexn_comma.
      * right. reflexivity.
      * reflexivity.
    + apply lexn_one; [apply lex1_rparen | discriminate | discriminate].
Qed.

Lemma lexn_condition (c : Condition) (r : string) :
  printable_condition c -> delim r = true ->
  lexn (Condition_String c ++ r) (cond_tvs c) r.
Proof.
  intros Hc Hr. pose proof Hc as [Hname _].
  unfold Condition_String, cond_tvs. rewrite !string_app_assoc.
  eapply lexn_app; [apply lexn_name; [exact Hname | reflexivity] |].
  eapply lexn_app; [apply lexn_operator |].
  apply (lexn_value c r Hc Hr).
Qed.

Lemma lexn_ordering (o : Ordering) (r : string) :
  plain_name (oField o) = true -> delim r = true ->
  lexn (Ordering_String o ++ r) (ordering_tvs o) r.
Proof.
  intros Ho Hr. unfold Ordering_String, ordering_tvs. rewrite string_app_assoc.
  destruct (oDirection o).
  - rewrite app_nil_r. apply lexn_name; assumption.
  - eapply lexn_app; [apply lexn_name; [exact Ho | reflexivity] |].
    apply lexn_one; [apply lex1_desc; exact Hr | discriminate | discriminate].
Qed.

Lemma lex1_eq (r : string) : lex1 (" = " ++ r) TokenEq "=" (" " ++ r).
Proof. intros ln col. do 4 eexists. reflexivity. Qed.

Lemma lex1_parameters (r : string) :
  lex1 (" PARAMETERS " ++ r) TokenParameters "PARAMETERS" (" " ++ r).
Proof. intros ln col. do 4 eexists. reflexivity. Qed.

Lemma lexn_parameter (kv : string * string) (r : string) :
  plain_parameter kv -> delim r = true ->
  lexn ((fst kv ++ " = " ++ snd kv) ++ r) (param_tvs kv) r.
Proof.
  intros [Hk Hv] Hr. rewrite !string_app_assoc. unfold param_tvs.
  eapply lexn_cons; [apply lex1_ident; [exact Hk | reflexivity] | discriminate
                    | discriminate |].
  eapply lexn_cons; [apply lex1_eq | discriminate | discriminate |].
  apply lexn_one; [apply lex1_space, lex1_ident; assumption | discriminate | discriminate].
Qed.

Lemma ordering_tvs_nonempty (o : Ordering) : ordering_tvs o <> [].
Proof.
  unfold ordering_tvs. pose proof (name_tvs_nonempty (oField o)) as H.
  destruct (name_tvs (oField o)); [congruence | discriminate].
Qed.

Lemma cond_tvs_nonempty (c : Condition) : cond_tvs c <> [].
Proof.
  unfold cond_tvs. pose proof (name_tvs_nonempty (cField c)) as H.
  destruct (name_tvs (cField c)); [congruence | discriminate].
Qed.

Lemma join_tvs_app_nonempty (sep : TokenType * string) (a : list (TokenType * string))
    (l : list (list (TokenType * string))) (tvs : list (TokenType * string)) :
  a <> [] -> (join_tvs sep (a :: l) ++ tvs)%list <> [].
Proof.
  intros Ha E. apply app_eq_nil in E. destruct E as [E _]. revert E.
  apply join_tvs_nonempty. exact Ha.
Qed.

Lemma lexn_parameters_clause (params : list (string * string)) :
  Forall plain_parameter params ->
  lexn (match params with
        | [] => ""
        | _ => " PARAMETERS "
               ++ Join (map (fun kv => fst kv ++ " = " ++ snd kv) params) ", "
        end)
       (match params with
        | [] => []
        | _ => (TokenParameters, "PARAMETERS")
               :: join_tvs (TokenComma, ",") (map param_tvs params)
        end) "".
Proof.
  intros Hp. destruct params as [|kv kvs]; [apply lexn_nil |].
  eapply lexn_cons; [apply lex1_parameters | discriminate | discriminate |].
  apply lexn_space; [cbn [map]; apply join_tvs_nonempty; discriminate |].
  rewrite <- (string_app_nil_r (Join _ _)).
  apply (lexn_Join (fun kv => fst kv ++ " = " ++ snd kv) param_tvs ", " " "
           (TokenComma, ","));
    try reflexivity; try discriminate.
  - eapply Forall_impl; [| exact Hp]. intros kv' Hkv. split; [discriminate |].
    intros r Hr. apply lexn_parameter; assumption.
  - apply lexn_comma.
  - right. reflexivity.
Qed.

Lemma delim_parameters_clause (params : list (string * string)) :
  delim (match params with
         | [] => ""
         | _ => " PARAMETERS "
                ++ Join (map (fun kv => fst kv ++ " = " ++ snd kv) params) ", "
         end) = true.
Proof. destruct params; reflexivity. Qed.

Lemma lexn_limit_clause (limit : Z) (r : string) (tvs : list (TokenType * string)) :
  (0 <= limit < 2 ^ 63)%Z ->
  number_end r = true -> lexn r tvs "" ->
  lexn ((if (0 <? limit)%Z then " LIMIT " ++ FormatInt limit else "") ++ r)
       ((if (0 <? limit)%Z
         then [(TokenLimit, "LIMIT"); (TokenNumber, FormatInt limit)] else []) ++ tvs) "".
Proof.
  intros Hl Hr Hrest. destruct (0 <? limit)%Z eqn:E; [| exact Hrest].
  apply Z.ltb_lt in E.
  destruct (Atoi_FormatInt limit ltac:(lia)) as (_ & Hne & Hd).
  rewrite string_app_assoc. cbn [app].
  eapply lexn_cons; [apply lex1_limit | discriminate | discriminate |].
  eapply lexn_cons; [| discriminate | discriminate | exact Hrest].
  apply lex1_space, lex1_digits; assumption.
Qed.

Lemma delim_limit_clause (limit : Z) (r : string) :
  delim r = true ->
  delim ((if (0 <? limit)%Z then " LIMIT " ++ FormatInt limit else "") ++ r) = true.
Proof. intros Hr. destruct (0 <? limit)%Z; [reflexivity | exact Hr]. Qed.

Lemma number_end_parameters_clause (params : list (string * string)) :
  number_end (match params with
              | [] => ""
              | _ => " PARAMETERS "
                     ++ Join (map (fun kv => fst kv ++ " = " ++ snd kv) params) ", "
              end) = true.
Proof. destruct params; reflexivity. Qed.

Lemma lexn_order_by_clause (orderings : list Ordering) (r : string)
    (tvs : list (TokenType * string)) :
  Forall (fun o => plain_name (oField o) = true) orderings ->
  delim r = true -> lexn r tvs "" ->
  lexn (match orderings with
        | [] => ""
        | _ => " ORDER BY " ++ Join (map Ordering_String orderings) ", "
        end ++ r)
       (match orderings with
        | [] => []
        | _ => (TokenOrderBy, "ORDER BY")
               :: join_tvs (TokenComma, ",") (map ordering_tvs orderings)
        end ++ tvs) "".
Proof.
  intros Ho Hr Hrest. destruct orderings as [|o os]; [exact Hrest |].
  rewrite string_app_assoc. cbn [app].
  eapply lexn_cons; [apply lex1_order_by | discriminate | discriminate |].
  apply lexn_space; [apply join_tvs_app_nonempty, ordering_tvs_nonempty |].
  eapply lexn_app; [| exact Hrest].
  apply (lexn_Join Ordering_String ordering_tvs ", " " " (TokenComma, ","));
    try reflexivity; try discriminate; try assumption.
  - eapply Forall_impl; [| exact Ho]. intros o' Ho'.
    split; [apply ordering_tvs_nonempty |].
    intros r' Hr'. apply lexn_ordering; assumption.
  - apply lexn_comma.
  - right. reflexivity.
Qed.

Lemma lexn_where_clause (conditions : list Condition) (r : string)
    (tvs : list (TokenType * string)) :
  Forall printable_condition conditions ->
  delim r = true -> lexn r tvs "" ->
  lexn (match conditions with
        | [] => ""
        | _ => " WHERE " ++ Join (map Condition_String conditions) " AND "
        end ++ r)
       (match conditions with
        | [] => []
        | _ => (TokenWhere, "WHERE")
               :: join_tvs (TokenAnd, "AND") (map cond_tvs conditions)
        end ++ tvs) "".
Proof.
  intros Hc Hr Hrest. destruct conditions as [|c cs]; [exact Hrest |].
  rewrite string_app_assoc. cbn [app].
  eapply lexn_cons; [apply lex1_where | discriminate | discriminate |].
  apply lexn_space; [apply join_tvs_app_nonempty, cond_tvs_nonempty |].
  eapply lexn_app; [| exact Hrest].
  apply (lexn_Join Condition_String cond_tvs " AND " " " (TokenAnd, "AND"));
    try reflexivity; try discriminate; try assumption.
  - eapply Forall_impl; [| exact Hc]. intros c' Hc'.
    split; [apply cond_tvs_nonempty |].
    intros r' Hr'. apply lexn_condition; assumption.
  - intros r'. apply lexn_one; [apply lex1_and | discriminate | discriminate].
  - right. reflexivity.
Qed.

Lemma delim_order_by_clause (orderings : list Ordering) (r : string) :
  delim r = true ->
  delim (match orderings with
         | [] => ""
         | _ => " ORDER BY " ++ Join (map Ordering_String orderings) ", "
         end ++ r) = true.
Proof. intros Hr. destruct orderings; [exact Hr | reflexivity]. Qed.

Lemma delim_where_clause (conditions : list Condition) (r : string) :
  delim r = true ->
  delim (match conditions with
         | [] => ""
         | _ => " WHERE " ++ Join (map Condition_String conditions) " AND "
         end ++ r) = true.
Proof. intros Hr. destruct conditions; [exact Hr | reflexivity]. Qed.

(** The printed form of a query is lexed as [query_tvs]. *)
Lemma lexn_query (q : Query) :
  printable_clauses q -> Forall plain_parameter (Parameters q) ->
  lexn (Query_String q) (query_tvs q) "".
Proof.
  intros (Hne & Hsel & Hfrom & Hwhere & Horder & Hlim) Hpar.
  unfold Query_String, query_tvs.
  pose proof (lexn_parameters_clause (Parameters q) Hpar) as HP.
  pose proof (delim_parameters_clause (Parameters q)) as HdP.
  pose proof (number_end_parameters_clause (Parameters q)) as HnP.
  pose proof (lexn_limit_clause (Limit q) _ _ Hlim HnP HP) as HL.
  pose proof (delim_limit_clause (Limit q) _ HdP) as HdL.
  pose proof (lexn_order_by_clause (OrderBy q) _ _ Horder HdL HL) as HO.
  pose proof (delim_order_by_clause (OrderBy q) _ HdL) as HdO.
  pose proof (lexn_where_clause (Where q) _ _ Hwhere HdO HO) as HW.
  pose proof (delim_where_clause (Where q) _ HdO) as HdW.
  eapply lexn_cons; [apply lex1_select | discriminate | discriminate |].
  apply lexn_space.
  { destruct (Select q) as [|f fs]; [congruence |]. cbn [map].
    apply join_tvs_app_nonempty, name_tvs_nonempty. }
  eapply lexn_app.
  { apply (lexn_Join fName (fun f => name_tvs (fName f)) ", " " " (TokenComma, ","));
      try reflexivity; try assumption.
    - eapply Forall_impl; [| exact Hsel]. intros f Hf.
      split; [apply name_tvs_nonempty |].
      intros r Hr. apply lexn_name; assumption.
    - apply lexn_comma.
    - right. reflexivity. }
  eapply lexn_cons; [apply lex1_from | discriminate | discriminate |].
  eapply lexn_cons;
    [apply lex1_space, lex1_ident; [exact Hfrom | exact HdW] | discriminate | discriminate |].
  exact HW.
Qed.

Lemma yields_ret {A : Type} (a : A) (toks : list Token) : yields (ret a) toks a toks.
Proof. split; reflexivity. Qed.

Lemma yields_bind {A B : Type} (m : Parser A) (k : A -> Parser B) (toks r r2 : list Token)
    (a : A) (b : B) :
  yields m toks a r -> yields (k a) r b r2 -> yields (bind m k) toks b r2.
Proof.
  unfold yields, bind. destruct (m toks) as [[a' r'] | e |]; [| contradiction | trivial].
  intros [-> ->] H. exact H.
Qed.

Lemma yields_match_true {A : Type} (t : TokenType) (k : bool -> Parser A) (tok : Token)
    (rest r : list Token) (a : A) :
  tType tok = t -> yields (k true) rest a r -> yields (bind (p_match t) k) (tok :: rest) a r.
Proof.
  intros Ht H. unfold yields. rewrite bind_match. cbn [current_token tl].
  rewrite Ht, TokenType_eqb_refl. exact H.
Qed.

Lemma yields_match_false {A : Type} (t : TokenType) (k : bool -> Parser A)
    (toks r : list Token) (a : A) :
  tType (current_token toks) <> t -> yields (k false) toks a r ->
  yields (bind (p_match t) k) toks a r.
Proof.
  intros Ht H. unfold yields. rewrite bind_match.
  apply TokenType_eqb_neq in Ht. rewrite Ht. exact H.
Qed.

Lemma yields_check {A : Type} (t : TokenType) (k : bool -> Parser A)
    (toks r : list Token) (a : A) :
  yields (k (TokenType_eqb (tType (current_token toks)) t)) toks a r ->
  yields (bind (p_check t) k) toks a r.
Proof. intros H. exact H. Qed.

Lemma yields_current {A : Type} (k : Token -> Parser A) (toks r : list Token) (a : A) :
  yields (k (current_token toks)) toks a r -> yields (bind p_current k) toks a r.
Proof. intros H. exact H. Qed.

Lemma yields_advance {A : Type} (k : unit -> Parser A) (tok : Token)
    (rest r : list Token) (a : A) :
  yields (k tt) rest a r -> yields (bind p_advance k) (tok :: rest) a r.
Proof. intros H. exact H. Qed.

Ltac tv_inv :=
  repeat match goal with
         | H : Forall2 tv _ (_ :: _) |- _ => inversion H; clear H; subst
         | H : Forall2 tv _ [] |- _ => inversion H; clear H; subst
         | H : tv ?t (_, _) |- _ =>
             destruct t; destruct H as [? ?]; cbn [tType tValue fst snd] in *; subst
         end.

Lemma yields_parseField_loop :
  forall (ps : list string) (ts : list Token) (acc : list string) (fuel : nat)
         (rest : list Token),
    Forall2 tv ts
      (flat_map (fun y => (TokenDot, ".") :: y) (map (fun w => [(TokenIdent, w)]) ps)) ->
    next_type rest <> TokenDot ->
    yields (parseField_loop fuel acc) (ts ++ rest)%list (acc ++ ps)%list rest.
Proof.
  induction ps as [|p ps IH]; intros ts acc fuel rest Hts Hrest;
    (destruct fuel as [|fuel]; [exact I |]); cbn [parseField_loop].
  - cbn in Hts. tv_inv. cbn [app]. rewrite app_nil_r.
    apply yields_match_false; [exact Hrest | apply yields_ret].
  - cbn [map flat_map app] in Hts. tv_inv. cbn [app].
    apply yields_match_true; [reflexivity |].
    apply yields_check. cbn [current_token tType]. cbn [negb TokenType_eqb].
    change (TokenType_eqb TokenIdent TokenIdent) with true. cbn [negb].
    apply yields_current. apply yields_advance. cbn [current_token tValue].
    replace (acc ++ p :: ps)%list with ((acc ++ [p]) ++ ps)%list
      by (rewrite <- app_assoc; reflexivity).
    apply IH; assumption.
Qed.

Lemma yields_parseField (n : nat) (name : string) (ts rest : list Token) :
  Forall2 tv ts (name_tvs name) -> next_type rest <> TokenDot ->
  yields (parseField n) (ts ++ rest)%list (mkField name) rest.
Proof.
  intros Hts Hrest. unfold name_tvs, idents_tvs in Hts.
  pose proof (Join_split_dots name) as HJ.
  pose proof (split_dots_nonempty name) as Hne.
  destruct (split_dots name) as [|p ps]; [congruence |].
  cbn [map join_tvs app] in Hts. tv_inv. cbn [app]. unfold parseField.
  apply yields_check. cbn [current_token tType].
  change (TokenType_eqb TokenIdent TokenIdent) with true. cbn [negb].
  apply yields_current. apply yields_advance. cbn [current_token tValue].
  eapply yields_bind; [apply (yields_parseField_loop ps); eassumption |].
  cbn [app]. apply yields_ret.
Qed.

Lemma next_type_app (ts rest : list Token) (x : TokenType * string)
    (tvs : list (TokenType * string)) :
  Forall2 tv ts (x :: tvs) -> next_type (ts ++ rest)%list = fst x.
Proof. intros H. inversion H as [|t ? ? ? [Ht _]]; subst. exact Ht. Qed.

Lemma name_tvs_first (name : string) :
  exists w tvs, name_tvs name = (TokenIdent, w) :: tvs.
Proof.
  unfold name_tvs, idents_tvs. pose proof (split_dots_nonempty name) as Hne.
  destruct (split_dots name) as [|p ps]; [congruence |]. cbn [map join_tvs app]. eauto.
Qed.

Lemma yields_parseFieldList_loop (n : nat) :
  forall (fs : list Field) (f : Field) (ts : list Token) (acc : list Field)
         (fuel : nat) (rest : list Token),
    Forall2 tv ts
      (join_tvs (TokenComma, ",") (map (fun f => name_tvs (fName f)) (f :: fs))) ->
    next_type rest <> TokenDot -> next_type rest <> TokenComma ->
    yields (parseFieldList_loop n fuel acc) (ts ++ rest)%list (acc ++ f :: fs)%list rest.
Proof.
  induction fs as [|g fs IH]; intros f ts acc fuel rest Hts Hdot Hcomma;
    (destruct fuel as [|fuel]; [exact I |]); cbn [parseFieldList_loop];
    destruct f as [name]; cbn [fName] in *.
  - cbn [map join_tvs flat_map] in Hts. rewrite app_nil_r in Hts.
    eapply yields_bind; [apply yields_parseField; eassumption |]. cbv zeta.
    apply yields_match_false; [exact Hcomma | apply yields_ret].
  - change (map (fun f => name_tvs (fName f)) (mkField name :: g :: fs))
      with (name_tvs name :: map (fun f => name_tvs (fName f)) (g :: fs)) in Hts.
    cbn [map] in Hts. rewrite join_tvs_cons in Hts.
    apply Forall2_app_inv_r in Hts. destruct Hts as (t1 & t2 & H1 & H2 & ->).
    inversion H2 as [|c ? t3 ? Hc H3]; subst. rewrite <- app_assoc. cbn [app].
    eapply yields_bind.
    { apply yields_parseField; [exact H1 |]. destruct Hc as [Hc _].
      unfold next_type. cbn [current_token]. rewrite Hc. discriminate. }
    cbv zeta. apply yields_match_true; [apply Hc |].
    replace (acc ++ mkField name :: g :: fs)%list
      with ((acc ++ [mkField name]) ++ g :: fs)%list
      by (rewrite <- app_assoc; reflexivity).
    apply IH; assumption.
Qed.

Lemma yields_parseOperator (op : Operator) (ts rest : list Token) :
  Forall2 tv ts (op_tvs op) -> yields parseOperator (ts ++ rest)%list op rest.
Proof.
  intros Hts. destruct op; cbn [op_tvs] in Hts; tv_inv; split; reflexivity.
Qed.

Lemma yields_parseList_loop :
  forall (ws : list string) (w : string) (ts : list Token) (acc : list string)
         (fuel : nat) (rest : list Token),
    Forall2 tv ts (idents_tvs (TokenComma, ",") (w :: ws)) ->
    next_type rest <> TokenComma ->
    yields (parseList_loop fuel acc) (ts ++ rest)%list (acc ++ w :: ws)%list rest.
Proof.
  unfold idents_tvs.
  induction ws as [|w' ws IH]; intros w ts acc fuel rest Hts Hcomma;
    (destruct fuel as [|fuel]; [exact I |]); cbn [parseList_loop].
  - cbn in Hts. tv_inv. cbn [app].
    eapply yields_bind; [split; reflexivity |]. cbv zeta.
    apply yields_match_false; [exact Hcomma | apply yields_ret].
  - cbn [map] in Hts. rewrite join_tvs_cons in Hts. cbn [app] in Hts.
    inversion Hts as [|t ? t1 ? Ht H1]; subst.
    inversion H1 as [|c ? t2 ? Hc H2]; subst. clear Hts H1.
    destruct t as [ty v ln col]. destruct Ht as [Hty Hv]. cbn in Hty, Hv. subst ty v.
    cbn [app].
    eapply yields_bind; [split; reflexivity |]. cbv zeta.
    apply yields_match_true; [apply Hc |].
    replace (acc ++ w :: w' :: ws)%list with ((acc ++ [w]) ++ w' :: ws)%list
      by (rewrite <- app_assoc; reflexivity).
    apply IH; assumption.
Qed.

Lemma DateRange_String_key (d : DateRange) :
  d <> DateRangeCustom -> lookup DateRangeKeywords (DateRange_String d) = Some d.
Proof. destruct d; try congruence; reflexivity. Qed.

Lemma parseValue_list (n : nat) (op : Operator) (toks : list Token) :
  is_list_operator op = true -> parseValue n op toks = parseList n toks.
Proof. destruct op; try discriminate; reflexivity. Qed.

Lemma yields_parseValue (n : nat) (c : Condition) (ts rest : list Token) :
  printable_condition c -> Forall2 tv ts (value_tvs (cValue c)) ->
  yields (parseValue n (cOperator c)) (ts ++ rest)%list (cValue c) rest.
Proof.
  intros [_ [(Hop & Hv & _) | [(Hop & Hv & Hd) | (Hop & Hv & Hne & _)]]] Hts;
    rewrite Hv in Hts |- *; unfold value_tvs in Hts;
    cbn [vType vStr vDateRange vList Value_str Value_dr Value_list] in Hts.
  - tv_inv. destruct (cOperator c); try discriminate; split; reflexivity.
  - tv_inv. rewrite Hop. unfold parseValue. apply yields_current.
    change (Operator_eqb OpDuring OpDuring) with true. cbv iota.
    apply yields_check. cbn [app current_token tType tValue].
    change (TokenType_eqb TokenDateRange TokenDateRange) with true. cbn [negb].
    rewrite (DateRange_String_key _ Hd). apply yields_advance. apply yields_ret.
  - inversion Hts as [|lp ? t1 ? Hlp H1]; subst. clear Hts.
    apply Forall2_app_inv_r in H1. destruct H1 as (t2 & t3 & H2 & H3 & ->).
    inversion H3 as [|rp ? t4 ? Hrp H4]; subst. inversion H4; subst. clear H3 H4.
    cbn [app]. rewrite <- app_assoc. cbn [app].
    unfold yields. rewrite (parseValue_list n _ _ Hop).
    change (yields (parseList n) (lp :: t2 ++ rp :: rest)%list
              (Value_list (vList (cValue c))) rest).
    unfold parseList. apply yields_match_true; [apply Hlp |]. cbn [negb].
    destruct (vList (cValue c)) as [|w ws] eqn:E; [congruence |].
    eapply yields_bind; [apply (yields_parseList_loop ws w t2 []); [exact H2 |] |].
    + unfold next_type. cbn [current_token]. destruct Hrp as [-> _]. discriminate.
    + apply yields_match_true; [apply Hrp |]. cbn [negb app]. apply yields_ret.
Qed.

Lemma op_tvs_first (op : Operator) :
  exists x l, op_tvs op = x :: l /\ fst x <> TokenDot.
Proof. destruct op; cbn [op_tvs]; do 2 eexists; (split; [reflexivity | discriminate]). Qed.

Lemma printable_operator (c : Condition) :
  printable_condition c ->
  Operator_eqb (cOperator c) OpIsNull || Operator_eqb (cOperator c) OpIsNotNull = false.
Proof.
  intros [_ [(Hop & _) | [(Hop & _) | (Hop & _)]]];
    destruct (cOperator c); try discriminate; reflexivity.
Qed.

Lemma yields_parseCondition (n : nat) (c : Condition) (ts rest : list Token) :
  printable_condition c -> Forall2 tv ts (cond_tvs c) ->
  yields (parseCondition n) (ts ++ rest)%list c rest.
Proof.
  intros Hc Hts. unfold cond_tvs in Hts.
  apply Forall2_app_inv_r in Hts. destruct Hts as (t1 & t23 & H1 & H23 & ->).
  apply Forall2_app_inv_r in H23. destruct H23 as (t2 & t3 & H2 & H3 & ->).
  rewrite <- !app_assoc. unfold parseCondition.
  eapply yields_bind.
  { apply yields_parseField; [exact H1 |].
    destruct (op_tvs_first (cOperator c)) as (x & l & E & Hx). rewrite E in H2.
    rewrite (next_type_app _ _ _ _ H2). exact Hx. }
  eapply yields_bind; [apply yields_parseOperator; exact H2 |].
  rewrite (printable_operator c Hc).
  eapply yields_bind; [apply yields_parseValue; [exact Hc | exact H3] |].
  cbn [fName]. destruct c. apply yields_ret.
Qed.

Lemma cond_tvs_first (c : Condition) : exists w tvs, cond_tvs c = (TokenIdent, w) :: tvs.
Proof.
  unfold cond_tvs. destruct (name_tvs_first (cField c)) as (w & l & ->).
  cbn [app]. eauto.
Qed.

Lemma yields_parseConditions_loop (n : nat) :
  forall (cs : list Condition) (c : Condition) (ts : list Token) (acc : list Condition)
         (fuel : nat) (rest : list Token),
    Forall printable_condition (c :: cs) ->
    Forall2 tv ts (join_tvs (TokenAnd, "AND") (map cond_tvs (c :: cs))) ->
    next_type rest <> TokenAnd ->
    yields (parseConditions_loop n fuel acc) (ts ++ rest)%list (acc ++ c :: cs)%list rest.
Proof.
  induction cs as [|c' cs IH]; intros c ts acc fuel rest Hall Hts Hand;
    (destruct fuel as [|fuel]; [exact I |]); cbn [parseConditions_loop];
    inversion Hall as [|? ? Hc Hcs]; subst.
  - cbn [map join_tvs flat_map] in Hts. rewrite app_nil_r in Hts.
    eapply yields_bind; [apply yields_parseCondition; eassumption |]. cbv zeta.
    apply yields_match_false; [exact Hand | apply yields_ret].
  - cbn [map] in Hts. rewrite join_tvs_cons in Hts.
    apply Forall2_app_inv_r in Hts. destruct Hts as (t1 & t2 & H1 & H2 & ->).
    inversion H2 as [|a ? t3 ? Ha H3]; subst. rewrite <- app_assoc. cbn [app].
    eapply yields_bind; [apply yields_parseCondition; eassumption |].
    cbv zeta. apply yields_match_true; [apply Ha |].
    replace (acc ++ c :: c' :: cs)%list with ((acc ++ [c]) ++ c' :: cs)%list
      by (rewrite <- app_assoc; reflexivity).
    apply IH; assumption.
Qed.

Lemma yields_ordering (n : nat) (o : Ordering) (ts rest : list Token)
    {A : Type} (k : Ordering -> Parser A) (a : A) (r : list Token) :
  Forall2 tv ts (ordering_tvs o) ->
  next_type rest <> TokenDot -> next_type rest <> TokenDesc ->
  next_type rest <> TokenAsc ->
  yields (k o) rest a r ->
  yields (field <- parseField n ;;
          isDesc <- p_match TokenDesc ;;
          dir <- (if isDesc then ret Desc else p_match TokenAsc ;;; ret Asc) ;;
          k (mkOrdering (fName field) dir)) (ts ++ rest)%list a r.
Proof.
  intros Hts Hdot Hdesc Hasc Hk. unfold ordering_tvs in Hts.
  apply Forall2_app_inv_r in Hts. destruct Hts as (t1 & t2 & H1 & H2 & ->).
  rewrite <- app_assoc. destruct o as [name dir]. cbn [oField oDirection] in *.
  destruct dir.
  - inversion H2; subst. cbn [app].
    eapply yields_bind; [apply yields_parseField; [exact H1 | exact Hdot] |].
    apply yields_match_false; [exact Hdesc |].
    eapply yields_bind; [apply yields_match_false; [exact Hasc | apply yields_ret] |].
    exact Hk.
  - inversion H2 as [|d ? t3 ? Hd H3]; subst. inversion H3; subst. cbn [app].
    eapply yields_bind.
    { apply yields_parseField; [exact H1 |]. unfold next_type. cbn [current_token].
      destruct Hd as [-> _]. discriminate. }
    apply yields_match_true; [apply Hd |].
    eapply yields_bind; [apply yields_ret |]. exact Hk.
Qed.

Lemma yields_parseOrderings_loop (n : nat) :
  forall (os : list Ordering) (o : Ordering) (ts : list Token) (acc : list Ordering)
         (fuel : nat) (rest : list Token),
    Forall2 tv ts (join_tvs (TokenComma, ",") (map ordering_tvs (o :: os))) ->
    next_type rest <> TokenDot -> next_type rest <> TokenDesc ->
    next_type rest <> TokenAsc -> next_type rest <> TokenComma ->
    yields (parseOrderings_loop n fuel acc) (ts ++ rest)%list (acc ++ o :: os)%list rest.
Proof.
  induction os as [|o' os IH]; intros o ts acc fuel rest Hts Hdot Hdesc Hasc Hcomma;
    (destruct fuel as [|fuel]; [exact I |]); cbn [parseOrderings_loop].
  - cbn [map join_tvs flat_map] in Hts. rewrite app_nil_r in Hts.
    apply (yields_ordering n o ts rest
             (fun x => let orderings := (acc ++ [x])%list in
                       comma <- p_match TokenComma ;;
                       if comma then parseOrderings_loop n fuel orderings
                       else ret orderings)); try assumption.
    cbv zeta. apply yields_match_false; [exact Hcomma | apply yields_ret].
  - cbn [map] in Hts. rewrite join_tvs_cons in Hts.
    apply Forall2_app_inv_r in Hts. destruct Hts as (t1 & t2 & H1 & H2 & ->).
    inversion H2 as [|c ? t3 ? Hc H3]; subst. rewrite <- app_assoc. cbn [app].
    assert (Hn : next_type (c :: t3 ++ rest)%list = TokenComma) by apply Hc.
    apply (yields_ordering n o t1 (c :: t3 ++ rest)%list
             (fun x => let orderings := (acc ++ [x])%list in
                       comma <- p_match TokenComma ;;
                       if comma then parseOrderings_loop n fuel orderings
                       else ret orderings));
      try assumption; try (rewrite Hn; discriminate).
    cbv zeta. apply yields_match_true; [apply Hc |].
    replace (acc ++ o :: o' :: os)%list with ((acc ++ [o]) ++ o' :: os)%list
      by (rewrite <- app_assoc; reflexivity).
    apply IH; assumption.
Qed.

Lemma yields_parseSelectFrom (n : nat) (fields : list Field) (from : string)
    (ts rest : list Token) :
  fields <> [] ->
  Forall2 tv ts
    ((TokenSelect, "SELECT")
     :: join_tvs (TokenComma, ",") (map (fun f => name_tvs (fName f)) fields)
     ++ [(TokenFrom, "FROM"); (TokenIdent, from)])%list ->
  yields (parseSelectFrom n) (ts ++ rest)%list (fields, from) rest.
Proof.
  intros Hne Hts. inversion Hts as [|s ? t0 ? Hs H0]; subst. clear Hts.
  apply Forall2_app_inv_r in H0. destruct H0 as (t1 & t2 & H1 & H2 & ->).
  inversion H2 as [|f ? t3 ? Hf H3]; subst. clear H2.
  inversion H3 as [|i ? t4 ? Hi H4]; subst. inversion H4; subst. clear H3 H4.
  cbn [app]. rewrite <- app_assoc. cbn [app]. unfold parseSelectFrom.
  apply yields_match_true; [apply Hs |]. cbn [negb].
  destruct fields as [|f0 fs]; [congruence |].
  eapply yields_bind.
  { unfold parseFieldList. eapply yields_bind.
    - apply (yields_parseFieldList_loop n fs f0 t1 []); [exact H1 | |];
        unfold next_type; cbn [current_token]; destruct Hf as [-> _]; discriminate.
    - cbn [app]. apply yields_ret. }
  apply yields_match_true; [apply Hf |]. cbn [negb].
  apply yields_check. cbn [current_token]. destruct Hi as [Hi1 Hi2].
  cbn [fst snd] in Hi1, Hi2. rewrite Hi1.
  change (TokenType_eqb TokenIdent TokenIdent) with true. cbn [negb].
  apply yields_current. apply yields_advance. cbn [current_token]. rewrite Hi2.
  apply yields_ret.
Qed.

Lemma yields_parseWhereClause (n : nat) (conditions : list Condition)
    (ts rest : list Token) :
  Forall printable_condition conditions ->
  Forall2 tv ts
    (match conditions with
     | [] => []
     | _ => (TokenWhere, "WHERE")
            :: join_tvs (TokenAnd, "AND") (map cond_tvs conditions)
     end) ->
  next_type rest <> TokenWhere -> next_type rest <> TokenAnd ->
  yields (parseWhereClause n) (ts ++ rest)%list conditions rest.
Proof.
  intros Hall Hts Hwhere Hand. unfold parseWhereClause.
  destruct conditions as [|c cs].
  - inversion Hts; subst. cbn [app].
    apply yields_match_false; [exact Hwhere | apply yields_ret].
  - inversion Hts as [|w ? t1 ? Hw H1]; subst. cbn [app].
    apply yields_match_true; [apply Hw |]. unfold parseConditions.
    apply (yields_parseConditions_loop n cs c t1 []); assumption.
Qed.

Lemma yields_parseOrderByClause (n : nat) (orderings : list Ordering)
    (ts rest : list Token) :
  Forall2 tv ts
    (match orderings with
     | [] => []
     | _ => (TokenOrderBy, "ORDER BY")
            :: join_tvs (TokenComma, ",") (map ordering_tvs orderings)
     end) ->
  ends_order_by (next_type rest) = true ->
  yields (parseOrderByClause n) (ts ++ rest)%list orderings rest.
Proof.
  intros Hts Hrest. unfold parseOrderByClause.
  destruct orderings as [|o os].
  - inversion Hts; subst. cbn [app].
    apply yields_match_false; [| apply yields_ret].
    unfold next_type in Hrest. intros E. rewrite E in Hrest. discriminate.
  - inversion Hts as [|w ? t1 ? Hw H1]; subst. cbn [app].
    apply yields_match_true; [apply Hw |]. unfold parseOrderings.
    apply (yields_parseOrderings_loop n os o t1 []); try assumption;
      intros E; rewrite E in Hrest; discriminate.
Qed.

Lemma yields_parseLimitClause (limit : Z) (ts rest : list Token) :
  (0 <= limit < 2 ^ 63)%Z ->
  Forall2 tv ts
    (if (0 <? limit)%Z
     then [(TokenLimit, "LIMIT"); (TokenNumber, FormatInt limit)] else []) ->
  ends_limit (next_type rest) = true ->
  yields parseLimitClause (ts ++ rest)%list limit rest.
Proof.
  intros Hl Hts Hrest. unfold parseLimitClause.
  destruct (0 <? limit)%Z eqn:E.
  - apply Z.ltb_lt in E. destruct (Atoi_FormatInt limit ltac:(lia)) as (Ha & _ & _).
    tv_inv. cbn [app]. apply yields_match_true; [reflexivity |].
    apply yields_check. cbn [current_token tType].
    change (TokenType_eqb TokenNumber TokenNumber) with true. cbn [negb].
    apply yields_current. cbn [current_token tValue]. rewrite Ha.
    replace (limit <=? 0)%Z with false by (symmetry; apply Z.leb_gt; exact E).
    apply yields_advance. apply yields_ret.
  - inversion Hts; subst. cbn [app]. apply Z.ltb_ge in E.
    replace limit with 0%Z by lia.
    apply yields_match_false; [| apply yields_ret].
    unfold next_type in Hrest. intros E'. rewrite E' in Hrest. discriminate.
Qed.

Lemma yields_parseParameters_loop :
  forall (kvs : list (string * string)) (kv : string * string) (ts : list Token)
         (acc : list (string * string)) (fuel : nat) (rest : list Token),
    Forall2 tv ts (join_tvs (TokenComma, ",") (map param_tvs (kv :: kvs))) ->
    next_type rest <> TokenComma ->
    yields (parseParameters_loop fuel acc) (ts ++ rest)%list
      (fold_left (fun m kv => map_set m (fst kv) (snd kv)) (kv :: kvs) acc) rest.
Proof.
  induction kvs as [|kv' kvs IH]; intros kv ts acc fuel rest Hts Hcomma;
    (destruct fuel as [|fuel]; [exact I |]); cbn [parseParameters_loop].
  - cbn [map join_tvs flat_map param_tvs app] in Hts. tv_inv. cbn [app].
    apply yields_check. cbn [current_token tType].
    change (TokenType_eqb TokenIdent TokenIdent) with true. cbn [negb].
    apply yields_current. apply yields_advance.
    apply yields_match_true; [reflexivity |]. cbn [negb].
    eapply yields_bind; [split; reflexivity |]. cbv zeta.
    apply yields_match_false; [exact Hcomma |]. cbn [current_token tValue fold_left].
    apply yields_ret.
  - cbn [map] in Hts. rewrite join_tvs_cons in Hts. unfold param_tvs at 1 in Hts.
    cbn [app] in Hts.
    inversion Hts as [|k ? t1 ? Hk H1]; subst. clear Hts.
    inversion H1 as [|e ? t2 ? He H2]; subst. clear H1.
    inversion H2 as [|v ? t3 ? Hv H3]; subst. clear H2.
    inversion H3 as [|c ? t4 ? Hc H4]; subst. clear H3.
    destruct k as [kty kval kl kc]. destruct Hk as [Hk1 Hk2]. cbn in Hk1, Hk2.
    destruct v as [vty vval vl vc]. destruct Hv as [Hv1 Hv2]. cbn in Hv1, Hv2.
    subst kty kval vty vval. cbn [app].
    apply yields_check. cbn [current_token tType].
    change (TokenType_eqb TokenIdent TokenIdent) with true. cbn [negb].
    apply yields_current. apply yields_advance.
    apply yields_match_true; [apply He |]. cbn [negb].
    eapply yields_bind; [split; reflexivity |]. cbv zeta.
    apply yields_match_true; [apply Hc |]. cbn [current_token tValue].
    change (fold_left (fun m kv0 => map_set m (fst kv0) (snd kv0)) (kv :: kv' :: kvs) acc)
      with (fold_left (fun m kv0 => map_set m (fst kv0) (snd kv0)) (kv' :: kvs)
              (map_set acc (fst kv) (snd kv))).
    apply IH; assumption.
Qed.

Lemma yields_parseParametersClause (n : nat) (params : list (string * string))
    (ts rest : list Token) :
  Forall2 tv ts
    (match params with
     | [] => []
     | _ => (TokenParameters, "PARAMETERS")
            :: join_tvs (TokenComma, ",") (map param_tvs params)
     end) ->
  next_type rest = TokenEOF ->
  yields (parseParametersClause n) (ts ++ rest)%list (set_all params) rest.
Proof.
  intros Hts Hrest. unfold parseParametersClause.
  destruct params as [|kv kvs].
  - inversion Hts; subst. cbn [app].
    apply yields_match_false; [| apply yields_ret].
    unfold next_type in Hrest. rewrite Hrest. discriminate.
  - inversion Hts as [|w ? t1 ? Hw H1]; subst. cbn [app].
    apply yields_match_true; [apply Hw |]. unfold parseParameters, set_all.
    apply yields_parseParameters_loop; [exact H1 | rewrite Hrest; discriminate].
Qed.

Lemma next_type_clause (kw : TokenType) (v : string) (tvs l : list (TokenType * string))
    (ts rest : list Token) :
  Forall2 tv ts tvs -> tvs = [] \/ tvs = (kw, v) :: l ->
  next_type (ts ++ rest)%list = next_type rest \/ next_type (ts ++ rest)%list = kw.
Proof.
  intros Hts [-> | ->].
  - inversion Hts; subst. left. reflexivity.
  - right. apply (next_type_app _ _ _ _ Hts).
Qed.

Lemma yields_parseQuery (n : nat) (q : Query) (toks : list Token) :
  printable_clauses q ->
  Forall2 tv toks (query_tvs q ++ [(TokenEOF, "")])%list ->
  exists eof,
    yields (parseQuery n) toks (with_parameters q (set_all (Parameters q))) [eof].
Proof.
  intros (Hne & _ & _ & Hwhere & _ & Hlim) Hts. unfold query_tvs in Hts.
  set (SEL := join_tvs (TokenComma, ",") (map (fun f => name_tvs (fName f)) (Select q)))
    in Hts.
  set (WH := match Where q with
             | [] => []
             | _ => (TokenWhere, "WHERE")
                    :: join_tvs (TokenAnd, "AND") (map cond_tvs (Where q))
             end) in Hts.
  set (OB := match OrderBy q with
             | [] => []
             | _ => (TokenOrderBy, "ORDER BY")
                    :: join_tvs (TokenComma, ",") (map ordering_tvs (OrderBy q))
             end) in Hts.
  set (LIM := if (0 <? Limit q)%Z
              then [(TokenLimit, "LIMIT"); (TokenNumber, FormatInt (Limit q))]
              else []) in Hts.
  set (PAR := match Parameters q with
              | [] => []
              | _ => (TokenParameters, "PARAMETERS")
                     :: join_tvs (TokenComma, ",") (map param_tvs (Parameters q))
              end) in Hts.
  replace (((TokenSelect, "SELECT")
            :: SEL ++ (TokenFrom, "FROM") :: (TokenIdent, From q)
            :: WH ++ OB ++ LIM ++ PAR)
           ++ [(TokenEOF, "")])%list
    with (((TokenSelect, "SELECT")
           :: SEL ++ [(TokenFrom, "FROM"); (TokenIdent, From q)])
          ++ WH ++ OB ++ LIM ++ PAR ++ [(TokenEOF, "")])%list in Hts
    by (cbn [app]; repeat (rewrite <- app_assoc; cbn [app]); reflexivity).
  apply Forall2_app_inv_r in Hts. destruct Hts as (t1 & t2 & H1 & H2 & ->).
  apply Forall2_app_inv_r in H2. destruct H2 as (t3 & t4 & H3 & H4 & ->).
  apply Forall2_app_inv_r in H4. destruct H4 as (t5 & t6 & H5 & H6 & ->).
  apply Forall2_app_inv_r in H6. destruct H6 as (t7 & t8 & H7 & H8 & ->).
  apply Forall2_app_inv_r in H8. destruct H8 as (t9 & t10 & H9 & H10 & ->).
  inversion H10 as [|eof ? t11 ? Heof H11]; subst. inversion H11; subst. clear H10 H11.
  destruct Heof as [Heof _]. cbn [fst] in Heof.
  assert (Hn : next_type [eof] = TokenEOF) by exact Heof.
  assert (HnP : ends_limit (next_type (t9 ++ [eof])%list) = true).
  { destruct (next_type_clause TokenParameters "PARAMETERS" PAR
                (join_tvs (TokenComma, ",") (map param_tvs (Parameters q)))
                t9 [eof] H9) as [E | E].
    - subst PAR. destruct (Parameters q); [left | right]; reflexivity.
    - rewrite E, Hn. reflexivity.
    - rewrite E. reflexivity. }
  assert (HnL : ends_order_by (next_type (t7 ++ t9 ++ [eof])%list) = true).
  { destruct (next_type_clause TokenLimit "LIMIT" LIM
                [(TokenNumber, FormatInt (Limit q))] t7 (t9 ++ [eof])%list H7)
      as [E | E].
    - subst LIM. destruct (0 <? Limit q)%Z; [right | left]; reflexivity.
    - rewrite E. destruct (next_type (t9 ++ [eof])%list); try discriminate; reflexivity.
    - rewrite E. reflexivity. }
  assert (HnO : next_type (t5 ++ t7 ++ t9 ++ [eof])%list <> TokenWhere
                /\ next_type (t5 ++ t7 ++ t9 ++ [eof])%list <> TokenAnd).
  { destruct (next_type_clause TokenOrderBy "ORDER BY" OB
                (join_tvs (TokenComma, ",") (map ordering_tvs (OrderBy q)))
                t5 (t7 ++ t9 ++ [eof])%list H5) as [E | E].
    - subst OB. destruct (OrderBy q); [left | right]; reflexivity.
    - rewrite E.
      destruct (next_type (t7 ++ t9 ++ [eof])%list); try discriminate;
        split; discriminate.
    - rewrite E. split; discriminate. }
  destruct HnO as [HnO1 HnO2].
  exists eof. unfold parseQuery.
  eapply yields_bind; [apply yields_parseSelectFrom; [exact Hne | exact H1] |].
  eapply yields_bind; [apply yields_parseWhereClause; eassumption |].
  eapply yields_bind; [apply yields_parseOrderByClause; [exact H5 | exact HnL] |].
  eapply yields_bind; [apply yields_parseLimitClause; [exact Hlim | exact H7 | exact HnP] |].
  eapply yields_bind; [apply yields_parseParametersClause; [exact H9 | exact Hn] |].
  apply yields_check. cbn [current_token]. rewrite Heof.
  change (TokenType_eqb TokenEOF TokenEOF) with true. cbn [negb fst snd].
  apply yields_ret.
Qed.

(** What [Parse] makes of the printed form of a query, duplicates among the
    parameters included. *)
Lemma Parse_Query_String (q : Query) :
  printable_clauses q -> Forall plain_parameter (Parameters q) ->
  Parse (Query_String q) = Ok (with_parameters q (set_all (Parameters q))).
Proof.
  intros Hq Hp.
  destruct (Tokenize_lexn _ _ (lexn_query q Hq Hp)) as (toks & Htok & Htv).
  destruct (yields_parseQuery (S (List.length toks)) q toks Hq Htv) as (eof & Hy).
  pose proof (Parse_total (Query_String q)) as Htot.
  unfold Parse in *. rewrite Htok in *. unfold yields in Hy.
  destruct (parseQuery _ toks) as [[q' r] | e |];
    [destruct Hy as [-> _]; reflexivity | contradiction | congruence].
Qed.

Lemma lookup_map_set (m : list (string * string)) (k v k' : string) :
  lookup (map_set m k v) k' = if String.eqb k' k then Some v else lookup m k'.
Proof.
  induction m as [|[k0 v0] m IH]; cbn [map_set lookup]; [reflexivity |].
  destruct (String.eqb k k0) eqn:E; cbn [lookup].
  - apply String.eqb_eq in E. subst k0. destruct (String.eqb k' k); reflexivity.
  - rewrite IH. destruct (String.eqb k' k0) eqn:E0; [| reflexivity].
    apply String.eqb_eq in E0. subst k0.
    rewrite String.eqb_sym, E. reflexivity.
Qed.

Lemma lookup_app {V : Type} (a b : list (string * V)) (k : string) :
  lookup (a ++ b)%list k
  = match lookup a k with Some v => Some v | None => lookup b k end.
Proof.
  induction a as [|[k0 v0] a IH]; cbn [app lookup]; [reflexivity |].
  destruct (String.eqb k k0); [reflexivity | exact IH].
Qed.

Lemma lookup_fold_map_set (kvs : list (string * string)) :
  forall (acc : list (string * string)) (k : string),
    lookup (fold_left (fun m kv => map_set m (fst kv) (snd kv)) kvs acc) k
    = match lookup (rev kvs) k with Some v => Some v | None => lookup acc k end.
Proof.
  induction kvs as [|[k0 v0] kvs IH]; intros acc k; cbn [fold_left rev]; [reflexivity |].
  rewrite IH, lookup_app, lookup_map_set. cbn [fst snd lookup].
  destruct (lookup (rev kvs) k); [reflexivity |].
  destruct (String.eqb k k0); reflexivity.
Qed.

Lemma map_set_fresh (m : list (string * string)) (k v : string) :
  ~ In k (map fst m) -> map_set m k v = (m ++ [(k, v)])%list.
Proof.
  induction m as [|[k0 v0] m IH]; cbn [map_set map fst In app]; [reflexivity |].
  intros H. destruct (String.eqb k k0) eqn:E.
  - apply String.eqb_eq in E. subst k0. exfalso. apply H. left. reflexivity.
  - rewrite IH; [reflexivity |]. intros Hin. apply H. right. exact Hin.
Qed.

Lemma fold_map_set_fresh (kvs : list (string * string)) :
  forall acc : list (string * string),
    NoDup (map fst (acc ++ kvs)%list) ->
    fold_left (fun m kv => map_set m (fst kv) (snd kv)) kvs acc = (acc ++ kvs)%list.
Proof.
  induction kvs as [|[k v] kvs IH]; intros acc H; cbn [fold_left fst snd].
  - rewrite app_nil_r. reflexivity.
  - assert (Hk : ~ In k (map fst acc)).
    { rewrite map_app in H. cbn [map fst] in H. apply NoDup_remove_2 in H.
      intros Hin. apply H. apply in_or_app. left. exact Hin. }
    rewrite (map_set_fresh acc k v Hk).
    rewrite IH; rewrite <- app_assoc; [reflexivity | exact H].
Qed.

Lemma set_all_NoDup (kvs : list (string * string)) :
  NoDup (map fst kvs) -> set_all kvs = kvs.
Proof. intros H. apply (fold_map_set_fresh kvs []). exact H. Qed.

(** X12.  A printable query is read back from its printed form.  When the
    names of the SELECT, WHERE and ORDER BY clauses are dotted plain
    identifiers, FROM is a plain identifier, every condition is a comparison
    with a string without single quote and backslash, a DURING with one of the
    twelve date ranges or a list operator with plain identifiers, the limit is
    zero or a positive 64-bit integer, and the parameters (one entry per key)
    have plain identifiers as names and values, then [Parse] of
    [Query_String q] succeeds with [q] itself.  The parameters are printed in
    the order of the list, which stands for any order Go may range over the
    map in. *)
Theorem X12_printable_round_trip (q : Query) (H : printable q) :
  Parse (Query_String q) = Ok q.
Proof.
  destruct H as (Hq & Hnodup & Hp).
  rewrite (Parse_Query_String q Hq Hp), (set_all_NoDup _ Hnodup).
  destruct q. reflexivity.
Qed.

Lemma X12_printable_round_trip_witness :
  let q :=
    mkQuery [mkField "campaign.id"; mkField "metrics.clicks"] "campaign"
      [ mkCondition "campaign.status" OpIn (Value_list ["ENABLED"; "PAUSED"]);
        mkCondition "segments.date" OpDuring (Value_dr DateRangeLast7Days);
        mkCondition "campaign.name" OpNotLike (Value_str "%test%") ]
      [mkOrdering "metrics.clicks" Desc; mkOrdering "campaign.id" Asc] 25
      [("include_drafts", "true")] in
  Query_String q
  = "SELECT campaign.id, metrics.clicks FROM campaign WHERE campaign.status IN (ENABLED, PAUSED) AND segments.date DURING LAST_7_DAYS AND campaign.name NOT LIKE '%test%' ORDER BY metrics.clicks DESC, campaign.id LIMIT 25 PARAMETERS include_drafts = true"
  /\ Parse (Query_String q) = Ok q.
Proof.
  intros q. split; [vm_compute; reflexivity |].
  apply X12_printable_round_trip. unfold printable, printable_clauses, q.
  cbn [Select From Where OrderBy Limit Parameters].
  repeat split.
  - discriminate.
  - repeat constructor.
  - constructor; [| constructor; [| constructor; [| constructor]]];
      (split; [reflexivity |]); cbn [cOperator cValue].
    + right. right. repeat split; try reflexivity. discriminate.
    + right. left. repeat split; try reflexivity. discriminate.
    + left. repeat split; reflexivity.
  - repeat constructor.
  - lia.
  - repeat constructor. intros [].
  - repeat constructor.
Defined.

Lemma Query_String_parameters (q : Query) (kvs : list (string * string)) :
  Parameters q = [] -> kvs <> [] ->
  Query_String (with_parameters q kvs)
  = Query_String q ++ " PARAMETERS "
    ++ Join (map (fun kv => fst kv ++ " = " ++ snd kv) kvs) ", ".
Proof.
  intros Hq Hk. unfold Query_String, with_parameters.
  cbn [Select From Where OrderBy Limit Parameters]. rewrite Hq.
  destruct kvs as [|kv kvs]; [congruence |].
  rewrite !string_app_assoc. reflexivity.
Qed.

(** X13.  A repeated parameter name overwrites: a PARAMETERS clause added to
    the printed form of a printable query without parameters is parsed into
    the map built by setting the pairs from left to right, in which every name
    has the value of its last pair. *)
Theorem X13_duplicate_parameters (q : Query) (kvs : list (string * string))
    (Hq : printable q) (Hnone : Parameters q = []) (Hne : kvs <> [])
    (Hkvs : Forall plain_parameter kvs) :
  Parse (Query_String q ++ " PARAMETERS "
         ++ Join (map (fun kv => fst kv ++ " = " ++ snd kv) kvs) ", ")
  = Ok (with_parameters q (set_all kvs))
  /\ forall k, lookup (set_all kvs) k = lookup (rev kvs) k.
Proof.
  destruct Hq as (Hq & _ & _). split.
  - rewrite <- (Query_String_parameters q kvs Hnone Hne).
    apply (Parse_Query_String (with_parameters q kvs)); [exact Hq | exact Hkvs].
  - intros k. unfold set_all. rewrite lookup_fold_map_set.
    destruct (lookup (rev kvs) k); reflexivity.
Qed.

Lemma X13_duplicate_parameters_witness :
  Parse "SELECT a FROM b PARAMETERS x = one, y = two, x = three"
  = Ok (mkQuery [mkField "a"] "b" [] [] 0 [("x", "three"); ("y", "two")])
  /\ lookup (set_all [("x", "one"); ("y", "two"); ("x", "three")]) "x" = Some "three".
Proof.
  destruct (X13_duplicate_parameters (mkQuery [mkField "a"] "b" [] [] 0 [])
              [("x", "one"); ("y", "two"); ("x", "three")]) as [H1 H2].
  - unfold printable, printable_clauses.
    cbn [Select From Where OrderBy Limit Parameters].
    repeat split; try (repeat constructor); try lia. discriminate.
  - reflexivity.
  - discriminate.
  - repeat constructor.
  - split; [exact H1 | rewrite H2; reflexivity].
Defined.

Lemma first_error_None_iff {A : Type} (check : A -> verror) (xs : list A) :
  first_error check xs = None <-> Forall (fun x => check x = None) xs.
Proof.
  split; [| apply first_error_None].
  induction xs as [|x xs IH]; cbn [first_error]; [constructor |].
  destruct (check x) eqn:E; [discriminate |]. intros H. constructor; auto.
Qed.

Lemma validateCondition_None (c : Condition) :
  cond_ok c -> (validateCondition c = None <-> between_dates c).
Proof.
  intros [Hname Hval]. unfold validateCondition, between_dates.
  rewrite (validateFieldName_None _ Hname). cbn [or_else].
  destruct (Operator_eqb (cOperator c) OpDuring) eqn:E1.
  { apply Operator_eqb_eq in E1. rewrite E1 in *. cbn [value_permitted] in Hval.
    rewrite Hval.
    change (ValueType_eqb ValueDateRange ValueDateRange) with true.
    change (Operator_eqb OpDuring OpBetween) with false. cbn [negb or_else].
    split; [discriminate | reflexivity]. }
  cbn [or_else].
  destruct (Operator_eqb (cOperator c) OpBetween) eqn:E2.
  - apply Operator_eqb_eq in E2. rewrite E2 in Hval. cbn [value_permitted] in Hval.
    destruct Hval as [Ht Hl]. rewrite Ht, Hl.
    change (ValueType_eqb ValueList ValueList) with true.
    change (2 =? 2)%nat with true. cbn [negb orb].
    rewrite first_error_None_iff. split.
    + intros H _. eapply Forall_impl; [| exact H]. intros d Hd. cbv beta in Hd.
      destruct (datePattern_MatchString d); [left; reflexivity |].
      destruct (isDateRangeKeyword d); [right; reflexivity | discriminate].
    + intros H. specialize (H E2). eapply Forall_impl; [| exact H].
      intros d [-> | ->]; cbn [negb andb]; [reflexivity |].
      rewrite andb_false_r. reflexivity.
  - apply Operator_eqb_neq in E2. split; [intros _ H; contradiction | reflexivity].
Qed.

(** X15.  [ValidateQuery] accepts exactly the texts that parse into a query
    whose BETWEEN bounds are all dates (YYYY-MM-DD) or date-range keywords and
    that passes the single-day rule and the metrics date-context rule: on a
    parsed query the other checks of [Validate] never fail. *)
Theorem X15_validate_query_accepts (s : string) (q : Query) :
  ValidateQuery s = Ok q
  <-> Parse s = Ok q
      /\ Forall between_dates (Where q)
      /\ validateSingleDayResource q = None
      /\ validateMetricDateContext NewValidator q = None.
Proof.
  assert (Hparsed : forall q', Parse s = Ok q' ->
            (Validate NewValidator q' = None
             <-> Forall between_dates (Where q')
                 /\ validateSingleDayResource q' = None
                 /\ validateMetricDateContext NewValidator q' = None)).
  { intros q' Hp. destruct (Parse_validates s q' Hp) as [Hsel Hlim].
    destruct (Parse_ok_inv s q' Hp)
      as (_ & _ & _ & _ & _ & _ & _ & _ & _ & _ & _ & Hfrom & Hconds).
    assert (Hf : validateFrom NewValidator q' = None).
    { unfold validateFrom. apply String.eqb_neq in Hfrom. rewrite Hfrom. reflexivity. }
    assert (Hw : validateWhere q' = None <-> Forall between_dates (Where q')).
    { unfold validateWhere. rewrite first_error_None_iff.
      rewrite !Forall_forall in *. split; intros H c Hc;
        apply (validateCondition_None c (Hconds c Hc)), H, Hc. }
    unfold Validate. rewrite Hsel, Hf, Hlim. cbn [or_else].
    rewrite or_else_None. cbn [or_else]. rewrite or_else_None. tauto. }
  unfold ValidateQuery. split.
  - destruct (Parse s) as [q' | e |] eqn:Hp; [| discriminate | discriminate].
    destruct (Validate NewValidator q') eqn:Hv; [discriminate |].
    intros H. injection H as <-. split; [reflexivity |].
    apply (Hparsed q' eq_refl). exact Hv.
  - intros (Hp & H). rewrite Hp. rewrite (proj2 (Hparsed q Hp) H). reflexivity.
Qed.

(** ** Escapes in string literals *)

Lemma readString_loop_escape (quote : ascii) (sl sc : nat) (v : string) :
  quote = single_quote \/ quote = double_quote ->
  forall (rest : string) (ln col : nat) (sb : string),
    fst (readString_loop quote sl sc (escape v ++ String quote rest) ln col sb)
    = mkToken TokenString (sb ++ v) sl sc
    /\ input (snd (readString_loop quote sl sc (escape v ++ String quote rest) ln col sb))
       = rest.
Proof.
  intros Hquote. induction v as [|c v IH]; intros rest ln col sb.
  - cbn [escape append readString_loop]. rewrite Ascii.eqb_refl, string_app_nil_r.
    split; [reflexivity |]. unfold advance. cbn [input].
    destruct (Ascii.eqb quote newline); reflexivity.
  - cbn [escape]. unfold escape_byte.
    replace (sb ++ String c v) with ((sb ++ String c "") ++ v)
      by (rewrite string_app_assoc; reflexivity).
    destruct (Ascii.eqb c backslash || Ascii.eqb c single_quote
              || Ascii.eqb c double_quote) eqn:E.
    + cbn [append readString_loop].
      assert (Hbq : Ascii.eqb backslash quote = false)
        by (destruct Hquote as [-> | ->]; reflexivity).
      rewrite Hbq, Ascii.eqb_refl.
      assert (Hun : unescape c = c).
      { unfold unescape.
        destruct (Ascii.eqb c "n") eqn:En;
          [apply Ascii.eqb_eq in En; subst c; discriminate |].
        destruct (Ascii.eqb c "t") eqn:Et;
          [apply Ascii.eqb_eq in Et; subst c; discriminate |].
        reflexivity. }
      rewrite Hun. apply IH.
    + apply orb_false_iff in E. destruct E as [E E3].
      apply orb_false_iff in E. destruct E as [E1 E2].
      assert (Hcq : Ascii.eqb c quote = false)
        by (destruct Hquote as [-> | ->]; assumption).
      cbn [append readString_loop]. rewrite Hcq.
      destruct (escape v ++ String quote rest) as [|a s'] eqn:Es.
      * destruct (escape v); discriminate.
      * rewrite E1, <- Es. apply IH.
Qed.

(** X16.  Every string can be written as a literal: with the quotes and the
    backslash of [v] escaped by a backslash, the text between two single or
    two double quotes is lexed as one string token whose value is [v], and
    lexing resumes right after the closing quote. *)
Theorem X16_escaped_literal (quote : ascii) (v rest : string) (l : Lexer)
    (Hquote : quote = single_quote \/ quote = double_quote)
    (Hin : input l = String quote (escape v ++ String quote rest)) :
  fst (nextToken l) = mkToken TokenString v (line l) (column l)
  /\ input (snd (nextToken l)) = rest.
Proof.
  destruct l as [i ln col]. cbn [input line column] in *. subst i.
  assert (E : nextToken (mkLexer (String quote (escape v ++ String quote rest)) ln col)
              = readString_loop quote ln col (escape v ++ String quote rest)
                  ln (col + 1) "")
    by (destruct Hquote as [-> | ->]; reflexivity).
  rewrite E. apply (readString_loop_escape quote ln col v Hquote rest ln (col + 1) "").
Qed.

Lemma X16_escaped_literal_witness :
  fst (nextToken (mkLexer "'it\'s a \\ b' AND" 2 5))
  = mkToken TokenString "it's a \ b" 2 5
  /\ input (snd (nextToken (mkLexer "'it\'s a \\ b' AND" 2 5))) = " AND".
Proof.
  apply (X16_escaped_literal single_quote "it's a \ b" " AND"
           (mkLexer "'it\'s a \\ b' AND" 2 5)).
  - left. reflexivity.
  - reflexivity.
Defined.

(** ** The clause keywords of an accepted text *)

Section Consumes.
Variable P : Token -> Prop.

Lemma consumes_ret {A : Type} (a : A) (toks : list Token) : consumes P (ret a) toks.
Proof. exists []. split; [reflexivity | constructor]. Qed.

Lemma consumes_error {A : Type} (msg : string) (toks : list Token) :
  consumes P (@p_error A msg) toks.
Proof. exact I. Qed.

Lemma consumes_bind {A B : Type} (m : Parser A) (k : A -> Parser B) (toks : list Token) :
  consumes P m toks ->
  (forall a rest, m toks = Ok (a, rest) -> consumes P (k a) rest) ->
  consumes P (bind m k) toks.
Proof.
  unfold consumes, bind. intros Hm Hk.
  destruct (m toks) as [[a rest1] | e |]; [| exact I | exact I].
  destruct Hm as (s1 & -> & Hs1). specialize (Hk a rest1 eq_refl).
  destruct (k a rest1) as [[b rest] | e |]; [| exact I | exact I].
  destruct Hk as (s2 & -> & Hs2). exists (s1 ++ s2)%list.
  split; [apply app_assoc | apply Forall_app; split; assumption].
Qed.

Lemma consumes_current {A : Type} (k : Token -> Parser A) (toks : list Token) :
  consumes P (k (current_token toks)) toks -> consumes P (bind p_current k) toks.
Proof. intros H. exact H. Qed.

Lemma consumes_advance {A : Type} (k : unit -> Parser A) (tok : Token)
    (rest : list Token) :
  P tok -> consumes P (k tt) rest -> consumes P (bind p_advance k) (tok :: rest).
Proof.
  intros Htok H. unfold consumes, bind, p_advance in *. cbn [tl].
  destruct (k tt rest) as [[b r] | e |]; [| exact I | exact I].
  destruct H as (s & -> & Hs). exists (tok :: s).
  split; [reflexivity | constructor; assumption].
Qed.

Lemma consumes_check {A : Type} (t : TokenType) (k : bool -> Parser A)
    (toks : list Token) :
  (tType (current_token toks) = t -> consumes P (k true) toks) ->
  (tType (current_token toks) <> t -> consumes P (k false) toks) ->
  consumes P (bind (p_check t) k) toks.
Proof.
  intros Ht Hf. unfold consumes. rewrite bind_check. unfold TokenType_eqb.
  destruct (TokenType_eq_dec (tType (current_token toks)) t) as [E | E];
    [apply Ht | apply Hf]; exact E.
Qed.

Lemma consumes_match {A : Type} (t : TokenType) (k : bool -> Parser A)
    (toks : list Token) :
  t <> TokenEOF -> (forall tok, tType tok = t -> P tok) ->
  (forall tok rest, toks = tok :: rest -> tType tok = t -> consumes P (k true) rest) ->
  (tType (current_token toks) <> t -> consumes P (k false) toks) ->
  consumes P (bind (p_match t) k) toks.
Proof.
  intros H1 HP Ht Hf. unfold consumes. rewrite bind_match. unfold TokenType_eqb.
  destruct (TokenType_eq_dec (tType (current_token toks)) t) as [E | E].
  - destruct (current_type toks t H1 E) as (tok & rest & -> & Htok). cbn [tl].
    apply (consumes_advance (fun _ => k true) tok rest);
      [apply HP; exact Htok | apply (Ht tok rest eq_refl Htok)].
  - apply Hf. exact E.
Qed.

Lemma consumes_assoc {A B C : Type} (m : Parser A) (f : A -> Parser B)
    (g : B -> Parser C) (toks : list Token) :
  consumes P (bind m (fun x => bind (f x) g)) toks ->
  consumes P (bind (bind m f) g) toks.
Proof. unfold consumes. rewrite bind_assoc. trivial. Qed.

End Consumes.

Ltac body_tac :=
  match goal with
  | H : tType ?t = _ |- body_token ?t =>
      unfold body_token; rewrite H; split; [reflexivity | discriminate]
  | |- forall tok, tType tok = _ -> body_token tok =>
      let tok := fresh "tok" in let H := fresh "H" in
      intros tok H; unfold body_token; rewrite H; split; [reflexivity | discriminate]
  end.

Ltac body_match :=
  apply consumes_match; [discriminate | body_tac | intros ? ? -> ? | intros ?].

Ltac body_step :=
  first
    [ apply consumes_ret
    | apply consumes_error
    | apply consumes_current
    | apply consumes_advance; [body_tac |]
    | body_match ].

Lemma parseField_loop_body :
  forall (fuel : nat) (parts : list string) (toks : list Token),
    consumes body_token (parseField_loop fuel parts) toks.
Proof.
  induction fuel as [|fuel IH]; intros parts toks; [exact I |].
  cbn [parseField_loop]. body_match; [| apply consumes_ret].
  apply consumes_check; intros E; cbn [negb]; [| apply consumes_error].
  destruct (current_type rest TokenIdent ltac:(discriminate) E)
    as (tok2 & rest2 & -> & Htok2).
  apply consumes_current. apply consumes_advance; [body_tac | apply IH].
Qed.

Lemma parseField_body (n : nat) (toks : list Token) :
  consumes body_token (parseField n) toks.
Proof.
  unfold parseField.
  apply consumes_check; intros E; cbn [negb]; [| apply consumes_error].
  destruct (current_type toks TokenIdent ltac:(discriminate) E)
    as (tok & rest & -> & Htok).
  apply consumes_current. apply consumes_advance; [body_tac |].
  apply consumes_bind; [apply parseField_loop_body | intros; apply consumes_ret].
Qed.

Lemma parseFieldList_loop_body (n : nat) :
  forall (fuel : nat) (fields : list Field) (toks : list Token),
    consumes body_token (parseFieldList_loop n fuel fields) toks.
Proof.
  induction fuel as [|fuel IH]; intros fields toks; [exact I |].
  cbn [parseFieldList_loop].
  apply consumes_bind; [apply parseField_body |]. intros f rest _. cbv zeta.
  body_match; [apply IH | apply consumes_ret].
Qed.

Lemma parseFieldList_body (n : nat) (toks : list Token) :
  consumes body_token (parseFieldList n) toks.
Proof.
  unfold parseFieldList.
  apply consumes_bind; [apply parseFieldList_loop_body |].
  intros fs rest _. destruct fs; [apply consumes_error | apply consumes_ret].
Qed.

Lemma parseOperator_body (toks : list Token) : consumes body_token parseOperator toks.
Proof.
  unfold parseOperator. apply consumes_current.
  destruct toks as [|tok rest]; [apply consumes_error |].
  cbn [current_token].
  destruct (tType tok) eqn:E; try apply consumes_error;
    repeat body_step; cbn [negb]; repeat body_step.
Qed.

Lemma parseSimpleValue_body (toks : list Token) :
  consumes body_token parseSimpleValue toks.
Proof.
  unfold parseSimpleValue. apply consumes_current.
  destruct toks as [|tok rest]; [apply consumes_error |].
  cbn [current_token].
  destruct (tType tok) eqn:E; try apply consumes_error; repeat body_step.
Qed.

Lemma parseList_loop_body :
  forall (fuel : nat) (items : list string) (toks : list Token),
    consumes body_token (parseList_loop fuel items) toks.
Proof.
  induction fuel as [|fuel IH]; intros items toks; [exact I |].
  cbn [parseList_loop].
  apply consumes_bind; [apply parseSimpleValue_body |]. intros v rest _. cbv zeta.
  body_match; [apply IH | apply consumes_ret].
Qed.

Lemma parseList_body (n : nat) (toks : list Token) :
  consumes body_token (parseList n) toks.
Proof.
  unfold parseList. body_match; cbn [negb]; [| apply consumes_error].
  apply consumes_bind; [apply parseList_loop_body |]. intros items rest1 _.
  body_match; cbn [negb]; [apply consumes_ret | apply consumes_error].
Qed.

Lemma parseValue_body (n : nat) (op : Operator) (toks : list Token) :
  consumes body_token (parseValue n op) toks.
Proof.
  unfold parseValue. apply consumes_current.
  destruct (Operator_eqb op OpDuring).
  { apply consumes_check; intros E; cbn [negb]; [| apply consumes_error].
    destruct (current_type toks TokenDateRange ltac:(discriminate) E)
      as (tok & rest & -> & Htok).
    cbn [current_token].
    destruct (lookup DateRangeKeywords (tValue tok)); [| apply consumes_error].
    apply consumes_advance; [body_tac | apply consumes_ret]. }
  destruct (Operator_eqb op OpBetween).
  { apply consumes_bind; [apply parseSimpleValue_body |]. intros start rest1 _.
    body_match; cbn [negb]; [| apply consumes_error].
    apply consumes_bind; [apply parseSimpleValue_body |]. intros; apply consumes_ret. }
  destruct (is_list_operator op); [apply parseList_body |].
  destruct toks as [|tok rest]; [apply consumes_error |].
  cbn [current_token].
  destruct (tType tok) eqn:E; try apply consumes_error; repeat body_step.
  destruct (ParseFloat (tValue tok)); [| apply consumes_error].
  repeat body_step.
Qed.

Lemma parseCondition_body (n : nat) (toks : list Token) :
  consumes body_token (parseCondition n) toks.
Proof.
  unfold parseCondition.
  apply consumes_bind; [apply parseField_body |]. intros field rest1 _.
  apply consumes_bind; [apply parseOperator_body |]. intros op rest2 _.
  destruct (_ || _); [apply consumes_ret |].
  apply consumes_bind; [apply parseValue_body |]. intros; apply consumes_ret.
Qed.

Lemma parseConditions_loop_body (n : nat) :
  forall (fuel : nat) (conditions : list Condition) (toks : list Token),
    consumes body_token (parseConditions_loop n fuel conditions) toks.
Proof.
  induction fuel as [|fuel IH]; intros conditions toks; [exact I |].
  cbn [parseConditions_loop].
  apply consumes_bind; [apply parseCondition_body |]. intros c rest _. cbv zeta.
  body_match; [apply IH | apply consumes_ret].
Qed.

Lemma parseOrderings_loop_body (n : nat) :
  forall (fuel : nat) (orderings : list Ordering) (toks : list Token),
    consumes body_token (parseOrderings_loop n fuel orderings) toks.
Proof.
  induction fuel as [|fuel IH]; intros orderings toks; [exact I |].
  cbn [parseOrderings_loop].
  apply consumes_bind; [apply parseField_body |]. intros f rest1 _.
  assert (Hcomma : forall dir toks',
             consumes body_token
               (comma <- p_match TokenComma ;;
                if comma
                then parseOrderings_loop n fuel
                       (orderings ++ [mkOrdering (fName f) dir])%list
                else ret (orderings ++ [mkOrdering (fName f) dir])%list) toks').
  { intros dir toks'. body_match; [apply IH | apply consumes_ret]. }
  body_match.
  - apply (Hcomma Desc).
  - apply consumes_assoc. body_match; apply (Hcomma Asc).
Qed.

Lemma parseParameters_loop_body :
  forall (fuel : nat) (params : list (string * string)) (toks : list Token),
    consumes body_token (parseParameters_loop fuel params) toks.
Proof.
  induction fuel as [|fuel IH]; intros params toks; [exact I |].
  cbn [parseParameters_loop].
  apply consumes_check; intros E; cbn [negb]; [| apply consumes_error].
  destruct (current_type toks TokenIdent ltac:(discriminate) E)
    as (name & rest & -> & Hname).
  apply consumes_current. apply consumes_advance; [body_tac |].
  body_match; cbn [negb]; [| apply consumes_error].
  apply consumes_bind; [apply parseSimpleValue_body |]. intros val rest2 _. cbv zeta.
  body_match; [apply IH | apply consumes_ret].
Qed.

Lemma parseConditions_loop_nonempty (n : nat) :
  forall (fuel : nat) (conditions : list Condition) (toks : list Token) cs rest,
    parseConditions_loop n fuel conditions toks = Ok (cs, rest) -> cs <> [].
Proof.
  induction fuel as [|fuel IH]; intros conditions toks cs rest H; [discriminate |].
  cbn [parseConditions_loop] in H. unfold bind at 1 in H.
  destruct (parseCondition n toks) as [[c r1] | e |]; [| discriminate | discriminate].
  cbv zeta in H. rewrite bind_match in H.
  destruct (TokenType_eqb (tType (current_token r1)) TokenAnd).
  - apply (IH _ _ _ _ H).
  - injection H as <- _. destruct conditions; discriminate.
Qed.

Lemma parseOrderings_loop_nonempty (n : nat) :
  forall (fuel : nat) (orderings : list Ordering) (toks : list Token) os rest,
    parseOrderings_loop n fuel orderings toks = Ok (os, rest) -> os <> [].
Proof.
  induction fuel as [|fuel IH]; intros orderings toks os rest H; [discriminate |].
  cbn [parseOrderings_loop] in H. unfold bind at 1 in H.
  destruct (parseField n toks) as [[f r1] | e |]; [| discriminate | discriminate].
  rewrite bind_match in H.
  assert (Hk : forall dir r,
             (comma <- p_match TokenComma ;;
              if comma
              then parseOrderings_loop n fuel
                     (orderings ++ [mkOrdering (fName f) dir])%list
              else ret (orderings ++ [mkOrdering (fName f) dir])%list) r
             = Ok (os, rest) -> os <> []).
  { intros dir r Hr. rewrite bind_match in Hr.
    destruct (TokenType_eqb (tType (current_token r)) TokenComma).
    - apply (IH _ _ _ _ Hr).
    - injection Hr as <- _. destruct orderings; discriminate. }
  destruct (TokenType_eqb (tType (current_token r1)) TokenDesc).
  - apply (Hk Desc (tl r1)). exact H.
  - rewrite bind_assoc, bind_match in H.
    destruct (TokenType_eqb (tType (current_token r1)) TokenAsc).
    + apply (Hk Asc (tl r1)). exact H.
    + apply (Hk Asc r1). exact H.
Qed.

Lemma map_set_nonempty (m : list (string * string)) (k v : string) :
  map_set m k v <> [].
Proof.
  destruct m as [|[k' v'] m]; cbn [map_set]; [discriminate |].
  destruct (String.eqb k k'); discriminate.
Qed.

Lemma parseParameters_loop_nonempty :
  forall (fuel : nat) (params : list (string * string)) (toks : list Token) ps rest,
    parseParameters_loop fuel params toks = Ok (ps, rest) -> ps <> [].
Proof.
  induction fuel as [|fuel IH]; intros params toks ps rest H; [discriminate |].
  cbn [parseParameters_loop] in H. rewrite bind_check in H.
  destruct (TokenType_eqb (tType (current_token toks)) TokenIdent);
    cbn [negb] in H; [| discriminate].
  rewrite bind_current in H. unfold bind at 1 in H. cbn [p_advance] in H.
  rewrite bind_match in H.
  destruct (TokenType_eqb (tType (current_token (tl toks))) TokenEq);
    cbn [negb] in H; [| discriminate].
  unfold bind at 1 in H.
  destruct (parseSimpleValue (tl (tl toks))) as [[v r1] | e |];
    [| discriminate | discriminate].
  cbv zeta in H. rewrite bind_match in H.
  destruct (TokenType_eqb (tType (current_token r1)) TokenComma).
  - apply (IH _ _ _ _ H).
  - injection H as <- _. apply map_set_nonempty.
Qed.

Lemma keywords_in_app (a b : list Token) :
  keywords_in (a ++ b)%list = (keywords_in a ++ keywords_in b)%list.
Proof. unfold keywords_in. rewrite map_app, filter_app. reflexivity. Qed.

Lemma keywords_in_body (seg : list Token) :
  Forall body_token seg -> keywords_in seg = [].
Proof.
  induction 1 as [|t seg [Ht _] _ IH]; [reflexivity |].
  unfold keywords_in in *. cbn [map filter]. rewrite Ht. exact IH.
Qed.

Lemma body_no_eof (seg : list Token) :
  Forall body_token seg -> Forall (fun t => tType t <> TokenEOF) seg.
Proof. apply Forall_impl. intros t [_ H]. exact H. Qed.

(** An optional clause: its keyword, then its body. *)
Lemma optional_clause_keywords {A : Type} (kw : TokenType) (body : Parser A)
    (dflt : A) (is_empty : A -> bool) (toks rest : list Token) (a : A) :
  clause_keyword kw = true ->
  (forall toks', consumes body_token body toks') ->
  (forall toks' a' r', body toks' = Ok (a', r') -> is_empty a' = false) ->
  is_empty dflt = true ->
  (isKw <- p_match kw ;; if isKw then body else ret dflt) toks = Ok (a, rest) ->
  exists seg,
    toks = (seg ++ rest)%list
    /\ keywords_in seg = (if is_empty a then [] else [kw])
    /\ Forall (fun t => tType t <> TokenEOF) seg.
Proof.
  intros Hkw Hbody Hne Hdflt H. rewrite bind_match in H.
  destruct (TokenType_eqb (tType (current_token toks)) kw) eqn:E.
  - apply TokenType_eqb_eq in E.
    assert (Hk : kw <> TokenEOF) by (intros ->; discriminate).
    destruct (current_type toks kw Hk E) as (w & r0 & -> & Hw). cbn [tl] in H.
    pose proof (Hbody r0) as Hb. unfold consumes in Hb. rewrite H in Hb.
    destruct Hb as (seg & -> & Hseg). exists (w :: seg).
    split; [reflexivity |]. rewrite (Hne _ _ _ H). split.
    + unfold keywords_in. cbn [map filter]. rewrite Hw, Hkw.
      fold (keywords_in seg). rewrite (keywords_in_body seg Hseg). reflexivity.
    + constructor; [rewrite Hw; exact Hk | apply body_no_eof; exact Hseg].
  - injection H as <- <-. exists []. rewrite Hdflt.
    split; [reflexivity |]. split; [reflexivity | constructor].
Qed.

Lemma is_nil_false {A : Type} (l : list A) : l <> [] -> is_nil l = false.
Proof. destruct l; [congruence | reflexivity]. Qed.

Lemma parseSelectFrom_keywords (n : nat) (toks rest : list Token)
    (sf : list Field * string) :
  parseSelectFrom n toks = Ok (sf, rest) ->
  exists seg,
    toks = (seg ++ rest)%list
    /\ keywords_in seg = [TokenSelect; TokenFrom]
    /\ Forall (fun t => tType t <> TokenEOF) seg.
Proof.
  unfold parseSelectFrom. rewrite bind_match.
  destruct (TokenType_eqb (tType (current_token toks)) TokenSelect) eqn:E1;
    cbn [negb]; [| discriminate].
  apply TokenType_eqb_eq in E1.
  destruct (current_type toks TokenSelect ltac:(discriminate) E1)
    as (sel & r0 & -> & Hsel).
  cbn [tl]. unfold bind at 1.
  pose proof (parseFieldList_body n r0) as Hb. unfold consumes in Hb.
  destruct (parseFieldList n r0) as [[fields r1] | e |]; [| discriminate | discriminate].
  destruct Hb as (s1 & -> & Hs1). rewrite bind_match.
  destruct (TokenType_eqb (tType (current_token r1)) TokenFrom) eqn:E2;
    cbn [negb]; [| discriminate].
  apply TokenType_eqb_eq in E2.
  destruct (current_type r1 TokenFrom ltac:(discriminate) E2)
    as (from & r2 & -> & Hfrom).
  cbn [tl]. rewrite bind_check.
  destruct (TokenType_eqb (tType (current_token r2)) TokenIdent) eqn:E3;
    cbn [negb]; [| discriminate].
  apply TokenType_eqb_eq in E3.
  destruct (current_type r2 TokenIdent ltac:(discriminate) E3)
    as (id & r3 & -> & Hid).
  intros H. injection H as _ <-.
  exists (sel :: s1 ++ [from; id])%list. split.
  { cbn [app]. rewrite <- app_assoc. reflexivity. }
  split.
  - change (sel :: s1 ++ [from; id])%list with ([sel] ++ s1 ++ [from; id])%list.
    rewrite !keywords_in_app, (keywords_in_body s1 Hs1).
    unfold keywords_in. cbn [map filter]. rewrite Hsel, Hfrom, Hid. reflexivity.
  - constructor; [rewrite Hsel; discriminate |].
    apply Forall_app. split; [apply body_no_eof; exact Hs1 |].
    repeat constructor; [rewrite Hfrom | rewrite Hid]; discriminate.
Qed.

Lemma parseLimit_body (toks : list Token) :
  consumes body_token
    (ok <- p_check TokenNumber ;;
     if negb ok then p_error "expected number after LIMIT" else
     tok <- p_current ;;
     match Atoi (tValue tok) with
     | None => p_error ("invalid LIMIT value: " ++ tValue tok)
     | Some limit =>
         if (limit <=? 0)%Z then p_error "LIMIT must be a positive integer"
         else p_advance ;;; ret limit
     end) toks.
Proof.
  apply consumes_check; intros E; cbn [negb]; [| apply consumes_error].
  destruct (current_type toks TokenNumber ltac:(discriminate) E)
    as (num & rest & -> & Hnum).
  apply consumes_current. cbn [current_token].
  destruct (Atoi (tValue num)) as [limit|]; [| apply consumes_error].
  destruct (limit <=? 0)%Z; [apply consumes_error |].
  apply consumes_advance; [body_tac | apply consumes_ret].
Qed.

Lemma parseLimit_positive (toks : list Token) (limit : Z) (r : list Token) :
  (ok <- p_check TokenNumber ;;
   if negb ok then p_error "expected number after LIMIT" else
   tok <- p_current ;;
   match Atoi (tValue tok) with
   | None => p_error ("invalid LIMIT value: " ++ tValue tok)
   | Some limit =>
       if (limit <=? 0)%Z then p_error "LIMIT must be a positive integer"
       else p_advance ;;; ret limit
   end) toks = Ok (limit, r) ->
  negb (0 <? limit)%Z = false.
Proof.
  rewrite bind_check.
  destruct (TokenType_eqb (tType (current_token toks)) TokenNumber);
    cbn [negb]; [| discriminate].
  rewrite bind_current.
  destruct (Atoi (tValue (current_token toks))) as [l|]; [| discriminate].
  destruct (l <=? 0)%Z eqn:E; [discriminate |].
  intros H. injection H as <- _. apply Z.leb_gt in E.
  apply negb_false_iff, Z.ltb_lt. exact E.
Qed.

(** X18.  The clause keywords of an accepted text are those of the clauses
    the query has, once each and in the order of the grammar: SELECT and FROM,
    then WHERE if there are conditions, ORDER BY if there are orderings, LIMIT
    if the limit is set, PARAMETERS if there are parameters.  No clause
    keyword occurs anywhere else among the tokens. *)
Theorem X18_clause_keywords (s : string) (q : Query) (toks : list Token)
    (Hparse : Parse s = Ok q) (Hlex : Tokenize s = Ok toks) :
  filter clause_keyword (map tType toks) = clause_keywords_of q.
Proof.
  unfold Parse in Hparse. rewrite Hlex in Hparse.
  destruct (parseQuery_on_tokens s toks Hlex) as (body & eof & Htoks & Heof & Hbody & Hinv).
  pose proof (parseQuery_ok (S (List.length toks)) toks (Nat.lt_succ_diag_r _) Hinv) as Hp.
  set (n := S (List.length toks)) in *.
  destruct (parseQuery n toks) as [[q' r] | e |] eqn:Hq; [| discriminate | discriminate].
  injection Hparse as ->.
  destruct Hp as (seg' & _ & _ & _ & _ & _ & _ & Hrest).
  unfold parseQuery in Hq. unfold bind at 1 in Hq.
  destruct (parseSelectFrom n toks) as [[sf r1] | e |] eqn:H1;
    [| discriminate | discriminate].
  unfold bind at 1 in Hq.
  destruct (parseWhereClause n r1) as [[conds r2] | e |] eqn:H2;
    [| discriminate | discriminate].
  unfold bind at 1 in Hq.
  destruct (parseOrderByClause n r2) as [[ords r3] | e |] eqn:H3;
    [| discriminate | discriminate].
  unfold bind at 1 in Hq.
  destruct (parseLimitClause r3) as [[limit r4] | e |] eqn:H4;
    [| discriminate | discriminate].
  unfold bind at 1 in Hq.
  destruct (parseParametersClause n r4) as [[params r5] | e |] eqn:H5;
    [| discriminate | discriminate].
  rewrite bind_check in Hq.
  destruct (TokenType_eqb (tType (current_token r5)) TokenEOF); cbn [negb] in Hq;
    [| discriminate].
  injection Hq as <- <-.
  destruct (parseSelectFrom_keywords n toks r1 sf H1) as (s1 & E1 & K1 & N1).
  destruct (optional_clause_keywords TokenWhere (parseConditions n) [] is_nil
              r1 r2 conds eq_refl
              (fun t => parseConditions_loop_body n n [] t)
              (fun t a r H => is_nil_false a (parseConditions_loop_nonempty n n [] t a r H))
              eq_refl H2) as (s2 & E2 & K2 & N2).
  destruct (optional_clause_keywords TokenOrderBy (parseOrderings n) [] is_nil
              r2 r3 ords eq_refl
              (fun t => parseOrderings_loop_body n n [] t)
              (fun t a r H => is_nil_false a (parseOrderings_loop_nonempty n n [] t a r H))
              eq_refl H3) as (s3 & E3 & K3 & N3).
  destruct (optional_clause_keywords TokenLimit _ 0%Z (fun l => negb (0 <? l)%Z)
              r3 r4 limit eq_refl parseLimit_body parseLimit_positive
              eq_refl H4) as (s4 & E4 & K4 & N4).
  destruct (optional_clause_keywords TokenParameters (parseParameters n) [] is_nil
              r4 r5 params eq_refl
              (fun t => parseParameters_loop_body n [] t)
              (fun t a r H => is_nil_false a (parseParameters_loop_nonempty n [] t a r H))
              eq_refl H5) as (s5 & E5 & K5 & N5).
  assert (Hsplit : (body ++ [eof])%list = ((s1 ++ s2 ++ s3 ++ s4 ++ s5) ++ r5)%list).
  { rewrite <- Htoks, E1, E2, E3, E4, E5, <- !app_assoc. reflexivity. }
  assert (Hnoeof : Forall (fun t => tType t <> TokenEOF) (s1 ++ s2 ++ s3 ++ s4 ++ s5)%list).
  { repeat (apply Forall_app; split; try assumption). }
  cbn [fst snd] in Hrest.
  destruct (split_at_eof _ _ _ _ Hbody Hnoeof Heof Hrest Hsplit) as [Hseg ->].
  rewrite Htoks, <- Hseg.
  change (filter clause_keyword (map tType ((s1 ++ s2 ++ s3 ++ s4 ++ s5) ++ [eof])%list))
    with (keywords_in ((s1 ++ s2 ++ s3 ++ s4 ++ s5) ++ [eof])%list).
  rewrite !keywords_in_app, K1, K2, K3, K4, K5.
  unfold keywords_in at 1. cbn [map filter]. rewrite Heof. cbn [clause_keyword].
  unfold clause_keywords_of. cbn [Where OrderBy Limit Parameters].
  rewrite app_nil_r.
  destruct conds, ords, params, (0 <? limit)%Z; reflexivity.
Qed.

Lemma X18_clause_keywords_witness :
  exists q toks,
    Parse "select a from b limit 5 parameters x = y" = Ok q
    /\ Tokenize "select a from b limit 5 parameters x = y" = Ok toks
    /\ filter clause_keyword (map tType toks) = clause_keywords_of q
    /\ clause_keywords_of q = [TokenSelect; TokenFrom; TokenLimit; TokenParameters].
Proof.
  eexists. eexists.
  split; [vm_compute; reflexivity |]. split; [vm_compute; reflexivity |].
  split; [| reflexivity].
  apply (X18_clause_keywords "select a from b limit 5 parameters x = y");
    vm_compute; reflexivity.
Defined.

(** X17.  [Parse] returns on every input, with a query or with an error: no
    loop of the lexer runs more rounds than the input has bytes (plus one),
    and no loop of the parser more rounds than there are tokens (plus one). *)
Theorem X17_parse_returns (s : string) :
  (exists q, Parse s = Ok q) \/ (exists e, Parse s = Err e).
Proof.
  pose proof (Parse_total s) as H.
  destruct (Parse s) as [q | e |]; [left; eauto | right; eauto | congruence].
Qed.
